(** * brickd: SPI stack support for the RED Brick (red_stack.c)

    A shallow embedding of the SPI frame handling, the slave discovery, the
    polling loop and the request dispatch of [src/brickd/red_stack.c],
    together with the properties the design document states about them.

    Conventions.
    - A byte ([uint8_t]) is a [Z]; buffers are [list Z].  Where the C code
      stores a computed value into a byte the wrap-around is written out
      ([u8]).
    - A [Packet] is its 80 byte memory image; [header.length] is the byte at
      offset 4 and [header.uid] the little-endian word at offset 0.
    - Array indices and loop counters that the code keeps below 8 or 16
      ([stack_address], [is], [iu], [slave_num], [uids_num], [tries]) are
      [nat]; a pointer [&_red_stack.slaves[i]] is the index [i].
    - The SPI device, the only source of non-determinism, is a function of
      the number of the transfer, the selected slave and the transmitted
      frame. *)

From stdpp Require Import base numbers list.

Local Open Scope Z_scope.

(** ** Constants *)

Definition RED_STACK_SPI_PACKET_SIZE : Z := 84.
Definition RED_STACK_SPI_PACKET_EMPTY_SIZE : Z := 4.
Definition RED_STACK_SPI_PREAMBLE_VALUE : Z := 0xAA.
Definition RED_STACK_SPI_PREAMBLE : Z := 0.
Definition RED_STACK_SPI_LENGTH : Z := 1.
Definition RED_STACK_SPI_INFO (length : Z) : Z := length - 2.
Definition RED_STACK_SPI_CHECKSUM (length : Z) : Z := length - 1.
Definition RED_STACK_SPI_INFO_BUSY : Z := Z.shiftl 1 0.
Definition RED_STACK_SPI_MAX_SLAVES : nat := 8.
Definition RED_STACK_SPI_ROUTING_WAIT : Z := 1000 * 1000 * 50.
Definition RED_STACK_SPI_ROUTING_TRIES : nat := 10.

Definition RED_STACK_TRANSCEIVE_DATA_SEND : Z := Z.shiftl 1 8.
Definition RED_STACK_TRANSCEIVE_DATA_RECEIVED : Z := Z.shiftl 1 7.
Definition RED_STACK_TRANSCEIVE_RESULT_SEND_ERROR : Z := Z.shiftl 1 0.
Definition RED_STACK_TRANSCEIVE_RESULT_SEND_BUSY : Z := Z.shiftl 2 0.
Definition RED_STACK_TRANSCEIVE_RESULT_SEND_NONE : Z := Z.shiftl 3 0.
Definition RED_STACK_TRANSCEIVE_RESULT_SEND_OK : Z := Z.shiftl 4 0.
Definition RED_STACK_TRANSCEIVE_RESULT_READ_ERROR : Z := Z.shiftl 1 3.
Definition RED_STACK_TRANSCEIVE_RESULT_READ_NONE : Z := Z.shiftl 2 3.
Definition RED_STACK_TRANSCEIVE_RESULT_READ_OK : Z := Z.shiftl 3 3.

(** Modelled from the spec: [sizeof(Packet)] of daemonlib/packet.h, which is
    not part of the sources at hand; the payload budget of a frame is 80
    bytes. *)
Definition sizeof_Packet : Z := 80.

(** Modelled from the spec: [sizeof(PacketHeader)] of daemonlib/packet.h;
    the header is 8 bytes (uid:u32-le, length:u8, function:u8, options:u8,
    flags:u8). *)
Definition sizeof_PacketHeader : Z := 8.

(** Modelled from the spec: [PACKET_STACK_ENUMERATE_MAX_UIDS] of
    daemonlib/packet.h; a slave holds up to N = 16 UIDs. *)
Definition PACKET_STACK_ENUMERATE_MAX_UIDS : nat := 16.

(** Modelled from the spec: [FUNCTION_STACK_ENUMERATE] of
    daemonlib/packet.h, the function id of the enumerate request.  Its value
    plays no role below. *)
Definition FUNCTION_STACK_ENUMERATE : Z := 252.

(** ** Bytes and buffers *)

Definition u8 (x : Z) : Z := x mod 256.

(** [a[i]] for a byte array, index given as the C expression computes it. *)
Definition byte_at (a : list Z) (i : Z) : Z := nth (Z.to_nat i) a 0.

(** [a[i] = v]. *)
Definition byte_set (a : list Z) (i : Z) (v : Z) : list Z :=
  <[Z.to_nat i := v]> a.

(** [memcpy(dst + off, src, n)]. *)
Definition memcpy (dst : list Z) (off : nat) (src : list Z) (n : nat) : list Z :=
  take off dst ++ take n src ++ drop (off + n) dst.

Definition Packet := list Z.

Definition header_length (p : Packet) : Z := byte_at p 4.
Definition set_header_length (p : Packet) (v : Z) : Packet := byte_set p 4 v.

(** A 32 bit little-endian word at byte offset [off]. *)
Definition le32_at (p : list Z) (off : nat) : Z :=
  nth off p 0 + 256 * (nth (off + 1) p 0
    + 256 * (nth (off + 2) p 0 + 256 * nth (off + 3) p 0)).

Definition header_uid (p : Packet) : Z := le32_at p 0.

(** ** Pearson hash *)

Definition RED_STACK_SPI_PEARSON_PERMUTATION_SIZE : nat := 256.

Definition _red_stack_spi_pearson_permutation : list Z :=
  [ 1; 87; 49; 12; 176; 178; 102; 166; 121; 193; 6; 84; 249; 230; 44; 163;
    14; 197; 213; 181; 161; 85; 218; 80; 64; 239; 24; 226; 236; 142; 38; 200;
    110; 177; 104; 103; 141; 253; 255; 50; 77; 101; 81; 18; 45; 96; 31; 222;
    25; 107; 190; 70; 86; 237; 240; 34; 72; 242; 20; 214; 244; 227; 149; 235;
    97; 234; 57; 22; 60; 250; 82; 175; 208; 5; 127; 199; 111; 62; 135; 248;
    174; 169; 211; 58; 66; 154; 106; 195; 245; 171; 17; 187; 182; 179; 0; 243;
    132; 56; 148; 75; 128; 133; 158; 100; 130; 126; 91; 13; 153; 246; 216; 219;
    119; 68; 223; 78; 83; 88; 201; 99; 122; 11; 92; 32; 136; 114; 52; 10;
    138; 30; 48; 183; 156; 35; 61; 26; 143; 74; 251; 94; 129; 162; 63; 152;
    170; 7; 115; 167; 241; 206; 3; 150; 55; 59; 151; 220; 90; 53; 23; 131;
    125; 173; 15; 238; 79; 95; 89; 16; 105; 137; 225; 224; 217; 160; 37; 123;
    118; 73; 2; 157; 46; 116; 9; 145; 134; 228; 207; 212; 202; 215; 69; 229;
    27; 188; 67; 124; 168; 252; 42; 4; 29; 108; 21; 247; 19; 205; 39; 203;
    233; 40; 186; 147; 198; 192; 155; 33; 164; 191; 98; 204; 165; 180; 117; 76;
    140; 36; 210; 172; 41; 54; 159; 8; 185; 232; 113; 196; 231; 47; 146; 120;
    51; 65; 28; 144; 254; 221; 93; 189; 194; 139; 112; 43; 71; 109; 184; 209 ].

(** [PEARSON(cur, next)]: one step of the hash. *)
Definition PEARSON (cur next : Z) : Z :=
  byte_at _red_stack_spi_pearson_permutation (Z.lxor cur next).

(** [red_stack_spi_calculate_pearson_hash(data, length)]; the parameter is a
    [uint8_t], so the argument is truncated on the way in. *)
Definition red_stack_spi_calculate_pearson_hash (data : list Z) (length : Z) : Z :=
  fold_left PEARSON (take (Z.to_nat (u8 length)) data) 0.

(** ** Slaves *)

Inductive REDStackSlaveStatus : Type :=
| RED_STACK_SLAVE_STATUS_ABSENT
| RED_STACK_SLAVE_STATUS_AVAILABLE
| RED_STACK_SLAVE_STATUS_AVAILABLE_BUSY.

Record REDStackSlave : Type := mkSlave {
  stack_address : nat;
  status : REDStackSlaveStatus;
  slave_select_pin : Z;
  uids : list Z;
  uids_num : nat
}.

Definition set_status (s : REDStackSlave) (st : REDStackSlaveStatus) : REDStackSlave :=
  mkSlave (stack_address s) st (slave_select_pin s) (uids s) (uids_num s).

Definition set_uids (s : REDStackSlave) (us : list Z) (n : nat) : REDStackSlave :=
  mkSlave (stack_address s) (status s) (slave_select_pin s) us n.

(** ** Log lines

    What is logged matters to the claims only as "an error was logged"; the
    lines carry the values the format strings print. *)

Inductive LogLine : Type :=
| ErrSendLength (length : Z)              (* "Send length is greater then allowed" *)
| ErrSlaveNotPresent (address : nat)      (* "Slave with stack address %d is not present in stack" *)
| ErrIoctl (length_send : Z)              (* "ioctl has unexpected return" *)
| ErrPreamble (preamble : Z)              (* "Received packet without proper preamble" *)
| ErrMalformedLength (length : Z)         (* "Received packet with malformed length" *)
| ErrChecksum (computed received : Z)     (* "Received packet with wrong checksum" *)
| ErrUnknownUid (uid : Z)                 (* "Could not find UID %s in list of known SPI UIDs, discarding message" *)
| DbgEmptyWithHeader                      (* "Received empty packet over SPI (w/ header)" *)
| DbgReceived                             (* "Received packet over SPI (%s)" *)
| DbgOther.                               (* any other log_debug / log_info line *)

Definition is_error (l : LogLine) : bool :=
  match l with
  | DbgEmptyWithHeader | DbgReceived | DbgOther => false
  | _ => true
  end.

(** ** red_stack_spi_transceive_message *)

(** Lines 235-266: the TX frame is zeroed, gets its preamble and, depending
    on the request and the slave's status, its length byte and payload.
    [None] for the frame stands for [goto ret]. *)
Definition transceive_fill_tx (packet_send : option Packet) (slave : REDStackSlave)
  : Z * option (list Z) * list LogLine :=
  let retval := 0 in
  let tx := replicate (Z.to_nat RED_STACK_SPI_PACKET_SIZE) 0 in
  let tx := byte_set tx RED_STACK_SPI_PREAMBLE RED_STACK_SPI_PREAMBLE_VALUE in
  match packet_send, status slave with
  | None, _ | _, RED_STACK_SLAVE_STATUS_AVAILABLE_BUSY =>
      let tx := byte_set tx RED_STACK_SPI_LENGTH 4 in
      (Z.lor retval RED_STACK_TRANSCEIVE_RESULT_SEND_NONE, Some tx, [])
  | Some packet, RED_STACK_SLAVE_STATUS_AVAILABLE =>
      let length := header_length packet in
      if sizeof_Packet <? length then
        (Z.lor retval RED_STACK_TRANSCEIVE_RESULT_SEND_ERROR, None,
         [ErrSendLength length])
      else
        let retval := Z.lor retval (Z.lor RED_STACK_TRANSCEIVE_DATA_SEND
                                          RED_STACK_TRANSCEIVE_RESULT_SEND_OK) in
        let tx := byte_set tx RED_STACK_SPI_LENGTH
                    (u8 (length + RED_STACK_SPI_PACKET_EMPTY_SIZE)) in
        let tx := memcpy tx 2 packet (Z.to_nat length) in
        (retval, Some tx, [])
  | Some _, RED_STACK_SLAVE_STATUS_ABSENT =>
      (Z.lor retval RED_STACK_TRANSCEIVE_RESULT_SEND_ERROR, None,
       [ErrSlaveNotPresent (stack_address slave)])
  end.

(** Lines 268-273: info byte and checksum close the frame. *)
Definition transceive_close_tx (tx : list Z) : list Z :=
  let length := byte_at tx RED_STACK_SPI_LENGTH in
  let tx := byte_set tx (RED_STACK_SPI_INFO length) 0 in
  byte_set tx (RED_STACK_SPI_CHECKSUM length)
    (red_stack_spi_calculate_pearson_hash tx (length - 1)).

(** The frame that goes out over SPI for a request and a slave, if any. *)
Definition transceive_tx (packet_send : option Packet) (slave : REDStackSlave)
  : option (list Z) :=
  transceive_close_tx <$> (transceive_fill_tx packet_send slave).1.2.

(** What [transceive_check_rx] hands back: the return value, the receive
    packet, the slave's status and the lines logged. *)
Record RxResult : Type := mkRx {
  rx_retval : Z;
  rx_packet_recv : Packet;
  rx_status : REDStackSlaveStatus;
  rx_log : list LogLine
}.

(** Lines 293-342: the checks on the received frame, the status update and
    the copy into the receive packet. *)
Definition transceive_check_rx (retval : Z) (rx : list Z) (packet_recv : Packet)
    (st : REDStackSlaveStatus) : RxResult :=
  if negb (byte_at rx RED_STACK_SPI_PREAMBLE =? RED_STACK_SPI_PREAMBLE_VALUE) then
    if byte_at rx RED_STACK_SPI_PREAMBLE =? 0 then
      mkRx (Z.lor retval RED_STACK_TRANSCEIVE_RESULT_READ_NONE) packet_recv st []
    else
      mkRx (Z.lor retval RED_STACK_TRANSCEIVE_RESULT_READ_ERROR) packet_recv st
           [ErrPreamble (byte_at rx RED_STACK_SPI_PREAMBLE)]
  else
    let length := byte_at rx RED_STACK_SPI_LENGTH in
    if (length <? RED_STACK_SPI_PACKET_EMPTY_SIZE + sizeof_PacketHeader)
       || (RED_STACK_SPI_PACKET_SIZE <? length) then
      mkRx (Z.lor retval RED_STACK_TRANSCEIVE_RESULT_READ_ERROR) packet_recv st
           [ErrMalformedLength length]
    else
      let checksum := red_stack_spi_calculate_pearson_hash rx (length - 1) in
      if negb (checksum =? byte_at rx (RED_STACK_SPI_CHECKSUM length)) then
        mkRx (Z.lor retval RED_STACK_TRANSCEIVE_RESULT_READ_ERROR) packet_recv st
             [ErrChecksum checksum (byte_at rx (RED_STACK_SPI_CHECKSUM length))]
      else
        let st :=
          if negb (Z.land (byte_at rx (RED_STACK_SPI_INFO length))
                          RED_STACK_SPI_INFO_BUSY =? 0)
          then RED_STACK_SLAVE_STATUS_AVAILABLE_BUSY
          else RED_STACK_SLAVE_STATUS_AVAILABLE in
        if length =? RED_STACK_SPI_PACKET_EMPTY_SIZE then
          mkRx (Z.lor retval RED_STACK_TRANSCEIVE_RESULT_READ_NONE) packet_recv st
               [DbgEmptyWithHeader]
        else
          mkRx (Z.lor retval (Z.lor RED_STACK_TRANSCEIVE_RESULT_READ_OK
                                    RED_STACK_TRANSCEIVE_DATA_RECEIVED))
               (memcpy packet_recv 0 (drop 2 rx)
                       (Z.to_nat (length - RED_STACK_SPI_PACKET_EMPTY_SIZE)))
               st [DbgReceived].

(** The receive buffer after the transfer: [rx] is an array of 84 bytes,
    zeroed before the device fills it. *)
Definition rx_buffer (received : list Z) : list Z :=
  take (Z.to_nat RED_STACK_SPI_PACKET_SIZE)
       (received ++ replicate (Z.to_nat RED_STACK_SPI_PACKET_SIZE) 0).

(** The result of one call: return value, receive packet, the slave (its
    status may have changed), the frame that was clocked out if the transfer
    was reached, and the lines logged. *)
Record TransceiveResult : Type := mkTransceive {
  tr_retval : Z;
  tr_packet_recv : Packet;
  tr_slave : REDStackSlave;
  tr_tx : option (list Z);
  tr_log : list LogLine
}.

(** [red_stack_spi_transceive_message(packet_send, packet_recv, slave)];
    [ioctl] is the SPI transfer: from the TX frame to the return value of
    the system call and the bytes received.  [length_send] is a [uint8_t]. *)
Definition red_stack_spi_transceive_message (ioctl : list Z -> Z * list Z)
    (packet_send : option Packet) (packet_recv : Packet) (slave : REDStackSlave)
  : TransceiveResult :=
  let packet_recv := set_header_length packet_recv 0 in
  match transceive_fill_tx packet_send slave with
  | (retval, None, log) => mkTransceive retval packet_recv slave None log
  | (retval, Some tx, log) =>
      let tx := transceive_close_tx tx in
      let '(ret, received) := ioctl tx in
      let rx := rx_buffer received in
      let length_send := u8 ret in
      if negb (length_send =? RED_STACK_SPI_PACKET_SIZE) then
        mkTransceive (Z.lor RED_STACK_TRANSCEIVE_RESULT_SEND_ERROR
                            RED_STACK_TRANSCEIVE_RESULT_READ_ERROR)
                     packet_recv slave (Some tx) (log ++ [ErrIoctl length_send])
      else
        let r := transceive_check_rx retval rx packet_recv (status slave) in
        mkTransceive (rx_retval r) (rx_packet_recv r)
                     (set_status slave (rx_status r)) (Some tx)
                     (log ++ rx_log r)
  end.

(** The fields of the return value. *)
Definition data_send (retval : Z) : bool :=
  negb (Z.land retval RED_STACK_TRANSCEIVE_DATA_SEND =? 0).
Definition data_received (retval : Z) : bool :=
  negb (Z.land retval RED_STACK_TRANSCEIVE_DATA_RECEIVED =? 0).
Definition result_send (retval : Z) : Z := Z.land retval 7.
Definition result_read (retval : Z) : Z := Z.land retval (Z.shiftl 3 3).

(** ** The stack and the world around it *)

(** An item of [packet_to_spi_queue]; [rsp_slave] is the pointer into
    [_red_stack.slaves]. *)
Record REDStackPacket : Type := mkREDStackPacket {
  rsp_slave : nat;
  rsp_packet : Packet
}.

Record REDStack : Type := mkREDStack {
  slaves : list REDStackSlave;
  slave_num : nat;
  packet_from_spi : Packet;
  packet_to_spi_queue : list REDStackPacket
}.

(** What the code does to the outside, in order. [EvExchange] is one
    select / ioctl / deselect of lines 281-283 and records, next to the pin
    and the frame, the slave's address and its status when
    [red_stack_spi_transceive_message] was called. *)
Inductive Event : Type :=
| EvExchange (pin : Z) (address : nat) (st : REDStackSlaveStatus) (tx : list Z)
| EvLog (l : LogLine)
| EvSleep (ns : Z)
| EvStackAddUid (uid : Z)
| EvDispatchResponse (p : Packet).

Record World : Type := mkWorld {
  red_stack : REDStack;               (* _red_stack *)
  thread_running : bool;              (* _red_stack_spi_thread_running *)
  stack_address_cycle : nat;          (* local of red_stack_spi_thread *)
  transfers : nat;                    (* SPI transfers issued so far *)
  trace : list Event
}.

Definition with_stack (w : World) (s : REDStack) : World :=
  mkWorld s (thread_running w) (stack_address_cycle w) (transfers w) (trace w).
Definition with_events (w : World) (es : list Event) : World :=
  mkWorld (red_stack w) (thread_running w) (stack_address_cycle w) (transfers w)
          (trace w ++ es).
Definition with_slaves (s : REDStack) (l : list REDStackSlave) : REDStack :=
  mkREDStack l (slave_num s) (packet_from_spi s) (packet_to_spi_queue s).
Definition with_queue (s : REDStack) (q : list REDStackPacket) : REDStack :=
  mkREDStack (slaves s) (slave_num s) (packet_from_spi s) q.

(** The entry of the slave table a pointer refers to.  Every pointer the code
    forms is within the array; the default only makes the function total. *)
Definition null_slave : REDStackSlave :=
  mkSlave 0 RED_STACK_SLAVE_STATUS_ABSENT 0 [] 0.
Definition slave_at (s : REDStack) (i : nat) : REDStackSlave :=
  nth i (slaves s) null_slave.
Definition status_at (w : World) (i : nat) : REDStackSlaveStatus :=
  status (slave_at (red_stack w) i).

(** [for(i = lo; i < lo + n; i++) if(p(i)) return i;] *)
Fixpoint for_find (p : nat -> bool) (i n : nat) : option nat :=
  match n with
  | O => None
  | S n' => if p i then Some i else for_find p (S i) n'
  end.

(** [red_stack_spi_get_slave_for_uid(uid)]: the index of the slave, [None]
    for [NULL]. *)
Definition red_stack_spi_get_slave_for_uid (s : REDStack) (uid : Z) : option nat :=
  for_find
    (fun is_ =>
       bool_decide (is_Some
         (for_find (fun iu => nth iu (uids (slave_at s is_)) 0 =? uid)
                   0 (uids_num (slave_at s is_)))))
    0 (slave_num s).

Section WithDevice.

(** The SPI device: the number of the transfer, the address of the selected
    slave and the frame sent give the return value of [ioctl] and the frame
    received. *)
Variable spi : nat -> nat -> list Z -> Z * list Z.

(** The contents of the uninitialised local [Packet packet] in each round of
    [red_stack_spi_create_routing_table]. *)
Variable stack_garbage : nat -> Packet.

(** A call of [red_stack_spi_transceive_message] on the slave with index
    [i], with its effects on the world. *)
Definition transceive (packet_send : option Packet) (packet_recv : Packet)
    (i : nat) (w : World) : Z * Packet * World :=
  let slave := slave_at (red_stack w) i in
  let r := red_stack_spi_transceive_message
             (spi (transfers w) (stack_address slave))
             packet_send packet_recv slave in
  let s := with_slaves (red_stack w) (<[i := tr_slave r]> (slaves (red_stack w))) in
  let exchange :=
    match tr_tx r with
    | Some tx => [EvExchange (slave_select_pin slave) (stack_address slave)
                             (status slave) tx]
    | None => []
    end in
  (tr_retval r, tr_packet_recv r,
   mkWorld s (thread_running w) (stack_address_cycle w)
           (transfers w + length exchange)%nat
           (trace w ++ exchange ++ (EvLog <$> tr_log r))).

(** ** red_stack_spi_create_routing_table *)

(** [for(tries = 0; tries < RED_STACK_SPI_ROUTING_TRIES; tries++)
       { ret = transceive(...); if(ret & flag) break; SLEEP_NS(...); }]
    with [n] rounds left; gives back [tries] after the loop. *)
Fixpoint routing_tries (packet_send : option Packet) (flag : Z -> bool) (i : nat)
    (n : nat) (tries : nat) (packet : Packet) (w : World) : nat * Packet * World :=
  match n with
  | O => (tries, packet, w)
  | S n' =>
      let '(ret, packet, w) := transceive packet_send packet i w in
      if flag ret then (tries, packet, w)
      else routing_tries packet_send flag i n' (S tries) packet
             (with_events w [EvSleep RED_STACK_SPI_ROUTING_WAIT])
  end.

(** [response->uids[i]] of a [StackEnumerateResponse]: the header is followed
    by the UIDs. *)
Definition response_uid (response : Packet) (i : nat) : Z :=
  le32_at response (Z.to_nat sizeof_PacketHeader + 4 * i).

(** Lines 410-421: copies UIDs until the first zero; gives back [i] after
    the loop. *)
Fixpoint copy_uids (response : Packet) (n : nat) (i : nat)
    (us : list Z) (es : list Event) : nat * list Z * list Event :=
  match n with
  | O => (i, us, es)
  | S n' =>
      if negb (response_uid response i =? 0) then
        let us := <[i := response_uid response i]> us in
        copy_uids response n' (S i) us
                  (es ++ [EvStackAddUid (nth i us 0); EvLog DbgOther])
      else (i, us, es)
  end.

(** The [StackEnumerateRequest] of line 363. *)
Definition enumerate_request : Packet :=
  [0; 0; 0; 0; sizeof_PacketHeader; FUNCTION_STACK_ENUMERATE; 0x08; 0].

Definition set_slave (w : World) (i : nat) (sl : REDStackSlave) : World :=
  with_stack w (with_slaves (red_stack w) (<[i := sl]> (slaves (red_stack w)))).

(** Lines 371-381: the slot [i] is taken to be available and the enumerate
    request is sent, up to ten times. *)
Definition send_phase (i : nat) (w : World) : nat * Packet * World :=
  let w := set_slave w i
             (set_status (slave_at (red_stack w) i) RED_STACK_SLAVE_STATUS_AVAILABLE) in
  routing_tries (Some enumerate_request) data_send i
                RED_STACK_SPI_ROUTING_TRIES 0 (stack_garbage i) w.

(** Lines 391-398: the response is polled for, up to ten times. *)
Definition receive_phase (i : nat) (packet : Packet) (w : World)
  : nat * Packet * World :=
  routing_tries None data_received i RED_STACK_SPI_ROUTING_TRIES 0 packet w.

(** One round of the [while] loop, lines 359-424, for the slot [i];
    [false] stands for [break]. *)
Definition routing_round (i : nat) (w : World) : bool * World :=
  let '(tries, packet, w) := send_phase i w in
  if (tries =? RED_STACK_SPI_ROUTING_TRIES)%nat then
    (false, set_slave w i
               (set_status (slave_at (red_stack w) i) RED_STACK_SLAVE_STATUS_ABSENT))
  else
    let '(tries, packet, w) := receive_phase i packet w in
    if (tries =? RED_STACK_SPI_ROUTING_TRIES)%nat then
      (false, set_slave w i
                 (set_status (slave_at (red_stack w) i) RED_STACK_SLAVE_STATUS_ABSENT))
    else
      let slave := slave_at (red_stack w) i in
      let '(n, us, es) :=
        copy_uids packet PACKET_STACK_ENUMERATE_MAX_UIDS 0 (uids slave) [] in
      (true, with_events (set_slave w i (set_uids slave us n)) es).

(** The send or the receive phase of the slot [i] used up its tries. *)
Definition slot_exhausted (i : nat) (w : World) : bool :=
  let '(tries, packet, w) := send_phase i w in
  (tries =? RED_STACK_SPI_ROUTING_TRIES)%nat
  || ((receive_phase i packet w).1.1 =? RED_STACK_SPI_ROUTING_TRIES)%nat.

(** The world after the rounds for the slots [a], ..., [a + k - 1]. *)
Fixpoint rounds_from (a k : nat) (w : World) : World :=
  match k with
  | O => w
  | S k' => rounds_from (S a) k' (routing_round a w).2
  end.

(** [while(stack_address < RED_STACK_SPI_MAX_SLAVES) { ... stack_address++; }]
    with [n] slots left; gives back [stack_address] after the loop. *)
Fixpoint routing_loop (n : nat) (stack_address : nat) (w : World) : nat * World :=
  match n with
  | O => (stack_address, w)
  | S n' =>
      let '(continue, w) := routing_round stack_address w in
      if continue then routing_loop n' (S stack_address) w
      else (stack_address, w)
  end.

Definition red_stack_spi_create_routing_table (w : World) : World :=
  let w := with_events w [EvLog DbgOther] in
  let '(stack_address, w) := routing_loop RED_STACK_SPI_MAX_SLAVES 0 w in
  let s := red_stack w in
  with_events
    (with_stack w (mkREDStack (slaves s) stack_address (packet_from_spi s)
                              (packet_to_spi_queue s)))
    [EvLog DbgOther].

(** ** red_stack_spi_thread *)

(** Lines 444-452: the thread discovers the slaves and leaves if there are
    none. *)
Definition red_stack_spi_thread_start (w : World) : World :=
  let w := red_stack_spi_create_routing_table w in
  if (slave_num (red_stack w) =? 0)%nat then with_events w [EvLog DbgOther]
  else mkWorld (red_stack w) true 0 (transfers w) (trace w).

(** Lines 454-504: one round of the [while] loop.  The wait on the semaphore
    ends when the event thread has run [red_stack_dispatch_from_spi], which
    hands [packet_from_spi] to [network_dispatch_response]; the sleep until
    the deadline has no effect on the state. *)
Definition red_stack_spi_thread_round (w : World) : World :=
  let s := red_stack w in
  let s := mkREDStack (slaves s) (slave_num s)
                      (replicate (Z.to_nat sizeof_Packet) 0)
                      (packet_to_spi_queue s) in
  let '(request, slave, cycle, es) :=
    match packet_to_spi_queue s with
    | [] =>
        let c := S (stack_address_cycle w) in
        (None, stack_address_cycle w,
         (if (slave_num s <=? c)%nat then 0 else c)%nat, [])
    | packet_to_spi :: _ =>
        (Some (rsp_packet packet_to_spi), rsp_slave packet_to_spi,
         stack_address_cycle w, [EvLog DbgOther])
    end in
  let w := mkWorld s (thread_running w) cycle (transfers w) (trace w ++ es) in
  let '(ret, packet, w) := transceive request (packet_from_spi s) slave w in
  let s := red_stack w in
  let s := mkREDStack (slaves s) (slave_num s) packet (packet_to_spi_queue s) in
  let s := if data_send ret then with_queue s (tail (packet_to_spi_queue s)) else s in
  let w := with_stack w s in
  if data_received ret then with_events w [EvDispatchResponse packet] else w.

(** ** Event thread *)

(** [red_stack_exit]: the thread is told to stop and joined. *)
Definition red_stack_exit (w : World) : World :=
  mkWorld (red_stack w) false (stack_address_cycle w) (transfers w) (trace w).

(** [memcpy(&queued_request->packet, request, request->header.length)] into
    the fresh item [queue_push] returns.

    Modelled from the spec: [queue_push] of daemonlib/queue.c is not part of
    the sources at hand; the packet of a work item is a copy of the caller's
    request sized by its declared length, and is taken to be zero beyond
    it. *)
Definition queued_packet (request : Packet) : Packet :=
  let n := Z.to_nat (header_length request) in
  take (Z.to_nat sizeof_Packet)
       (take n request ++ replicate (Z.to_nat sizeof_Packet - n) 0).

(** [red_stack_dispatch_to_spi(stack, request)]. *)
Definition red_stack_dispatch_to_spi (request : Packet) (w : World) : World :=
  let s := red_stack w in
  if header_uid request =? 0 then
    let items := (fun is_ => mkREDStackPacket is_ (queued_packet request))
                   <$> seq 0 (slave_num s) in
    with_events (with_stack w (with_queue s (packet_to_spi_queue s ++ items)))
                ((fun _ => EvLog DbgOther) <$> items)
  else
    match red_stack_spi_get_slave_for_uid s (header_uid request) with
    | None => with_events w [EvLog (ErrUnknownUid (header_uid request))]
    | Some slave =>
        with_events
          (with_stack w (with_queue s (packet_to_spi_queue s ++
                           [mkREDStackPacket slave (queued_packet request)])))
          [EvLog DbgOther]
    end.

(** Lines 558-572 of [red_stack_init_spi]: the slave table at startup.
    [_red_stack_slave_select_pins]: pins 8 to 15 of port C. *)
Definition _red_stack_slave_select_pins : list Z := [8; 9; 10; 11; 12; 13; 14; 15].

Definition initial_slave (slave : nat) : REDStackSlave :=
  mkSlave slave RED_STACK_SLAVE_STATUS_ABSENT
          (nth slave _red_stack_slave_select_pins 0)
          (replicate PACKET_STACK_ENUMERATE_MAX_UIDS 0) 0.

(** The world when [red_stack_init_spi] creates the thread: [_red_stack] is
    a static, hence zeroed, and the queue is empty. *)
Definition initial_world : World :=
  mkWorld (mkREDStack (initial_slave <$> seq 0 RED_STACK_SPI_MAX_SLAVES) 0
                      (replicate (Z.to_nat sizeof_Packet) 0) [])
          false 0 0 [].

(** The worlds the daemon can be in once the thread has been created: the
    event thread may dispatch requests at any time, the thread discovers the
    slaves and then polls for as long as it is running.

    The discovery is taken as one step.  A request dispatched while it runs
    finds [slave_num] still 0, as one dispatched before it does: it is
    queued for no slave and changes nothing but the log. *)
Inductive before_discovery : World -> Prop :=
| bd_init : before_discovery initial_world
| bd_dispatch w request :
    before_discovery w -> before_discovery (red_stack_dispatch_to_spi request w).

Inductive reachable : World -> Prop :=
| reach_discovered w :
    before_discovery w -> reachable (red_stack_spi_thread_start w)
| reach_dispatch w request :
    reachable w -> reachable (red_stack_dispatch_to_spi request w)
| reach_exit w :
    reachable w -> reachable (red_stack_exit w)
| reach_round w :
    reachable w -> thread_running w = true ->
    reachable (red_stack_spi_thread_round w).

End WithDevice.

(** ** The frame codec as the design document words it

    [spec_build] follows the document (section 4.1): preamble, length
    [4 + |payload|], payload, info byte, Pearson checksum over what precedes,
    zero up to 84 bytes.  It is compared with the frame the code assembles. *)
Definition spec_build (payload : list Z) (info : Z) : list Z :=
  let body := [RED_STACK_SPI_PREAMBLE_VALUE; 4 + Z.of_nat (length payload)]
                ++ payload ++ [info] in
  let frame := body ++ [fold_left PEARSON body 0] in
  frame ++ replicate (Z.to_nat RED_STACK_SPI_PACKET_SIZE - length frame) 0.

(** The frame of a poll. *)
Definition poll_frame : list Z := spec_build [] 0.

(** ** Well-formed buffers *)

(** The bytes of a buffer are bytes, and the declared length of a packet
    lies within the object it is read from. *)
Definition is_bytes (l : list Z) : Prop := Forall (fun b => 0 <= b < 256) l.
Definition packet_ok (p : Packet) : Prop :=
  is_bytes p /\ (Z.to_nat (header_length p) <= length p)%nat.

(** ** Received frames *)

(** The checks of lines 293-325 on a received frame. *)
Definition rx_accepted (rx : list Z) : bool :=
  (byte_at rx RED_STACK_SPI_PREAMBLE =? RED_STACK_SPI_PREAMBLE_VALUE)
  && negb ((byte_at rx RED_STACK_SPI_LENGTH
              <? RED_STACK_SPI_PACKET_EMPTY_SIZE + sizeof_PacketHeader)
           || (RED_STACK_SPI_PACKET_SIZE <? byte_at rx RED_STACK_SPI_LENGTH))
  && (red_stack_spi_calculate_pearson_hash rx (byte_at rx RED_STACK_SPI_LENGTH - 1)
        =? byte_at rx (RED_STACK_SPI_CHECKSUM (byte_at rx RED_STACK_SPI_LENGTH))).

(** The info byte of a received frame. *)
Definition rx_info (rx : list Z) : Z :=
  byte_at rx (RED_STACK_SPI_INFO (byte_at rx RED_STACK_SPI_LENGTH)).

(** ** Predicates on worlds and events *)

(** [w'] differs from [w] in the slave table at most by the status of the
    slave [i] (and possibly in the trace, the transfer count and the staged
    packet). *)
Definition status_only (i : nat) (w w' : World) : Prop :=
  length (slaves (red_stack w')) = length (slaves (red_stack w)) /\
  (forall j, j <> i -> slave_at (red_stack w') j = slave_at (red_stack w) j) /\
  slave_at (red_stack w') i
    = set_status (slave_at (red_stack w) i) (status_at w' i) /\
  slave_num (red_stack w') = slave_num (red_stack w) /\
  packet_to_spi_queue (red_stack w') = packet_to_spi_queue (red_stack w) /\
  thread_running w' = thread_running w /\
  stack_address_cycle w' = stack_address_cycle w.

Definition is_log (e : Event) : Prop :=
  match e with EvLog _ => True | _ => False end.

(** An event of a call of the transceiver on [slave] with [packet_send]. *)
Definition event_from (slave : REDStackSlave) (packet_send : option Packet)
    (e : Event) : Prop :=
  match e with
  | EvExchange pin a st tx =>
      pin = slave_select_pin slave /\ a = stack_address slave /\
      st = status slave /\ transceive_tx packet_send slave = Some tx
  | EvLog _ => True
  | _ => False
  end.

(** The slave that is selected for an exchange is not absent. *)
Definition selected_present (e : Event) : Prop :=
  match e with
  | EvExchange _ _ st _ => st <> RED_STACK_SLAVE_STATUS_ABSENT
  | _ => True
  end.

(** An event of the discovery of the slot [i]. *)
Definition round_event (i : nat) (e : Event) : Prop :=
  match e with
  | EvExchange _ a st _ => a = i /\ st <> RED_STACK_SLAVE_STATUS_ABSENT
  | EvStackAddUid uid => uid <> 0
  | EvDispatchResponse _ => False
  | _ => True
  end.

(** An event of a discovery that ended at the slot [n]. *)
Definition discovery_event (n : nat) (e : Event) : Prop :=
  match e with
  | EvExchange _ a st _ =>
      (a <= n)%nat /\ (a < RED_STACK_SPI_MAX_SLAVES)%nat /\
      st <> RED_STACK_SLAVE_STATUS_ABSENT
  | EvStackAddUid uid => uid <> 0
  | EvDispatchResponse _ => False
  | _ => True
  end.

(** The UIDs of a slave: [uids_num] non-zero entries, then zeros. *)
Definition uids_ok (s : REDStackSlave) : Prop :=
  length (uids s) = PACKET_STACK_ENUMERATE_MAX_UIDS /\
  (uids_num s <= PACKET_STACK_ENUMERATE_MAX_UIDS)%nat /\
  (forall iu, (iu < uids_num s)%nat -> nth iu (uids s) 0 <> 0) /\
  (forall iu, (uids_num s <= iu)%nat -> nth iu (uids s) 0 = 0).

(** [uid] is registered with the slave [i]. *)
Definition registered (s : REDStack) (i : nat) (uid : Z) : Prop :=
  exists iu, (iu < uids_num (slave_at s i))%nat /\ nth iu (uids (slave_at s i)) 0 = uid.

(** [w'] comes from [w] by steps of the discovery of the slot [i]: the other
    slots, the number of slaves, the queue and the thread's variables are as
    they were, and the events added are events of that slot. *)
Definition round_step (i : nat) (w w' : World) : Prop :=
  length (slaves (red_stack w')) = length (slaves (red_stack w)) /\
  (forall j, j <> i -> slave_at (red_stack w') j = slave_at (red_stack w) j) /\
  slave_num (red_stack w') = slave_num (red_stack w) /\
  packet_to_spi_queue (red_stack w') = packet_to_spi_queue (red_stack w) /\
  thread_running w' = thread_running w /\
  stack_address_cycle w' = stack_address_cycle w /\
  exists es, trace w' = trace w ++ es /\ Forall (round_event i) es.

(** The slot [i] is as at startup but for its status, which is not ABSENT. *)
Definition probing (i : nat) (w : World) : Prop :=
  exists st, st <> RED_STACK_SLAVE_STATUS_ABSENT /\
    slave_at (red_stack w) i = set_status (initial_slave i) st.

(** The invariant of the polling loop: the slots below [slave_num] are
    present, the cursor and the work items point at them, and no exchange
    was made with an absent slave. *)
Definition polling_inv (w : World) : Prop :=
  length (slaves (red_stack w)) = RED_STACK_SPI_MAX_SLAVES /\
  (slave_num (red_stack w) <= RED_STACK_SPI_MAX_SLAVES)%nat /\
  (forall j, (j < slave_num (red_stack w))%nat ->
     status_at w j <> RED_STACK_SLAVE_STATUS_ABSENT) /\
  (thread_running w = true ->
     (stack_address_cycle w < slave_num (red_stack w))%nat) /\
  Forall (fun item => (rsp_slave item < slave_num (red_stack w))%nat)
         (packet_to_spi_queue (red_stack w)) /\
  Forall selected_present (trace w).

(** The worlds that follow a world while the thread polls and the event
    thread dispatches requests. *)
Inductive polls (spi : nat -> nat -> list Z -> Z * list Z) (w : World)
  : World -> Prop :=
| polls_refl : polls spi w w
| polls_round w' :
    polls spi w w' -> polls spi w (red_stack_spi_thread_round spi w')
| polls_dispatch w' request :
    polls spi w w' -> polls spi w (red_stack_dispatch_to_spi request w').

(** ** A stack with one slave, for the examples

    The slave in slot 0 answers the first poll with an enumerate response
    that lists the UIDs 1 and 2; nothing answers in slot 1. *)

Definition slave0 (st : REDStackSlaveStatus) : REDStackSlave :=
  mkSlave 0 st 8 (replicate 16 0) 0.

(** The enumerate request as a full packet. *)
Definition enumerate_packet : Packet := enumerate_request ++ replicate 72 0.

(** A request that declares 5 bytes, less than a packet header. *)
Definition short_packet : Packet := [1; 2; 3; 4; 5] ++ replicate 75 0.

Definition le32_bytes (u : Z) : list Z :=
  [u mod 256; (u / 256) mod 256; (u / 65536) mod 256; (u / 16777216) mod 256].

Definition enumerate_response (us : list Z) : Packet :=
  [0; 0; 0; 0; 72; FUNCTION_STACK_ENUMERATE; 8; 0]
    ++ take 64 (concat (le32_bytes <$> us) ++ replicate 64 0).

Definition one_slave_device (transfer : nat) (address : nat) (tx : list Z)
  : Z * list Z :=
  match address, transfer with
  | O, 1%nat => (84, spec_build (enumerate_response [1; 2]) 0)
  | _, _ => (84, replicate 84 0)
  end.

Definition some_garbage (i : nat) : Packet := replicate 80 255.

(** A device on which every transfer fails. *)
Definition failing_device (tx : list Z) : Z * list Z := (-1, []).

(** A request for the device with the given UID. *)
Definition request_for (uid : Z) : Packet :=
  le32_bytes uid ++ [8; 1; 0; 0] ++ replicate 72 0.

(** An oversized request for the device with the given UID. *)
Definition oversized_request_for (uid : Z) : Packet :=
  le32_bytes uid ++ [81; 1; 0; 0] ++ replicate 72 0.

(** The world once the slave has been discovered. *)
Definition one_slave_world : World :=
  red_stack_spi_thread_start one_slave_device some_garbage initial_world.

(** The world after a request for UID 2 has been dispatched and the thread
    has made one round. *)
Definition polled_world : World :=
  red_stack_spi_thread_round one_slave_device
    (red_stack_dispatch_to_spi (request_for 2) one_slave_world).

(** The world with a request for UID 2 in the queue and the slave busy. *)
Definition busy_world : World :=
  let w := red_stack_dispatch_to_spi (request_for 2) one_slave_world in
  set_slave w 0 (set_status (slave_at (red_stack w) 0)
                            RED_STACK_SLAVE_STATUS_AVAILABLE_BUSY).

(** The world with an oversized request for UID 2 in the queue. *)
Definition oversized_world : World :=
  red_stack_dispatch_to_spi (oversized_request_for 2) one_slave_world.

(** ** More worlds for the examples *)

(** A world with three slaves, an empty queue and the cursor on slave 1. *)
Definition three_slaves_world : World :=
  mkWorld (mkREDStack
             ((fun i => set_status (initial_slave i) RED_STACK_SLAVE_STATUS_AVAILABLE)
                <$> seq 0 RED_STACK_SPI_MAX_SLAVES)
             3 (replicate (Z.to_nat sizeof_Packet) 0) [])
          true 1 0 [].

(** ** The device as the discovery sees it *)

(** The transfer number [t], an enumerate request to the slave [i], returns
    84 bytes. *)
Definition send_ok (spi : nat -> nat -> list Z -> Z * list Z) (t i : nat) : bool :=
  u8 (spi t i (spec_build enumerate_request 0)).1 =? RED_STACK_SPI_PACKET_SIZE.

(** The transfer number [t], a poll of the slave [i], returns 84 bytes and a
    frame that passes the checks of the receiver. *)
Definition poll_delivers (spi : nat -> nat -> list Z -> Z * list Z) (t i : nat)
  : bool :=
  (u8 (spi t i poll_frame).1 =? RED_STACK_SPI_PACKET_SIZE)
  && rx_accepted (rx_buffer (spi t i poll_frame).2).

(** The slot [i] is in the table under its address, and is taken to be
    available: the state of the send phase. *)
Definition sending (i : nat) (w : World) : Prop :=
  (i < length (slaves (red_stack w)))%nat /\
  stack_address (slave_at (red_stack w) i) = i /\
  status_at w i = RED_STACK_SLAVE_STATUS_AVAILABLE.

(** The slot [i] is in the table under its address. *)
Definition addressed (i : nat) (w : World) : Prop :=
  (i < length (slaves (red_stack w)))%nat /\
  stack_address (slave_at (red_stack w) i) = i.

(** The number of times the thread slept in a trace. *)
Definition is_sleep (e : Event) : bool :=
  match e with EvSleep _ => true | _ => false end.

Definition sleeps (es : list Event) : nat :=
  length (filter (fun e => is_sleep e = true) es).

(** A device whose first slave needs three tries to take the request and
    two polls to answer it. *)
Definition slow_device (transfer : nat) (address : nat) (tx : list Z)
  : Z * list Z :=
  match address, transfer with
  | O, 0%nat | O, 1%nat => (-1, [])
  | O, 4%nat => (84, spec_build (enumerate_response [1; 2]) 0)
  | _, _ => (84, replicate 84 0)
  end.

(** The world in which the first slave of the slow device has taken the
    request. *)
Definition request_taken_world : World :=
  (send_phase slow_device some_garbage 0 initial_world).2.

(** ** The deadline of the polling thread

    [struct timespec]; a value [clock_gettime] gives has
    [0 <= tv_nsec < 1000000000]. *)
Record timespec : Type := mkTimespec { tv_sec : Z; tv_nsec : Z }.

(** Lines 506-513 of [red_stack_spi_thread]: 500us are added to the
    deadline, which is then normalised across the second boundary. *)
Definition spi_deadline_advance (spi_deadline : timespec) : timespec :=
  let spi_deadline :=
    mkTimespec (tv_sec spi_deadline) (tv_nsec spi_deadline + 1000 * 500) in
  if 1000000000 <=? tv_nsec spi_deadline then
    let spi_deadline :=
      mkTimespec (tv_sec spi_deadline) (tv_nsec spi_deadline - 1000000000) in
    mkTimespec (tv_sec spi_deadline + 1) (tv_nsec spi_deadline)
  else spi_deadline.

Definition nanoseconds (t : timespec) : Z := tv_sec t * 1000000000 + tv_nsec t.

(** ** utils.h

    [#define GROW_ALLOCATION(size) ((((size) - 1) / 16 + 1) * 16)]; the
    division of C truncates. *)
Definition GROW_ALLOCATION (size : Z) : Z := ((size - 1) ÷ 16 + 1) * 16.

(** ** red_stack_init

    The calls of [red_stack_init] and [red_stack_init_spi] that can fail;
    the environment gives the value each of them returns. *)
Inductive InitCall : Type :=
| stack_create | hardware_add_stack | pipe_create | event_add_source
| queue_create | gpio_init | spi_open
| ioctl_mode | ioctl_max_speed_hz | ioctl_bits_per_word | ioctl_lsb_first
| semaphore_create.

(** What the initialisation does, in the order it does it; [ActLogError c]
    is the [log_error] that follows the failure of the call [c]. *)
Inductive InitAction : Type :=
| ActCall (c : InitCall)
| ActLogError (c : InitCall)
| ActLogDebug
| ActInitSlaves
| ActMutexCreate
| ActThreadCreate
| ActEventRemoveSource
| ActPipeDestroy
| ActStackDestroy.

(** [if(c(...) < 0) { log_error(...); return -1; }] followed by [k]. *)
Definition check (env : InitCall -> Z) (c : InitCall) (k : Z * list InitAction)
  : Z * list InitAction :=
  if env c <? 0 then (-1, [ActCall c; ActLogError c])
  else (k.1, ActCall c :: k.2).

Definition act (a : InitAction) (k : Z * list InitAction) : Z * list InitAction :=
  (k.1, a :: k.2).

(** Lines 537-613. The loop over the slaves that cannot fail is one action;
    the table it leaves is the one of [initial_world]. *)
Definition red_stack_init_spi (env : InitCall -> Z) : Z * list InitAction :=
  check env queue_create (
  check env gpio_init (
  act ActInitSlaves (
  check env spi_open (
  check env ioctl_mode (
  check env ioctl_max_speed_hz (
  check env ioctl_bits_per_word (
  check env ioctl_lsb_first (
  check env semaphore_create (
  act ActMutexCreate (
  act ActThreadCreate (0, []))))))))))).

(** Lines 679-725: the steps before the label [cleanup]; gives back [phase]
    as it is at the label. *)
Definition red_stack_init_steps (env : InitCall -> Z) : nat * list InitAction :=
  let phase := 0%nat in
  if env stack_create <? 0 then
    (phase, [ActLogDebug; ActCall stack_create; ActLogError stack_create])
  else
  let phase := 1%nat in
  if env hardware_add_stack <? 0 then
    (phase, [ActLogDebug; ActCall stack_create; ActCall hardware_add_stack])
  else
  let phase := 2%nat in
  if env pipe_create <? 0 then
    (phase, [ActLogDebug; ActCall stack_create; ActCall hardware_add_stack;
             ActCall pipe_create; ActLogError pipe_create])
  else
  let phase := 3%nat in
  if env event_add_source <? 0 then
    (phase, [ActLogDebug; ActCall stack_create; ActCall hardware_add_stack;
             ActCall pipe_create; ActCall event_add_source;
             ActLogError event_add_source])
  else
  let '(ret, actions) := red_stack_init_spi env in
  let actions :=
    [ActLogDebug; ActCall stack_create; ActCall hardware_add_stack;
     ActCall pipe_create; ActCall event_add_source] ++ actions in
  if ret <? 0 then (phase, actions)
  else
  let phase := 4%nat in
  (phase, actions).

(** Lines 727-739: the [switch] whose cases fall through. *)
Definition red_stack_init_cleanup (phase : nat) : list InitAction :=
  let case_1 := [ActStackDestroy] in
  let case_2 := ActPipeDestroy :: case_1 in
  let case_3 := ActEventRemoveSource :: case_2 in
  match phase with
  | 3%nat => case_3
  | 2%nat => case_2
  | 1%nat => case_1
  | _ => []
  end.

Definition red_stack_init (env : InitCall -> Z) : Z * list InitAction :=
  let '(phase, actions) := red_stack_init_steps env in
  (if (phase =? 4)%nat then 0 else -1, actions ++ red_stack_init_cleanup phase).

(** An environment in which the SPI device cannot be opened. *)
Definition no_spidev (c : InitCall) : Z :=
  match c with spi_open => -1 | _ => 0 end.

(** An environment in which the notification pipe cannot be created. *)
Definition no_pipe (c : InitCall) : Z :=
  match c with pipe_create => -1 | _ => 0 end.

(** * red_extension.c *)

(** ** red_extension_exit *)

Inductive ExtensionType : Type :=
| EXTENSION_TYPE_NONE
| EXTENSION_TYPE_CHIBI
| EXTENSION_TYPE_RS485
| EXTENSION_TYPE_WIFI
| EXTENSION_TYPE_ETHERNET.

Definition EXTENSION_NUM_MAX : nat := 2.

(** The calls of [red_extension_exit]. *)
Inductive ExitCall : Type :=
| red_rs485_extension_exit
| red_ethernet_extension_exit.

(** The [switch] of [red_extension_exit]: the call that ends an extension
    of the given type, if there is one. *)
Definition exit_call (t : ExtensionType) : list ExitCall :=
  match t with
  | EXTENSION_TYPE_RS485 => [red_rs485_extension_exit]
  | EXTENSION_TYPE_ETHERNET => [red_ethernet_extension_exit]
  | _ => []
  end.

(** [red_extension_exit], on [_red_extension_type]: the loop over the
    positions from [i] on, [n] of them left; gives the calls made and the
    types afterwards. *)
Fixpoint red_extension_exit_loop (n i : nat) (types : list ExtensionType)
  : list ExitCall * list ExtensionType :=
  match n with
  | O => ([], types)
  | S n' =>
      let calls := exit_call (nth i types EXTENSION_TYPE_NONE) in
      let types := <[i := EXTENSION_TYPE_NONE]> types in
      let '(calls', types) := red_extension_exit_loop n' (S i) types in
      (calls ++ calls', types)
  end.

Definition red_extension_exit (types : list ExtensionType)
  : list ExitCall * list ExtensionType :=
  red_extension_exit_loop EXTENSION_NUM_MAX 0 types.

(** ** red_extension_read_rs485_config *)

Definition EXTENSION_EEPROM_RS485_ADDRESS_LOCATION : Z := 4.
Definition EXTENSION_EEPROM_RS485_SLAVE_ADDRESSES_START_LOCATION : Z := 100.
Definition EXTENSION_EEPROM_RS485_BAUDRATE_LOCATION : Z := 400.
Definition EXTENSION_EEPROM_RS485_PARTIY_LOCATION : Z := 404.
Definition EXTENSION_EEPROM_RS485_STOPBITS_LOCATION : Z := 405.

(** The fields of [ExtensionRS485Config] the function writes. *)
Record ExtensionRS485Config : Type := mkRS485Config {
  rs485_address : Z;
  rs485_baudrate : Z;
  rs485_parity : Z;
  rs485_stopbits : Z;
  rs485_slave_num : nat;
  rs485_slave_address : list Z
}.

(** The [log_error] lines of the function. *)
Inductive RS485Log : Type :=
| ErrReadAddress          (* "RS485: Could not read config ADDRESS from EEPROM" *)
| ErrReadBaudrate         (* "RS485: Could not read config BAUDRATE from EEPROM" *)
| ErrBaudrateTooLow       (* "RS485: Configured baudrate is too low" *)
| ErrReadParity           (* "RS485: Could not read config PARITY from EEPROM" *)
| ErrReadStopbits         (* "RS485: Could not read config STOPBITS from EEPROM" *)
| ErrReadSlaveAddresses   (* "RS485: Could not read config SLAVE ADDRESSES from EEPROM" *)
| ErrOnlyMaster.          (* "RS485: Only master mode supported" *)

(** [(buf[0] << 0) | (buf[1] << 8) | (buf[2] << 16) | (buf[3] << 24)] *)
Definition buf_word (buf : list Z) : Z :=
  Z.lor (Z.lor (Z.lor (Z.shiftl (byte_at buf 0) 0) (Z.shiftl (byte_at buf 1) 8))
               (Z.shiftl (byte_at buf 2) 16))
        (Z.shiftl (byte_at buf 3) 24).

(** [uint16_t current_eeprom_location; current_eeprom_location += 4] *)
Definition next_location (current_eeprom_location : Z) : Z :=
  (current_eeprom_location + 4) mod 65536.

Section RS485Config.

(** [EXTENSION_RS485_SLAVES_MAX] and the parity constants are defined in
    headers that are not among the sources: the function is modelled for
    any values of them. *)
Variable EXTENSION_RS485_SLAVES_MAX : nat.
Variable RS485_EXTENSION_SERIAL_PARITY_NONE : Z.
Variable RS485_EXTENSION_SERIAL_PARITY_EVEN : Z.
Variable RS485_EXTENSION_SERIAL_PARITY_ODD : Z.

(** [i2c_eeprom_read(i2c_eeprom, location, buf, length)]: the value it
    returns and the bytes [buf] holds afterwards. *)
Variable i2c_eeprom_read : Z -> Z -> Z * list Z.

(** [while(rs485_config->slave_num < EXTENSION_RS485_SLAVES_MAX) { ... }]
    with [n] slaves left to the maximum. *)
Fixpoint read_slave_addresses (n : nat) (rs485_config : ExtensionRS485Config)
    (current_eeprom_location : Z) : Z * ExtensionRS485Config * list RS485Log :=
  match n with
  | O => (0, rs485_config, [])
  | S n' =>
      let '(ret, buf) := i2c_eeprom_read current_eeprom_location 4 in
      if ret <? 4 then (-1, rs485_config, [ErrReadSlaveAddresses])
      else
        let current_slave_address := buf_word buf in
        if current_slave_address =? 0 then (0, rs485_config, [])
        else
          let rs485_config :=
            mkRS485Config (rs485_address rs485_config) (rs485_baudrate rs485_config)
                          (rs485_parity rs485_config) (rs485_stopbits rs485_config)
                          (S (rs485_slave_num rs485_config))
                          (<[rs485_slave_num rs485_config := current_slave_address]>
                             (rs485_slave_address rs485_config)) in
          read_slave_addresses n' rs485_config (next_location current_eeprom_location)
  end.

(** [red_extension_read_rs485_config]; gives the value returned, the
    configuration as the function leaves it and what it logged.  The fields
    hold the words as they are read; [ExtensionRS485Config] is declared in a
    header that is not among the sources, and for a word below 2^31 the
    comparison [baudrate < 8] is the same in a signed and in an unsigned
    field of 32 bits. *)
Definition red_extension_read_rs485_config (rs485_config : ExtensionRS485Config)
  : Z * ExtensionRS485Config * list RS485Log :=
  let '(ret, buf) := i2c_eeprom_read EXTENSION_EEPROM_RS485_ADDRESS_LOCATION 4 in
  if ret <? 4 then (-1, rs485_config, [ErrReadAddress]) else
  let rs485_config :=
    mkRS485Config (buf_word buf) (rs485_baudrate rs485_config)
                  (rs485_parity rs485_config) (rs485_stopbits rs485_config)
                  (rs485_slave_num rs485_config) (rs485_slave_address rs485_config) in
  let '(ret, buf) := i2c_eeprom_read EXTENSION_EEPROM_RS485_BAUDRATE_LOCATION 4 in
  if ret <? 4 then (-1, rs485_config, [ErrReadBaudrate]) else
  let rs485_config :=
    mkRS485Config (rs485_address rs485_config) (buf_word buf)
                  (rs485_parity rs485_config) (rs485_stopbits rs485_config)
                  (rs485_slave_num rs485_config) (rs485_slave_address rs485_config) in
  if rs485_baudrate rs485_config <? 8 then (-1, rs485_config, [ErrBaudrateTooLow]) else
  let '(ret, buf) := i2c_eeprom_read EXTENSION_EEPROM_RS485_PARTIY_LOCATION 1 in
  if ret <? 1 then (-1, rs485_config, [ErrReadParity]) else
  let parity :=
    if byte_at buf 0 =? RS485_EXTENSION_SERIAL_PARITY_NONE
    then RS485_EXTENSION_SERIAL_PARITY_NONE
    else if byte_at buf 0 =? RS485_EXTENSION_SERIAL_PARITY_EVEN
    then RS485_EXTENSION_SERIAL_PARITY_EVEN
    else RS485_EXTENSION_SERIAL_PARITY_ODD in
  let rs485_config :=
    mkRS485Config (rs485_address rs485_config) (rs485_baudrate rs485_config)
                  parity (rs485_stopbits rs485_config)
                  (rs485_slave_num rs485_config) (rs485_slave_address rs485_config) in
  let '(ret, buf) := i2c_eeprom_read EXTENSION_EEPROM_RS485_STOPBITS_LOCATION 1 in
  if ret <? 1 then (-1, rs485_config, [ErrReadStopbits]) else
  let rs485_config :=
    mkRS485Config (rs485_address rs485_config) (rs485_baudrate rs485_config)
                  (rs485_parity rs485_config) (byte_at buf 0)
                  (rs485_slave_num rs485_config) (rs485_slave_address rs485_config) in
  if rs485_address rs485_config =? 0 then
    let rs485_config :=
      mkRS485Config (rs485_address rs485_config) (rs485_baudrate rs485_config)
                    (rs485_parity rs485_config) (rs485_stopbits rs485_config)
                    0 (rs485_slave_address rs485_config) in
    read_slave_addresses EXTENSION_RS485_SLAVES_MAX rs485_config
                         EXTENSION_EEPROM_RS485_SLAVE_ADDRESSES_START_LOCATION
  else (-1, rs485_config, [ErrOnlyMaster]).

End RS485Config.

(** The location of the [k]-th slave address. *)
Definition slave_address_location (k : nat) : Z :=
  Nat.iter k next_location EXTENSION_EEPROM_RS485_SLAVE_ADDRESSES_START_LOCATION.

(** An EEPROM of a master with the slaves 5 and 9 at 115200 baud. *)
Definition master_eeprom (location length : Z) : Z * list Z :=
  if location =? 4 then (4, [0; 0; 0; 0])
  else if location =? 400 then (4, [0; 194; 1; 0])
  else if location =? 404 then (1, [110])
  else if location =? 405 then (1, [1])
  else if location =? 100 then (4, [5; 0; 0; 0])
  else if location =? 104 then (4, [9; 0; 0; 0])
  else (4, [0; 0; 0; 0]).

Definition empty_rs485_config : ExtensionRS485Config :=
  mkRS485Config 0 0 0 0 0 (replicate 32 0).


(** A stack without slaves: every transfer fails. *)
Definition silent_device (transfer address : nat) (tx : list Z) : Z * list Z :=
  failing_device tx.


(** The world with a request for UID 2 in the queue and the slave
    available. *)
Definition request_world : World :=
  red_stack_dispatch_to_spi (request_for 2) one_slave_world.

(** * The hand-off of a response to the event thread

    The thread of [red_stack_spi_thread] and the event thread that runs
    [red_stack_dispatch_from_spi] share [_red_stack.packet_from_spi], the
    notification pipe and the semaphore.  Each statement that touches one
    of them is a step of its own, so that the two threads interleave. *)

(** Where the SPI thread is: in a round up to the call of the transceiver
    (lines 454-493), before [red_stack_spi_request_dispatch_response_event]
    (line 500), or in [semaphore_acquire] (line 503). *)
Inductive SpiPc : Type := SpiPolling | SpiNotifying | SpiWaiting.

(** Where the event thread is: outside [red_stack_dispatch_from_spi] or
    before its [pipe_read] (line 621), before [network_dispatch_response]
    (line 629), or before [semaphore_release] (line 630). *)
Inductive EventPc : Type := EventIdle | EventDeliver | EventRelease.

(** [received] and [delivered] record the packets the transceiver reported
    with DATA_RECEIVED and those handed to [network_dispatch_response]. *)
Record Handoff : Type := mkHandoff {
  spi_pc : SpiPc;
  event_pc : EventPc;
  pipe_bytes : nat;
  permits : nat;
  staged : Packet;
  received : list Packet;
  delivered : list Packet
}.

(** Modelled from the spec: the semaphore is created with no permit (section
    4.7, a binary permit semaphore initialised to 0).  The pipe is empty
    and [_red_stack] is zeroed. *)
Definition handoff_start : Handoff :=
  mkHandoff SpiPolling EventIdle 0 0 (replicate (Z.to_nat sizeof_Packet) 0) [] [].

Inductive handoff_step : Handoff -> Handoff -> Prop :=
(** A round in which the transceiver does not report DATA_RECEIVED: the
    buffer has been cleared and possibly written. *)
| spi_round_nothing h packet :
    spi_pc h = SpiPolling ->
    handoff_step h
      (mkHandoff SpiPolling (event_pc h) (pipe_bytes h) (permits h) packet
                 (received h) (delivered h))
(** A round in which it does. *)
| spi_round_received h packet :
    spi_pc h = SpiPolling ->
    handoff_step h
      (mkHandoff SpiNotifying (event_pc h) (pipe_bytes h) (permits h) packet
                 (received h ++ [packet]) (delivered h))
(** [pipe_write] puts its byte into the pipe or fails; the thread goes on
    to [semaphore_acquire] in both cases. *)
| spi_pipe_write h (written : bool) :
    spi_pc h = SpiNotifying ->
    handoff_step h
      (mkHandoff SpiWaiting (event_pc h)
                 (if written then S (pipe_bytes h) else pipe_bytes h)
                 (permits h) (staged h) (received h) (delivered h))
(** [semaphore_acquire] returns once it has taken a permit. *)
| spi_semaphore_acquire h n :
    spi_pc h = SpiWaiting -> permits h = S n ->
    handoff_step h
      (mkHandoff SpiPolling (event_pc h) (pipe_bytes h) n (staged h)
                 (received h) (delivered h))
(** [pipe_read] takes a byte out of the pipe. *)
| event_pipe_read h n :
    event_pc h = EventIdle -> pipe_bytes h = S n ->
    handoff_step h
      (mkHandoff (spi_pc h) EventDeliver n (permits h) (staged h)
                 (received h) (delivered h))
(** [pipe_read] fails: the function logs the error and returns. *)
| event_pipe_read_fails h :
    event_pc h = EventIdle ->
    handoff_step h h
| event_network_dispatch_response h :
    event_pc h = EventDeliver ->
    handoff_step h
      (mkHandoff (spi_pc h) EventRelease (pipe_bytes h) (permits h) (staged h)
                 (received h) (delivered h ++ [staged h]))
| event_semaphore_release h :
    event_pc h = EventRelease ->
    handoff_step h
      (mkHandoff (spi_pc h) EventIdle (pipe_bytes h) (S (permits h)) (staged h)
                 (received h) (delivered h)).

Inductive handoff_reachable : Handoff -> Prop :=
| handoff_reachable_start : handoff_reachable handoff_start
| handoff_reachable_step h h' :
    handoff_reachable h -> handoff_step h h' -> handoff_reachable h'.

(** The invariant of the hand-off. *)
Definition handoff_inv (h : Handoff) : Prop :=
  match spi_pc h, event_pc h with
  | SpiPolling, EventIdle =>
      pipe_bytes h = 0%nat /\ permits h = 0%nat /\ delivered h = received h
  | SpiNotifying, EventIdle =>
      pipe_bytes h = 0%nat /\ permits h = 0%nat /\
      received h = delivered h ++ [staged h]
  | SpiWaiting, EventIdle =>
      (pipe_bytes h = 0%nat /\ permits h = 1%nat /\ delivered h = received h) \/
      ((pipe_bytes h <= 1)%nat /\ permits h = 0%nat /\
       received h = delivered h ++ [staged h])
  | SpiWaiting, EventDeliver =>
      pipe_bytes h = 0%nat /\ permits h = 0%nat /\
      received h = delivered h ++ [staged h]
  | SpiWaiting, EventRelease =>
      pipe_bytes h = 0%nat /\ permits h = 0%nat /\ delivered h = received h
  | _, _ => False
  end.

(** A run in which a response is handed over. *)
Definition handoff_example : Handoff :=
  mkHandoff SpiWaiting EventRelease 0 0 enumerate_packet
            [enumerate_packet] [enumerate_packet].

(** The state after a response has been received and [pipe_write] has
    failed. *)
Definition handoff_unnotified : Handoff :=
  mkHandoff SpiWaiting EventIdle 0 0 enumerate_packet [enumerate_packet] [].

(** Any number of steps of the two threads. *)
Inductive handoff_steps : Handoff -> Handoff -> Prop :=
| handoff_steps_refl h : handoff_steps h h
| handoff_steps_step h h1 h2 :
    handoff_step h h1 -> handoff_steps h1 h2 -> handoff_steps h h2.

(** * Properties *)

(** ** Buffers *)

Lemma byte_at_nat (a : list Z) (i : nat) : byte_at a (Z.of_nat i) = nth i a 0.
Proof. unfold byte_at. by rewrite Nat2Z.id. Qed.

Lemma nth_default_lookup (a : list Z) (i : nat) : nth i a 0 = default 0 (a !! i).
Proof. apply nth_lookup. Qed.

Lemma is_bytes_nth (l : list Z) (i : nat) : is_bytes l -> 0 <= nth i l 0 < 256.
Proof.
  intros H. rewrite nth_default_lookup.
  destruct (l !! i) as [b|] eqn:E; simpl; [|lia].
  eapply (Forall_lookup_1 _ _ _ _ H E).
Qed.

Lemma header_length_range (p : Packet) : is_bytes p -> 0 <= header_length p < 256.
Proof. intros H. apply (is_bytes_nth p 4 H). Qed.

(** ** The Pearson table *)

Lemma pearson_table_size :
  length _red_stack_spi_pearson_permutation = RED_STACK_SPI_PEARSON_PERMUTATION_SIZE.
Proof. reflexivity. Qed.

(** The table lists each of 0..255 once. *)
Lemma pearson_table_bytes : is_bytes _red_stack_spi_pearson_permutation.
Proof. apply (bool_decide_unpack _). vm_compute. exact I. Qed.

Lemma pearson_table_NoDup : NoDup _red_stack_spi_pearson_permutation.
Proof. apply (bool_decide_unpack _). vm_compute. exact I. Qed.

Lemma PEARSON_range (cur next : Z) : 0 <= PEARSON cur next < 256.
Proof. unfold PEARSON, byte_at. apply is_bytes_nth, pearson_table_bytes. Qed.

(** The checksum that completes the frame of a poll. *)
Example pearson_poll_checksum :
  red_stack_spi_calculate_pearson_hash [0xAA; 0x04; 0x00] 3 = 0xF0.
Proof. reflexivity. Qed.

Lemma pearson_fold_range (l : list Z) (c : Z) :
  0 <= c < 256 -> 0 <= fold_left PEARSON l c < 256.
Proof.
  revert c. induction l as [|b l IH]; intros c Hc; simpl; [done|].
  apply IH, PEARSON_range.
Qed.

(** ** The frame layout *)

Lemma spec_build_shape (payload : list Z) (info : Z) :
  (length payload <= 80)%nat ->
  spec_build payload info =
    [RED_STACK_SPI_PREAMBLE_VALUE; 4 + Z.of_nat (length payload)] ++ payload
      ++ [info;
          fold_left PEARSON
            ([RED_STACK_SPI_PREAMBLE_VALUE; 4 + Z.of_nat (length payload)]
               ++ payload ++ [info]) 0]
      ++ replicate (80 - length payload) 0.
Proof.
  intros Hn. unfold spec_build. cbv zeta.
  rewrite <- !app_assoc. simpl. do 2 f_equal. f_equal. simpl. do 2 f_equal.
  f_equal. rewrite length_app. simpl. lia.
Qed.

Lemma fill_tx_available (p : Packet) (slave : REDStackSlave) :
  status slave = RED_STACK_SLAVE_STATUS_AVAILABLE ->
  packet_ok p -> header_length p <= sizeof_Packet ->
  transceive_fill_tx (Some p) slave =
    (Z.lor RED_STACK_TRANSCEIVE_DATA_SEND RED_STACK_TRANSCEIVE_RESULT_SEND_OK,
     Some ([RED_STACK_SPI_PREAMBLE_VALUE; 4 + header_length p]
             ++ take (Z.to_nat (header_length p)) p
             ++ replicate (82 - Z.to_nat (header_length p)) 0),
     []).
Proof.
  intros Hst [Hb Hlen] Hle. unfold transceive_fill_tx. rewrite Hst.
  pose proof (header_length_range p Hb) as Hr.
  destruct (sizeof_Packet <? header_length p) eqn:E; [apply Z.ltb_lt in E; lia|].
  f_equal. f_equal. f_equal.
  unfold u8, RED_STACK_SPI_PACKET_EMPTY_SIZE, sizeof_Packet in *.
  rewrite Z.mod_small by lia.
  unfold memcpy. simpl. do 2 f_equal; [lia|]. f_equal.
  match goal with |- drop ?n ?l = _ => change l with (replicate 82%nat 0) end.
  by rewrite drop_replicate.
Qed.

(** Closing a frame whose payload is in place. *)
Lemma close_tx_shape (payload : list Z) :
  (length payload <= 80)%nat ->
  transceive_close_tx
    ([RED_STACK_SPI_PREAMBLE_VALUE; 4 + Z.of_nat (length payload)] ++ payload
       ++ replicate (82 - length payload) 0)
  = spec_build payload 0.
Proof.
  intros Hn. rewrite spec_build_shape by done.
  unfold transceive_close_tx. cbv zeta.
  set (L := 4 + Z.of_nat (length payload)).
  assert (HL : byte_at ([RED_STACK_SPI_PREAMBLE_VALUE; L] ++ payload
                 ++ replicate (82 - length payload) 0) RED_STACK_SPI_LENGTH = L) by done.
  rewrite HL. clear HL.
  replace (82 - length payload)%nat with (S (S (80 - length payload))) by lia.
  simpl replicate.
  assert (Hinfo : byte_set ([RED_STACK_SPI_PREAMBLE_VALUE; L] ++ payload
                     ++ 0 :: 0 :: replicate (80 - length payload) 0)
                    (RED_STACK_SPI_INFO L) 0
                  = [RED_STACK_SPI_PREAMBLE_VALUE; L] ++ payload
                     ++ 0 :: 0 :: replicate (80 - length payload) 0).
  { unfold byte_set. apply list_insert_id.
    unfold RED_STACK_SPI_INFO, L.
    replace (Z.to_nat (4 + Z.of_nat (length payload) - 2)) with (2 + length payload)%nat by lia.
    simpl. rewrite lookup_app_r by lia. by rewrite Nat.sub_diag. }
  rewrite Hinfo. clear Hinfo.
  unfold byte_set, RED_STACK_SPI_CHECKSUM, red_stack_spi_calculate_pearson_hash, u8.
  replace ((L - 1) mod 256) with (L - 1) by (unfold L; rewrite Z.mod_small; lia).
  replace (Z.to_nat (L - 1)) with (2 + length payload + 1)%nat by (unfold L; lia).
  assert (Ht : take (2 + length payload + 1)
                 ([RED_STACK_SPI_PREAMBLE_VALUE; L] ++ payload
                    ++ 0 :: 0 :: replicate (80 - length payload) 0)
               = [RED_STACK_SPI_PREAMBLE_VALUE; L] ++ payload ++ [0]).
  { simpl. do 2 f_equal. rewrite take_app_ge by lia.
    f_equal. by replace (length payload + 1 - length payload)%nat with 1%nat by lia. }
  rewrite Ht. clear Ht.
  simpl. do 2 f_equal.
  rewrite insert_app_r_alt by lia.
  f_equal. by replace (length payload + 1 - length payload)%nat with 1%nat by lia.
Qed.

Lemma spec_build_length (payload : list Z) (info : Z) :
  (length payload <= 80)%nat -> length (spec_build payload info) = 84%nat.
Proof.
  intros Hn. rewrite spec_build_shape by done.
  simpl. rewrite length_app. simpl. rewrite length_replicate. lia.
Qed.

Lemma spec_build_hash (payload : list Z) (info : Z) :
  (length payload <= 80)%nat ->
  red_stack_spi_calculate_pearson_hash (spec_build payload info)
    (3 + Z.of_nat (length payload))
  = fold_left PEARSON
      ([RED_STACK_SPI_PREAMBLE_VALUE; 4 + Z.of_nat (length payload)]
         ++ payload ++ [info]) 0.
Proof.
  intros Hn. rewrite spec_build_shape by done.
  unfold red_stack_spi_calculate_pearson_hash, u8.
  rewrite Z.mod_small by lia.
  replace (Z.to_nat (3 + Z.of_nat (length payload)))
    with (2 + (length payload + 1))%nat by lia.
  f_equal. simpl. do 2 f_equal.
  rewrite take_app_ge by lia. f_equal.
  by replace (length payload + 1 - length payload)%nat with 1%nat by lia.
Qed.

Lemma spec_build_bytes (payload : list Z) (info : Z) :
  (length payload <= 80)%nat ->
  let frame := spec_build payload info in
  let n := Z.of_nat (length payload) in
  byte_at frame RED_STACK_SPI_PREAMBLE = RED_STACK_SPI_PREAMBLE_VALUE /\
  byte_at frame RED_STACK_SPI_LENGTH = 4 + n /\
  take (length payload) (drop 2 frame) = payload /\
  byte_at frame (2 + n) = info /\
  byte_at frame (3 + n) = red_stack_spi_calculate_pearson_hash frame (3 + n) /\
  (forall i, 4 + n <= i -> byte_at frame i = 0).
Proof.
  intros Hn frame n. subst frame n.
  rewrite spec_build_hash by done. rewrite spec_build_shape by done.
  split; [done|]. split; [done|]. split.
  { simpl. rewrite drop_0. by rewrite take_app_length. }
  unfold byte_at. split; [|split].
  - replace (Z.to_nat (2 + Z.of_nat (length payload))) with (2 + length payload)%nat by lia.
    simpl. rewrite nth_default_lookup, lookup_app_r by lia.
    by rewrite Nat.sub_diag.
  - replace (Z.to_nat (3 + Z.of_nat (length payload))) with (2 + (length payload + 1))%nat by lia.
    simpl. rewrite nth_default_lookup, lookup_app_r by lia.
    by replace (length payload + 1 - length payload)%nat with 1%nat by lia.
  - intros i Hi.
    replace (Z.to_nat i) with (2 + (length payload + (2 + (Z.to_nat i - 4 - length payload))))%nat by lia.
    simpl. rewrite nth_default_lookup, lookup_app_r by lia.
    replace (length payload + S (S (Z.to_nat i - 4 - length payload)) - length payload)%nat
      with (2 + (Z.to_nat i - 4 - length payload))%nat by lia.
    simpl.
    destruct (replicate (80 - length payload) 0 !! (Z.to_nat i - 4 - length payload)%nat) eqn:E; [|done].
    apply lookup_replicate in E. simpl. tauto.
Qed.

Lemma land_1_odd (x : Z) : Z.land x 1 = Z.b2z (Z.odd x).
Proof.
  change 1 with (Z.ones 1) at 1. rewrite Z.land_ones by lia.
  by rewrite <- Z.bit0_odd, Z.bit0_mod.
Qed.

Lemma rx_buffer_id (frame : list Z) :
  length frame = 84%nat -> rx_buffer frame = frame.
Proof.
  intros H. unfold rx_buffer. rewrite take_app_length'; [done|].
  by rewrite H.
Qed.

(** The checks of the receiver accept a frame with a payload of at least a
    packet header. *)
Lemma check_rx_spec_build (retval : Z) (payload : list Z) (info : Z)
    (packet_recv : Packet) (st : REDStackSlaveStatus) :
  (8 <= length payload <= 80)%nat ->
  transceive_check_rx retval (spec_build payload info) packet_recv st =
    mkRx (Z.lor retval (Z.lor RED_STACK_TRANSCEIVE_RESULT_READ_OK
                              RED_STACK_TRANSCEIVE_DATA_RECEIVED))
         (payload ++ drop (length payload) packet_recv)
         (if Z.odd info then RED_STACK_SLAVE_STATUS_AVAILABLE_BUSY
          else RED_STACK_SLAVE_STATUS_AVAILABLE)
         [DbgReceived].
Proof.
  intros [Hlo Hhi].
  destruct (spec_build_bytes payload info Hhi) as (Hp & Hl & Hpl & Hi & Hc & _).
  unfold transceive_check_rx. rewrite Hp, Hl. simpl negb. cbv iota.
  unfold RED_STACK_SPI_PACKET_EMPTY_SIZE, sizeof_PacketHeader,
    RED_STACK_SPI_PACKET_SIZE, RED_STACK_SPI_INFO, RED_STACK_SPI_CHECKSUM.
  destruct (4 + Z.of_nat (length payload) <? 4 + 8) eqn:E1; [apply Z.ltb_lt in E1; lia|].
  destruct (84 <? 4 + Z.of_nat (length payload)) eqn:E2; [apply Z.ltb_lt in E2; lia|].
  simpl orb. cbv iota.
  replace (4 + Z.of_nat (length payload) - 1) with (3 + Z.of_nat (length payload)) by lia.
  replace (4 + Z.of_nat (length payload) - 2) with (2 + Z.of_nat (length payload)) by lia.
  rewrite <- Hc, Z.eqb_refl. simpl negb. cbv iota.
  destruct (4 + Z.of_nat (length payload) =? 4) eqn:E3; [apply Z.eqb_eq in E3; lia|].
  rewrite Hi. f_equal.
  - unfold memcpy.
    replace (Z.to_nat (4 + Z.of_nat (length payload) - 4)) with (length payload) by lia.
    by rewrite take_0, app_nil_l, Nat.add_0_l, Hpl.
  - unfold RED_STACK_SPI_INFO_BUSY. change (Z.shiftl 1 0) with 1.
    rewrite land_1_odd. by destruct (Z.odd info).
Qed.

(** The frame the code assembles is the frame of the design document with
    info byte 0: poll-only when there is no request or the slave is busy,
    the first [header.length] bytes of the request otherwise. *)
Lemma transceive_tx_poll (packet_send : option Packet) (slave : REDStackSlave) :
  packet_send = None \/ status slave = RED_STACK_SLAVE_STATUS_AVAILABLE_BUSY ->
  transceive_fill_tx packet_send slave
    = (RED_STACK_TRANSCEIVE_RESULT_SEND_NONE,
       Some (byte_set (byte_set (replicate 84 0) 0 RED_STACK_SPI_PREAMBLE_VALUE) 1 4), [])
  /\ transceive_tx packet_send slave = Some (spec_build [] 0).
Proof.
  intros H. unfold transceive_tx, transceive_fill_tx.
  destruct packet_send as [p|], (status slave); try (destruct H; discriminate);
    (split; [reflexivity | vm_compute; reflexivity]).
Qed.

Lemma transceive_tx_request (p : Packet) (slave : REDStackSlave) :
  status slave = RED_STACK_SLAVE_STATUS_AVAILABLE ->
  packet_ok p -> header_length p <= sizeof_Packet ->
  transceive_tx (Some p) slave
    = Some (spec_build (take (Z.to_nat (header_length p)) p) 0).
Proof.
  intros Hst Hok Hle. unfold transceive_tx.
  rewrite fill_tx_available by done. simpl. f_equal.
  destruct Hok as [Hb Hlen].
  pose proof (header_length_range p Hb) as Hr.
  assert (Hn : length (take (Z.to_nat (header_length p)) p) = Z.to_nat (header_length p)).
  { rewrite length_take. lia. }
  rewrite <- close_tx_shape by (rewrite Hn; unfold sizeof_Packet in Hle; lia).
  rewrite Hn. by rewrite Z2Nat.id by lia.
Qed.

Lemma transceive_tx_cases (packet_send : option Packet) (slave : REDStackSlave) (tx : list Z) :
  (forall p, packet_send = Some p -> packet_ok p) ->
  transceive_tx packet_send slave = Some tx ->
  exists payload, (length payload <= 80)%nat /\ tx = spec_build payload 0.
Proof.
  intros Hok Htx.
  destruct packet_send as [p|]; cycle 1.
  { exists []. split; [simpl; lia|].
    destruct (transceive_tx_poll None slave) as [_ H]; [by left|]. congruence. }
  destruct (status slave) eqn:Hst.
  - unfold transceive_tx, transceive_fill_tx in Htx. rewrite Hst in Htx. discriminate.
  - destruct (Z.leb_spec (header_length p) sizeof_Packet) as [Hle|Hgt].
    + rewrite transceive_tx_request in Htx by auto.
      exists (take (Z.to_nat (header_length p)) p). split; [|congruence].
      rewrite length_take. unfold sizeof_Packet in Hle. lia.
    + unfold transceive_tx, transceive_fill_tx in Htx. rewrite Hst in Htx.
      apply Z.ltb_lt in Hgt. rewrite Hgt in Htx. discriminate.
  - exists []. split; [simpl; lia|].
    destruct (transceive_tx_poll (Some p) slave) as [_ H]; [by right|]. congruence.
Qed.

(** C8: every frame the transceiver assembles, for a request within the
    budget or poll-only, is 84 bytes long, starts with 0xAA, has a length
    byte between 4 and 84, carries at index length-1 the Pearson hash of the
    bytes 0 to length-2, and is zero from index length on. *)
Theorem tx_frame_well_formed (packet_send : option Packet) (slave : REDStackSlave)
    (tx : list Z) :
  (forall p, packet_send = Some p -> packet_ok p) ->
  transceive_tx packet_send slave = Some tx ->
  length tx = Z.to_nat RED_STACK_SPI_PACKET_SIZE /\
  byte_at tx RED_STACK_SPI_PREAMBLE = RED_STACK_SPI_PREAMBLE_VALUE /\
  4 <= byte_at tx RED_STACK_SPI_LENGTH <= 84 /\
  byte_at tx (byte_at tx RED_STACK_SPI_LENGTH - 1)
    = red_stack_spi_calculate_pearson_hash tx (byte_at tx RED_STACK_SPI_LENGTH - 1) /\
  (forall i, byte_at tx RED_STACK_SPI_LENGTH <= i < 84 -> byte_at tx i = 0).
Proof.
  intros Hok Htx.
  destruct (transceive_tx_cases _ _ _ Hok Htx) as (payload & Hn & ->).
  destruct (spec_build_bytes payload 0 Hn) as (Hp & Hl & _ & _ & Hc & Hz).
  split; [by apply spec_build_length|]. split; [done|].
  rewrite Hl. split; [lia|].
  replace (4 + Z.of_nat (length payload) - 1) with (3 + Z.of_nat (length payload)) by lia.
  split; [done|]. intros i Hi. apply Hz. lia.
Qed.

Lemma tx_frame_well_formed_witness :
  let tx := spec_build enumerate_request 0 in
  length tx = Z.to_nat RED_STACK_SPI_PACKET_SIZE /\
  byte_at tx RED_STACK_SPI_PREAMBLE = RED_STACK_SPI_PREAMBLE_VALUE /\
  4 <= byte_at tx RED_STACK_SPI_LENGTH <= 84 /\
  byte_at tx (byte_at tx RED_STACK_SPI_LENGTH - 1)
    = red_stack_spi_calculate_pearson_hash tx (byte_at tx RED_STACK_SPI_LENGTH - 1) /\
  (forall i, byte_at tx RED_STACK_SPI_LENGTH <= i < 84 -> byte_at tx i = 0).
Proof.
  apply (tx_frame_well_formed (Some enumerate_request)
           (slave0 RED_STACK_SLAVE_STATUS_AVAILABLE)).
  - intros p [= <-]. split; [|vm_compute; lia].
    unfold enumerate_request, sizeof_PacketHeader, FUNCTION_STACK_ENUMERATE.
    repeat constructor; lia.
  - reflexivity.
Defined.

(** ** The return value *)

Lemma lor_land_same (r m : Z) : Z.lor (Z.land r m) m = m.
Proof.
  apply Z.bits_inj'. intros n _. rewrite Z.lor_spec, Z.land_spec.
  by destruct (Z.testbit r n), (Z.testbit m n).
Qed.

Lemma result_read_ok (retval : Z) :
  result_read (Z.lor retval (Z.lor RED_STACK_TRANSCEIVE_RESULT_READ_OK
                                   RED_STACK_TRANSCEIVE_DATA_RECEIVED))
  = RED_STACK_TRANSCEIVE_RESULT_READ_OK.
Proof. unfold result_read. rewrite Z.land_lor_distr_l. apply lor_land_same. Qed.

Lemma data_received_ok (retval : Z) :
  data_received (Z.lor retval (Z.lor RED_STACK_TRANSCEIVE_RESULT_READ_OK
                                     RED_STACK_TRANSCEIVE_DATA_RECEIVED)) = true.
Proof.
  unfold data_received. rewrite Z.land_lor_distr_l.
  change (Z.land (Z.lor RED_STACK_TRANSCEIVE_RESULT_READ_OK
                        RED_STACK_TRANSCEIVE_DATA_RECEIVED)
                 RED_STACK_TRANSCEIVE_DATA_RECEIVED)
    with RED_STACK_TRANSCEIVE_DATA_RECEIVED.
  by rewrite lor_land_same.
Qed.

(** ** Round trip *)

(** C1, as amended: for every payload of at least a packet header (8 bytes)
    and at most 80 bytes and every info byte, the receiver's checks accept
    the frame built from them: READ_OK with DATA_RECEIVED, the identical
    payload in the receive packet, and the slave busy exactly if bit 0 of the
    info byte is set.  The frame the code assembles for a request with that
    payload is the frame built with info byte 0. *)
Theorem frame_roundtrip (payload : list Z) (info retval : Z)
    (packet_recv : Packet) (st : REDStackSlaveStatus) :
  (8 <= length payload <= 80)%nat ->
  let r := transceive_check_rx retval (rx_buffer (spec_build payload info))
                               packet_recv st in
  (result_read (rx_retval r) = RED_STACK_TRANSCEIVE_RESULT_READ_OK /\
   data_received (rx_retval r) = true /\
   take (length payload) (rx_packet_recv r) = payload /\
   rx_status r = (if Z.odd info then RED_STACK_SLAVE_STATUS_AVAILABLE_BUSY
                  else RED_STACK_SLAVE_STATUS_AVAILABLE)) /\
  (forall (p : Packet) (slave : REDStackSlave),
     packet_ok p -> status slave = RED_STACK_SLAVE_STATUS_AVAILABLE ->
     header_length p = Z.of_nat (length payload) ->
     take (length payload) p = payload ->
     transceive_tx (Some p) slave = Some (spec_build payload 0)).
Proof.
  intros [Hlo Hhi] r. subst r.
  rewrite rx_buffer_id by (by apply spec_build_length).
  rewrite check_rx_spec_build by done. simpl.
  split.
  - split; [apply result_read_ok|]. split; [apply data_received_ok|].
    split; [|done]. by rewrite take_app_length.
  - intros p slave Hok Hst Hlen Hp.
    rewrite transceive_tx_request; try done.
    + by rewrite Hlen, Nat2Z.id, Hp.
    + rewrite Hlen. unfold sizeof_Packet. lia.
Qed.

Lemma frame_roundtrip_witness :
  let r := transceive_check_rx 0 (rx_buffer (spec_build enumerate_request 1))
                               (replicate 80 0) RED_STACK_SLAVE_STATUS_AVAILABLE in
  (result_read (rx_retval r) = RED_STACK_TRANSCEIVE_RESULT_READ_OK /\
   data_received (rx_retval r) = true /\
   take 8 (rx_packet_recv r) = enumerate_request /\
   rx_status r = RED_STACK_SLAVE_STATUS_AVAILABLE_BUSY) /\
  transceive_tx (Some enumerate_packet) (slave0 RED_STACK_SLAVE_STATUS_AVAILABLE)
    = Some (spec_build enumerate_request 0).
Proof.
  destruct (frame_roundtrip enumerate_request 1 0 (replicate 80 0)
              RED_STACK_SLAVE_STATUS_AVAILABLE) as [H1 H2]; [simpl; lia|].
  split; [exact H1|].
  apply H2; try reflexivity.
  split; [|vm_compute; lia].
  unfold enumerate_packet, enumerate_request, sizeof_PacketHeader, FUNCTION_STACK_ENUMERATE.
  simpl. repeat constructor; lia.
Defined.

(** C1 as stated fails: the frame the code builds from a payload of 5 bytes
    is refused by the receiver's length check. *)
Lemma short_payload_not_received :
  packet_ok short_packet /\
  exists tx,
    transceive_tx (Some short_packet) (slave0 RED_STACK_SLAVE_STATUS_AVAILABLE) = Some tx /\
    tx = spec_build [1; 2; 3; 4; 5] 0 /\
    let r := transceive_check_rx 0 (rx_buffer tx) (replicate 80 0)
                                 RED_STACK_SLAVE_STATUS_AVAILABLE in
    result_read (rx_retval r) = RED_STACK_TRANSCEIVE_RESULT_READ_ERROR /\
    result_read (rx_retval r) <> RED_STACK_TRANSCEIVE_RESULT_READ_OK /\
    data_received (rx_retval r) = false /\
    take 5 (rx_packet_recv r) <> [1; 2; 3; 4; 5] /\
    rx_log r = [ErrMalformedLength 9].
Proof.
  split.
  { split; [|vm_compute; lia]. unfold short_packet. simpl. repeat constructor; lia. }
  eexists. split; [reflexivity|]. split; [reflexivity|].
  vm_compute. repeat split; congruence.
Qed.

(** C2: a frame with preamble 0xAA, length byte 4 and the right checksum is
    not reported as READ_NONE: the length check, which asks for at least a
    packet header, refuses it as malformed, and neither the status of the
    slave nor the receive packet changes.  The branch for the headered empty
    frame (lines 333-335) is never reached. *)
Theorem empty_frame_rejected (info retval : Z) (packet_recv : Packet)
    (st : REDStackSlaveStatus) :
  let rx := rx_buffer (spec_build [] info) in
  byte_at rx RED_STACK_SPI_PREAMBLE = RED_STACK_SPI_PREAMBLE_VALUE /\
  byte_at rx RED_STACK_SPI_LENGTH = RED_STACK_SPI_PACKET_EMPTY_SIZE /\
  byte_at rx 3 = red_stack_spi_calculate_pearson_hash rx 3 /\
  transceive_check_rx retval rx packet_recv st
    = mkRx (Z.lor retval RED_STACK_TRANSCEIVE_RESULT_READ_ERROR) packet_recv st
           [ErrMalformedLength 4].
Proof. repeat split. Qed.

(** The same through the whole function: the slave answers a poll with a
    headered empty frame that says it is busy. *)
Example poll_answered_by_empty_frame :
  let r := red_stack_spi_transceive_message (fun _ => (84, spec_build [] 1))
             None (replicate 80 0) (slave0 RED_STACK_SLAVE_STATUS_AVAILABLE) in
  result_read (tr_retval r) = RED_STACK_TRANSCEIVE_RESULT_READ_ERROR /\
  status (tr_slave r) = RED_STACK_SLAVE_STATUS_AVAILABLE /\
  tr_log r = [ErrMalformedLength 4].
Proof. vm_compute. repeat split. Qed.

(** ** The receive packet *)

Lemma header_length_cleared (p : Packet) :
  (4 < length p)%nat -> header_length (set_header_length p 0) = 0.
Proof.
  intros H. unfold header_length, set_header_length, byte_at, byte_set.
  by rewrite nth_default_lookup, list_lookup_insert_eq.
Qed.

(** The receiver's checks set DATA_RECEIVED exactly when they copy the
    payload into the receive packet. *)
Lemma check_rx_packet_recv (retval : Z) (rx : list Z) (packet_recv : Packet)
    (st : REDStackSlaveStatus) :
  data_received retval = false ->
  let r := transceive_check_rx retval rx packet_recv st in
  if data_received (rx_retval r)
  then rx_packet_recv r =
         memcpy packet_recv 0 (drop 2 rx)
           (Z.to_nat (byte_at rx RED_STACK_SPI_LENGTH - RED_STACK_SPI_PACKET_EMPTY_SIZE))
  else rx_packet_recv r = packet_recv.
Proof.
  intros Hret.
  assert (Hnone : data_received (Z.lor retval RED_STACK_TRANSCEIVE_RESULT_READ_NONE) = false).
  { revert Hret. unfold data_received. rewrite Z.land_lor_distr_l. simpl.
    by rewrite Z.lor_0_r. }
  assert (Herr : data_received (Z.lor retval RED_STACK_TRANSCEIVE_RESULT_READ_ERROR) = false).
  { revert Hret. unfold data_received. rewrite Z.land_lor_distr_l. simpl.
    by rewrite Z.lor_0_r. }
  unfold transceive_check_rx.
  destruct (negb (byte_at rx RED_STACK_SPI_PREAMBLE =? RED_STACK_SPI_PREAMBLE_VALUE)).
  { destruct (byte_at rx RED_STACK_SPI_PREAMBLE =? 0);
      cbn [rx_retval rx_packet_recv]; by rewrite ?Hnone, ?Herr. }
  destruct (_ || _).
  { cbn [rx_retval rx_packet_recv]. by rewrite Herr. }
  destruct (negb (_ =? _)).
  { cbn [rx_retval rx_packet_recv]. by rewrite Herr. }
  destruct (_ =? RED_STACK_SPI_PACKET_EMPTY_SIZE);
    cbn [rx_retval rx_packet_recv]; by rewrite ?Hnone, ?data_received_ok.
Qed.

(** Filling the TX frame does not touch DATA_RECEIVED. *)
Lemma fill_tx_no_data_received (packet_send : option Packet) (slave : REDStackSlave) :
  data_received (transceive_fill_tx packet_send slave).1.1 = false.
Proof.
  unfold transceive_fill_tx.
  destruct packet_send, (status slave);
    repeat match goal with |- context [if ?b then _ else _] => destruct b end;
    reflexivity.
Qed.

(** C10: every call first clears the header length of the receive packet;
    unless the return value has DATA_RECEIVED set, nothing else of the
    receive packet is written, so the caller finds header length 0 and the
    rest as it was.  With DATA_RECEIVED the payload of the received frame
    has been copied over the cleared packet. *)
Theorem packet_recv_only_cleared (ioctl : list Z -> Z * list Z)
    (packet_send : option Packet) (packet_recv : Packet) (slave : REDStackSlave) :
  let r := red_stack_spi_transceive_message ioctl packet_send packet_recv slave in
  (data_received (tr_retval r) = false ->
   tr_packet_recv r = set_header_length packet_recv 0 /\
   ((4 < length packet_recv)%nat -> header_length (tr_packet_recv r) = 0)) /\
  (data_received (tr_retval r) = true ->
   exists rx n,
     tr_packet_recv r = memcpy (set_header_length packet_recv 0) 0 (drop 2 rx) n).
Proof.
  intros r.
  assert (H : if data_received (tr_retval r)
              then exists rx n, tr_packet_recv r
                     = memcpy (set_header_length packet_recv 0) 0 (drop 2 rx) n
              else tr_packet_recv r = set_header_length packet_recv 0).
  { subst r. unfold red_stack_spi_transceive_message.
    pose proof (fill_tx_no_data_received packet_send slave) as Hfill.
    destruct (transceive_fill_tx packet_send slave) as [[retval [tx|]] log];
      cbn [fst snd] in Hfill; [|cbn [tr_retval tr_packet_recv]; by rewrite Hfill].
    destruct (ioctl (transceive_close_tx tx)) as [ret received].
    destruct (negb (u8 ret =? RED_STACK_SPI_PACKET_SIZE)); [done|].
    cbn [tr_retval tr_packet_recv].
    pose proof (check_rx_packet_recv retval (rx_buffer received)
                  (set_header_length packet_recv 0) (status slave) Hfill) as Hrx.
    cbv zeta in Hrx.
    destruct (data_received (rx_retval _)); [eauto | done]. }
  split; intros Hr; rewrite Hr in H; [|done].
  split; [done|]. intros Hlen. rewrite H. by apply header_length_cleared.
Qed.

Lemma packet_recv_only_cleared_witness :
  let r := red_stack_spi_transceive_message (fun _ => (84, replicate 84 0))
             None (replicate 80 7) (slave0 RED_STACK_SLAVE_STATUS_AVAILABLE) in
  tr_packet_recv r = set_header_length (replicate 80 7) 0 /\
  ((4 < 80)%nat -> header_length (tr_packet_recv r) = 0).
Proof.
  apply (packet_recv_only_cleared (fun _ => (84, replicate 84 0)) None
           (replicate 80 7) (slave0 RED_STACK_SLAVE_STATUS_AVAILABLE)).
  reflexivity.
Defined.

(** ** One call of the transceiver *)

Lemma set_status_same (s : REDStackSlave) : set_status s (status s) = s.
Proof. by destruct s. Qed.

Lemma check_rx_status (retval : Z) (rx : list Z) (packet_recv : Packet)
    (st : REDStackSlaveStatus) :
  let r := transceive_check_rx retval rx packet_recv st in
  rx_status r = st \/
  rx_status r = RED_STACK_SLAVE_STATUS_AVAILABLE \/
  rx_status r = RED_STACK_SLAVE_STATUS_AVAILABLE_BUSY.
Proof.
  unfold transceive_check_rx.
  repeat (match goal with |- context [if ?b then _ else _] => destruct b end;
          simpl; auto).
Qed.

(** The call changes nothing of the slave but its status, and that only to
    AVAILABLE or AVAILABLE_BUSY. *)
Lemma transceive_message_slave (ioctl : list Z -> Z * list Z)
    (packet_send : option Packet) (packet_recv : Packet) (slave : REDStackSlave) :
  let r := red_stack_spi_transceive_message ioctl packet_send packet_recv slave in
  exists st, tr_slave r = set_status slave st /\
    (st = status slave \/ st = RED_STACK_SLAVE_STATUS_AVAILABLE \/
     st = RED_STACK_SLAVE_STATUS_AVAILABLE_BUSY).
Proof.
  unfold red_stack_spi_transceive_message.
  destruct (transceive_fill_tx packet_send slave) as [[retval [tx|]] log]; simpl.
  - destruct (ioctl (transceive_close_tx tx)) as [ret received].
    destruct (negb (u8 ret =? RED_STACK_SPI_PACKET_SIZE)); simpl.
    + exists (status slave). by rewrite set_status_same; auto.
    + eexists. split; [done|]. apply check_rx_status.
  - exists (status slave). by rewrite set_status_same; auto.
Qed.

(** The frame that is clocked out is the frame assembled for the request. *)
Lemma transceive_message_tx (ioctl : list Z -> Z * list Z)
    (packet_send : option Packet) (packet_recv : Packet) (slave : REDStackSlave) :
  tr_tx (red_stack_spi_transceive_message ioctl packet_send packet_recv slave)
  = transceive_tx packet_send slave.
Proof.
  unfold red_stack_spi_transceive_message, transceive_tx.
  destruct (transceive_fill_tx packet_send slave) as [[retval [tx|]] log]; simpl; [|done].
  destruct (ioctl (transceive_close_tx tx)) as [ret received].
  by destruct (negb (u8 ret =? RED_STACK_SPI_PACKET_SIZE)).
Qed.

(** No frame goes out to an absent slave for which there is a request. *)
Lemma transceive_tx_absent (packet_send : option Packet) (slave : REDStackSlave)
    (tx : list Z) :
  transceive_tx packet_send slave = Some tx ->
  status slave = RED_STACK_SLAVE_STATUS_ABSENT -> packet_send = None.
Proof.
  unfold transceive_tx, transceive_fill_tx. intros H Hst. rewrite Hst in H.
  by destruct packet_send.
Qed.

(** The receiver's checks only add to the READ field of the return value. *)
Lemma check_rx_retval (retval : Z) (rx : list Z) (packet_recv : Packet)
    (st : REDStackSlaveStatus) :
  let r := transceive_check_rx retval rx packet_recv st in
  exists c, rx_retval r = Z.lor retval c /\
    (c = RED_STACK_TRANSCEIVE_RESULT_READ_NONE \/
     c = RED_STACK_TRANSCEIVE_RESULT_READ_ERROR \/
     c = Z.lor RED_STACK_TRANSCEIVE_RESULT_READ_OK RED_STACK_TRANSCEIVE_DATA_RECEIVED).
Proof.
  unfold transceive_check_rx.
  repeat (match goal with |- context [if ?b then _ else _] => destruct b end;
          simpl; eauto).
Qed.

Lemma check_rx_send_fields (retval : Z) (rx : list Z) (packet_recv : Packet)
    (st : REDStackSlaveStatus) :
  let r := transceive_check_rx retval rx packet_recv st in
  data_send (rx_retval r) = data_send retval /\
  result_send (rx_retval r) = result_send retval.
Proof.
  intros r. destruct (check_rx_retval retval rx packet_recv st) as (c & Hc & Hcs).
  fold r in Hc. rewrite Hc. unfold data_send, result_send.
  rewrite !Z.land_lor_distr_l.
  destruct Hcs as [-> | [-> | ->]]; simpl; by rewrite !Z.lor_0_r.
Qed.

(** What the return value says about sending, by the way the frame was
    filled and by the return value of the transfer. *)
Lemma transceive_message_send_fields (ioctl : list Z -> Z * list Z)
    (packet_send : option Packet) (packet_recv : Packet) (slave : REDStackSlave) :
  let r := red_stack_spi_transceive_message ioctl packet_send packet_recv slave in
  match transceive_fill_tx packet_send slave with
  | (retval, Some tx, _) =>
      if u8 (ioctl (transceive_close_tx tx)).1 =? RED_STACK_SPI_PACKET_SIZE then
        data_send (tr_retval r) = data_send retval /\
        result_send (tr_retval r) = result_send retval
      else
        tr_retval r = Z.lor RED_STACK_TRANSCEIVE_RESULT_SEND_ERROR
                            RED_STACK_TRANSCEIVE_RESULT_READ_ERROR
  | (retval, None, _) => tr_retval r = retval
  end.
Proof.
  unfold red_stack_spi_transceive_message.
  destruct (transceive_fill_tx packet_send slave) as [[retval [tx|]] log]; [|done].
  destruct (ioctl (transceive_close_tx tx)) as [ret received]. simpl.
  destruct (u8 ret =? RED_STACK_SPI_PACKET_SIZE); simpl; [|done].
  apply check_rx_send_fields.
Qed.

(** DATA_SEND is only reported for a request within the budget to a slave
    that is AVAILABLE. *)
Lemma transceive_message_data_send (ioctl : list Z -> Z * list Z)
    (packet_send : option Packet) (packet_recv : Packet) (slave : REDStackSlave) :
  data_send (tr_retval (red_stack_spi_transceive_message ioctl packet_send
                          packet_recv slave)) = true ->
  exists p, packet_send = Some p /\
    status slave = RED_STACK_SLAVE_STATUS_AVAILABLE /\
    header_length p <= sizeof_Packet.
Proof.
  pose proof (transceive_message_send_fields ioctl packet_send packet_recv slave) as H.
  cbv zeta in H. revert H. unfold transceive_fill_tx.
  destruct packet_send as [p|], (status slave) eqn:Hst;
    try destruct (Z.ltb_spec sizeof_Packet (header_length p));
    repeat match goal with |- context [if ?b then _ else _] => destruct b end;
    try (intros [-> _]; discriminate); try (intros ->; discriminate).
  intros _ _. exists p. auto with lia.
Qed.

(** ** The transceiver in the world *)

Lemma slave_at_insert (s : REDStack) (i j : nat) (x : REDStackSlave) :
  (i < length (slaves s))%nat ->
  slave_at (with_slaves s (<[i := x]> (slaves s))) j
    = if decide (i = j) then x else slave_at s j.
Proof.
  intros Hi. unfold slave_at. simpl. rewrite !nth_lookup.
  case_decide as Hij.
  - subst j. by rewrite list_lookup_insert_eq.
  - by rewrite list_lookup_insert_ne.
Qed.

Lemma status_only_refl (i : nat) (w : World) : status_only i w w.
Proof.
  repeat split; try done. unfold status_at. by rewrite set_status_same.
Qed.

Lemma status_only_trans (i : nat) (w1 w2 w3 : World) :
  status_only i w1 w2 -> status_only i w2 w3 -> status_only i w1 w3.
Proof.
  intros (A1 & A2 & A3 & A4 & A5 & A6 & A7) (B1 & B2 & B3 & B4 & B5 & B6 & B7).
  repeat split; try congruence.
  - intros j Hj. rewrite B2, A2; done.
  - rewrite B3, A3. done.
Qed.

Lemma status_only_events (i : nat) (w w' : World) (es : list Event) :
  status_only i w w' -> status_only i w (with_events w' es).
Proof. done. Qed.

Section Calls.

Variable spi : nat -> nat -> list Z -> Z * list Z.
Variable stack_garbage : nat -> Packet.

(** A call of the transceiver on the slave [i]: only the status of that
    slave may change, an absent slave apart it stays present, and the events
    are those of the call. *)
Lemma transceive_effect (packet_send : option Packet) (packet_recv : Packet)
    (i : nat) (w : World) (ret : Z) (packet : Packet) (w' : World) :
  transceive spi packet_send packet_recv i w = (ret, packet, w') ->
  (i < length (slaves (red_stack w)))%nat ->
  status_only i w w' /\
  (status_at w i <> RED_STACK_SLAVE_STATUS_ABSENT ->
   status_at w' i <> RED_STACK_SLAVE_STATUS_ABSENT) /\
  exists es, trace w' = trace w ++ es /\
    Forall (event_from (slave_at (red_stack w) i) packet_send) es.
Proof.
  unfold transceive. intros [= <- <- <-] Hi.
  set (slave := slave_at (red_stack w) i).
  set (r := red_stack_spi_transceive_message _ packet_send packet_recv slave).
  destruct (transceive_message_slave (spi (transfers w) (stack_address slave))
              packet_send packet_recv slave) as (st & Hst & Hcases).
  fold r in Hst.
  assert (Hat : forall j, slave_at (with_slaves (red_stack w)
                    (<[i:=tr_slave r]> (slaves (red_stack w)))) j
                  = if decide (i = j) then set_status slave st else slave_at (red_stack w) j).
  { intros j. rewrite slave_at_insert by done. by rewrite Hst. }
  split; [|split].
  - repeat split; simpl; try done.
    + by rewrite length_insert.
    + intros j Hj. rewrite Hat. by rewrite decide_False.
    + unfold status_at. simpl. rewrite Hat, decide_True by done. done.
  - unfold status_at. simpl. rewrite Hat, decide_True by done. simpl.
    fold slave. intros Hp. destruct Hcases as [-> | [-> | ->]]; done.
  - eexists. split; [simpl; reflexivity|].
    apply Forall_app. split.
    + pose proof (transceive_message_tx (spi (transfers w) (stack_address slave))
                    packet_send packet_recv slave) as Htx.
      fold r in Htx. destruct (tr_tx r) as [tx|]; [|constructor].
      repeat constructor. done.
    + apply Forall_fmap. apply Forall_true. done.
Qed.

End Calls.

(** ** Discovery *)

Lemma event_from_round (i : nat) (slave : REDStackSlave)
    (packet_send : option Packet) (e : Event) :
  stack_address slave = i -> status slave <> RED_STACK_SLAVE_STATUS_ABSENT ->
  event_from slave packet_send e -> round_event i e.
Proof.
  intros Ha Hs. destruct e; simpl; try done.
  intros (_ & -> & -> & _). done.
Qed.

(** The copy of the UIDs of a response. *)
Lemma copy_uids_effect (response : Packet) (n : nat) :
  forall (i : nat) (us : list Z) (es : list Event)
         (i' : nat) (us' : list Z) (es' : list Event),
  copy_uids response n i us es = (i', us', es') ->
  (i + n <= length us)%nat ->
  length us' = length us /\
  (i <= i' <= i + n)%nat /\
  (forall k, (i <= k < i')%nat -> nth k us' 0 <> 0) /\
  (forall k, (k < i \/ i' <= k)%nat -> nth k us' 0 = nth k us 0) /\
  exists new, es' = es ++ new /\ forall j, Forall (round_event j) new.
Proof.
  induction n as [|n IH]; intros i us es i' us' es' H Hlen.
  - injection H as <- <- <-. repeat split; try lia.
    exists []. by rewrite app_nil_r.
  - simpl in H. destruct (response_uid response i =? 0) eqn:E; simpl in H.
    + injection H as <- <- <-. repeat split; try lia.
      exists []. by rewrite app_nil_r.
    + apply Z.eqb_neq in E. apply IH in H; [|rewrite length_insert; lia].
      rewrite length_insert in H.
      destruct H as (Hl & Hi & Hnz & Hsame & new & -> & Hnew).
      assert (Hat : nth i (<[i:=response_uid response i]> us) 0 = response_uid response i).
      { rewrite nth_lookup, list_lookup_insert_eq by lia. done. }
      split; [done|]. split; [lia|]. split; [|split].
      * intros k Hk. destruct (decide (k = i)) as [->|Hne].
        -- rewrite Hsame by lia. by rewrite Hat.
        -- apply Hnz. lia.
      * intros k Hk. rewrite Hsame by lia.
        rewrite !nth_lookup, list_lookup_insert_ne by lia. done.
      * eexists. split; [by rewrite <- app_assoc|].
        intros j. apply Forall_app. split; [|done].
        rewrite Hat. by repeat constructor.
Qed.

Lemma set_status_twice (s : REDStackSlave) (a b : REDStackSlaveStatus) :
  set_status (set_status s a) b = set_status s b.
Proof. done. Qed.

Lemma set_slave_at (w : World) (i j : nat) (x : REDStackSlave) :
  (i < length (slaves (red_stack w)))%nat ->
  slave_at (red_stack (set_slave w i x)) j
    = if decide (i = j) then x else slave_at (red_stack w) j.
Proof. intros Hi. unfold set_slave. simpl. by apply slave_at_insert. Qed.

Lemma set_slave_length (w : World) (i : nat) (x : REDStackSlave) :
  length (slaves (red_stack (set_slave w i x))) = length (slaves (red_stack w)).
Proof. unfold set_slave. simpl. by rewrite length_insert. Qed.

Lemma initial_slave_uids_ok (i : nat) (st : REDStackSlaveStatus) :
  uids_ok (set_status (initial_slave i) st).
Proof.
  unfold uids_ok, set_status, initial_slave. cbn [uids uids_num].
  split; [by rewrite length_replicate|]. split; [lia|].
  split; [intros iu Hiu; lia|].
  intros iu _. rewrite nth_lookup.
    destruct (replicate PACKET_STACK_ENUMERATE_MAX_UIDS 0 !! iu) eqn:E; [|done].
    apply lookup_replicate in E. simpl. tauto.
Qed.

Lemma round_step_refl (i : nat) (w : World) : round_step i w w.
Proof. repeat split; try done. exists []. by rewrite app_nil_r. Qed.

Lemma round_step_trans (i : nat) (w1 w2 w3 : World) :
  round_step i w1 w2 -> round_step i w2 w3 -> round_step i w1 w3.
Proof.
  intros (A1 & A2 & A3 & A4 & A5 & A6 & es1 & A7 & A8)
         (B1 & B2 & B3 & B4 & B5 & B6 & es2 & B7 & B8).
  repeat split; try congruence.
  - intros j Hj. rewrite B2, A2; done.
  - exists (es1 ++ es2). split; [by rewrite B7, A7, app_assoc|].
    by apply Forall_app.
Qed.

Lemma round_step_set_slave (i : nat) (w : World) (x : REDStackSlave) :
  (i < length (slaves (red_stack w)))%nat -> round_step i w (set_slave w i x).
Proof.
  intros Hi. split; [apply set_slave_length|]. split.
  { intros j Hj. by rewrite set_slave_at, decide_False. }
  repeat split; try done. exists []. simpl. by rewrite app_nil_r.
Qed.

Lemma probing_set_available (i : nat) (w : World) :
  (i < length (slaves (red_stack w)))%nat ->
  slave_at (red_stack w) i = initial_slave i ->
  probing i (set_slave w i (set_status (slave_at (red_stack w) i)
                                       RED_STACK_SLAVE_STATUS_AVAILABLE)).
Proof.
  intros Hi Hinit. exists RED_STACK_SLAVE_STATUS_AVAILABLE. split; [done|].
  rewrite set_slave_at, decide_True by done. by rewrite Hinit.
Qed.

(** Giving up on a slot puts it back to what it was at startup. *)
Lemma give_up_effect (i : nat) (w : World) :
  (i < length (slaves (red_stack w)))%nat -> probing i w ->
  let w' := set_slave w i (set_status (slave_at (red_stack w) i)
                                      RED_STACK_SLAVE_STATUS_ABSENT) in
  round_step i w w' /\ slave_at (red_stack w') i = initial_slave i.
Proof.
  intros Hi (st & _ & Hat) w'. split; [by apply round_step_set_slave|].
  unfold w'. rewrite set_slave_at, decide_True by done. by rewrite Hat.
Qed.

Lemma round_event_discovery (i n : nat) (e : Event) :
  (i <= n)%nat -> (i < RED_STACK_SPI_MAX_SLAVES)%nat ->
  round_event i e -> discovery_event n e.
Proof. intros Hn Hi. destruct e; simpl; try done. intros [-> Hst]. done. Qed.

Section Discovery.

Variable spi : nat -> nat -> list Z -> Z * list Z.
Variable stack_garbage : nat -> Packet.

(** A phase of tries on the slot [i]: the slot stays present, nothing else
    changes, and at most [n] more tries are counted. *)
Lemma routing_tries_effect (packet_send : option Packet) (flag : Z -> bool)
    (i n : nat) :
  forall (tries : nat) (packet : Packet) (w : World)
         (tries' : nat) (packet' : Packet) (w' : World),
  routing_tries spi packet_send flag i n tries packet w = (tries', packet', w') ->
  (i < length (slaves (red_stack w)))%nat ->
  stack_address (slave_at (red_stack w) i) = i ->
  status_at w i <> RED_STACK_SLAVE_STATUS_ABSENT ->
  status_only i w w' /\
  status_at w' i <> RED_STACK_SLAVE_STATUS_ABSENT /\
  (tries <= tries' <= tries + n)%nat /\
  exists es, trace w' = trace w ++ es /\ Forall (round_event i) es.
Proof.
  induction n as [|n IH]; intros tries packet w tries' packet' w' H Hi Ha Hs.
  - injection H as <- <- <-. split; [apply status_only_refl|].
    split; [done|]. split; [lia|]. exists []. by rewrite app_nil_r.
  - cbn [routing_tries] in H.
    destruct (transceive spi packet_send packet i w) as [[ret p1] w1] eqn:E.
    destruct (transceive_effect spi _ _ _ _ _ _ _ E Hi) as (Hso & Hp & es1 & Ht1 & Hes1).
    assert (Hes1' : Forall (round_event i) es1).
    { eapply Forall_impl; [exact Hes1|]. intros e. by apply event_from_round. }
    cbv beta iota in H. destruct (flag ret).
    + injection H as <- <- <-. split; [done|]. split; [auto|]. split; [lia|].
      by exists es1.
    + apply IH in H; cycle 1.
      * simpl. destruct Hso as (-> & _). done.
      * simpl. destruct Hso as (_ & _ & -> & _). done.
      * apply Hp, Hs.
      * destruct H as (Hso2 & Hp2 & Hn & es2 & Ht2 & Hes2).
        split; [eapply status_only_trans; [exact Hso|exact Hso2]|].
        split; [done|]. split; [lia|].
        exists (es1 ++ [EvSleep RED_STACK_SPI_ROUTING_WAIT] ++ es2).
        split.
        { rewrite Ht2. simpl. rewrite Ht1. by rewrite <- !app_assoc. }
        apply Forall_app. split; [done|]. apply Forall_app. split; [|done].
        by repeat constructor.
Qed.

(** A phase of tries on a slot that is being probed. *)
Lemma phase_effect (packet_send : option Packet) (flag : Z -> bool)
    (i : nat) (packet : Packet) (w : World)
    (tries' : nat) (packet' : Packet) (w' : World) :
  routing_tries spi packet_send flag i RED_STACK_SPI_ROUTING_TRIES 0 packet w
    = (tries', packet', w') ->
  (i < length (slaves (red_stack w)))%nat ->
  probing i w ->
  round_step i w w' /\ probing i w' /\ (tries' <= RED_STACK_SPI_ROUTING_TRIES)%nat.
Proof.
  intros H Hi (st & Hst & Hat).
  apply routing_tries_effect in H; try done; cycle 1.
  { by rewrite Hat. }
  { unfold status_at. by rewrite Hat. }
  destruct H as ((A1 & A2 & A3 & A4 & A5 & A6 & A7) & Hp & Hn & es & Ht & Hes).
  split; [|split; [|lia]].
  - repeat split; try done. by exists es.
  - exists (status_at w' i). split; [done|]. by rewrite A3, Hat.
Qed.

Lemma send_phase_effect (i : nat) (w : World) (tries : nat) (packet : Packet)
    (w1 : World) :
  send_phase spi stack_garbage i w = (tries, packet, w1) ->
  (i < length (slaves (red_stack w)))%nat ->
  slave_at (red_stack w) i = initial_slave i ->
  round_step i w w1 /\ probing i w1 /\ (tries <= RED_STACK_SPI_ROUTING_TRIES)%nat.
Proof.
  unfold send_phase. intros H Hi Hinit.
  apply phase_effect in H.
  - destruct H as (H1 & H2 & H3). split; [|done].
    eapply round_step_trans; [|exact H1]. by apply round_step_set_slave.
  - by rewrite set_slave_length.
  - by apply probing_set_available.
Qed.

(** One round of the discovery, on a slot that is as at startup. *)
Lemma routing_round_effect (i : nat) (w : World) (continue : bool) (w' : World) :
  routing_round spi stack_garbage i w = (continue, w') ->
  (i < length (slaves (red_stack w)))%nat ->
  slave_at (red_stack w) i = initial_slave i ->
  round_step i w w' /\
  continue = negb (slot_exhausted spi stack_garbage i w) /\
  (if continue then
     status_at w' i <> RED_STACK_SLAVE_STATUS_ABSENT /\
     stack_address (slave_at (red_stack w') i) = i /\
     uids_ok (slave_at (red_stack w') i)
   else slave_at (red_stack w') i = initial_slave i).
Proof.
  unfold routing_round, slot_exhausted. intros H Hi Hinit.
  destruct (send_phase spi stack_garbage i w) as [[tries1 p1] w1] eqn:E1.
  destruct (send_phase_effect _ _ _ _ _ E1 Hi Hinit) as (S1 & P1 & _).
  assert (Hi1 : (i < length (slaves (red_stack w1)))%nat).
  { destruct S1 as (-> & _). done. }
  destruct (tries1 =? RED_STACK_SPI_ROUTING_TRIES)%nat.
  { injection H as <- <-.
    destruct (give_up_effect i w1 Hi1 P1) as (S2 & Hat).
    split; [eapply round_step_trans; eauto|]. done. }
  destruct (receive_phase spi i p1 w1) as [[tries2 p2] w2] eqn:E2.
  destruct (phase_effect _ _ _ _ _ _ _ _ E2 Hi1 P1) as (S2 & P2 & _).
  assert (Hi2 : (i < length (slaves (red_stack w2)))%nat).
  { destruct S2 as (-> & _). done. }
  simpl. destruct (tries2 =? RED_STACK_SPI_ROUTING_TRIES)%nat.
  { injection H as <- <-.
    destruct (give_up_effect i w2 Hi2 P2) as (S3 & Hat).
    split; [eapply round_step_trans; [exact S1|]; eapply round_step_trans; eauto|].
    done. }
  destruct P2 as (st & Hst & Hat).
  destruct (copy_uids p2 PACKET_STACK_ENUMERATE_MAX_UIDS 0
              (uids (slave_at (red_stack w2) i)) []) as [[n us] es] eqn:E3.
  injection H as <- <-.
  apply copy_uids_effect in E3; [|by rewrite Hat].
  destruct E3 as (Hl & Hn & Hnz & Hsame & new & -> & Hnew).
  split; [|split; [done|]].
  - eapply round_step_trans; [exact S1|]. eapply round_step_trans; [exact S2|].
    destruct (round_step_set_slave i w2 (set_uids (slave_at (red_stack w2) i) us n) Hi2)
      as (A1 & A2 & A3 & A4 & A5 & A6 & _).
    repeat split; try done. exists new. split; [done|]. apply Hnew.
  - unfold status_at. simpl. rewrite slave_at_insert, decide_True by done.
    rewrite Hat. simpl. split; [done|]. split; [done|].
    unfold uids_ok. cbn [uids uids_num set_uids].
    rewrite Hat in Hl, Hsame. unfold set_status, initial_slave in Hl, Hsame.
    cbn [uids] in Hl, Hsame. rewrite length_replicate in Hl.
    split; [done|]. split; [lia|].
    split; [intros iu Hiu; apply Hnz; lia|].
    intros iu Hiu. rewrite Hsame by lia. rewrite nth_lookup.
    destruct (replicate PACKET_STACK_ENUMERATE_MAX_UIDS 0 !! iu) eqn:E; [|done].
    apply lookup_replicate in E. simpl. tauto.
Qed.

(** The loop over the slots, from the slot [a] on, the slots from [a] on
    being as at startup. *)
Lemma routing_loop_effect (m : nat) :
  forall (a : nat) (w : World) (a' : nat) (w' : World),
  routing_loop spi stack_garbage m a w = (a', w') ->
  (a + m = RED_STACK_SPI_MAX_SLAVES)%nat ->
  length (slaves (red_stack w)) = RED_STACK_SPI_MAX_SLAVES ->
  (forall j, (a <= j < RED_STACK_SPI_MAX_SLAVES)%nat ->
             slave_at (red_stack w) j = initial_slave j) ->
  (a <= a' <= RED_STACK_SPI_MAX_SLAVES)%nat /\
  length (slaves (red_stack w')) = RED_STACK_SPI_MAX_SLAVES /\
  (forall j, (j < a)%nat -> slave_at (red_stack w') j = slave_at (red_stack w) j) /\
  (forall j, (a <= j < a')%nat ->
     status_at w' j <> RED_STACK_SLAVE_STATUS_ABSENT /\
     stack_address (slave_at (red_stack w') j) = j /\
     uids_ok (slave_at (red_stack w') j)) /\
  (forall j, (a' <= j < RED_STACK_SPI_MAX_SLAVES)%nat ->
     slave_at (red_stack w') j = initial_slave j) /\
  (forall k, (a + k < a')%nat ->
     slot_exhausted spi stack_garbage (a + k) (rounds_from spi stack_garbage a k w) = false) /\
  ((a' < RED_STACK_SPI_MAX_SLAVES)%nat ->
     slot_exhausted spi stack_garbage a' (rounds_from spi stack_garbage a (a' - a) w) = true) /\
  (slave_num (red_stack w') = slave_num (red_stack w) /\
   packet_to_spi_queue (red_stack w') = packet_to_spi_queue (red_stack w) /\
   thread_running w' = thread_running w /\
   stack_address_cycle w' = stack_address_cycle w) /\
  exists es, trace w' = trace w ++ es /\ Forall (discovery_event a') es.
Proof.
  induction m as [|m IH]; intros a w a' w' H Ham Hlen Hinit.
  - injection H as <- <-.
    split; [lia|]. split; [done|]. split; [done|].
    split; [intros j Hj; lia|]. split; [done|].
    split; [intros k Hk; lia|]. split; [intros Ha; lia|].
    split; [done|]. exists []. by rewrite app_nil_r.
  - cbn [routing_loop] in H.
    destruct (routing_round spi stack_garbage a w) as [continue w1] eqn:E.
    assert (Ha : (a < RED_STACK_SPI_MAX_SLAVES)%nat) by lia.
    destruct (routing_round_effect a w continue w1 E) as (S1 & Hc & Hslot);
      [by rewrite Hlen | apply Hinit; lia |].
    destruct S1 as (A1 & A2 & A3 & A4 & A5 & A6 & es1 & A7 & A8).
    destruct continue.
    + apply IH in H; [|lia|congruence|]; cycle 1.
      { intros j Hj. rewrite A2 by lia. apply Hinit. lia. }
      destruct H as (B1 & B2 & B3 & B4 & B5 & B6 & B7 & (B8 & B9 & B10 & B11)
                     & es2 & B12 & B13).
      split; [lia|]. split; [done|]. split.
      { intros j Hj. rewrite B3 by lia. apply A2. lia. }
      split.
      { intros j Hj. destruct (decide (j = a)) as [->|Hne].
        - unfold status_at. rewrite B3 by lia. apply Hslot.
        - apply B4. lia. }
      split; [done|]. split.
      { intros [|k] Hk.
        - rewrite Nat.add_0_r. simpl. symmetry in Hc.
          by apply negb_true_iff in Hc.
        - replace (a + S k)%nat with (S a + k)%nat by lia.
          cbn [rounds_from]. rewrite E. apply B6. lia. }
      split.
      { intros Ha'. replace (a' - a)%nat with (S (a' - S a)) by lia.
        cbn [rounds_from]. rewrite E. by apply B7. }
      split; [repeat split; congruence|].
      exists (es1 ++ es2). split; [by rewrite B12, A7, app_assoc|].
      apply Forall_app. split; [|done].
      eapply Forall_impl; [exact A8|]. intros e. apply round_event_discovery; lia.
    + injection H as <- <-.
      split; [lia|]. split; [congruence|]. split.
      { intros j Hj. apply A2. lia. }
      split; [intros j Hj; lia|]. split.
      { intros j Hj. destruct (decide (j = a)) as [->|Hne]; [done|].
        rewrite A2 by done. apply Hinit. lia. }
      split; [intros k Hk; lia|]. split.
      { intros _. rewrite Nat.sub_diag. simpl. symmetry in Hc.
        by apply negb_false_iff in Hc. }
      split; [done|]. exists es1. split; [done|].
      eapply Forall_impl; [exact A8|]. intros e. apply round_event_discovery; lia.
Qed.

End Discovery.

(** ** Lookup by UID *)

Lemma for_find_Some (p : nat -> bool) (n : nat) :
  forall i k, for_find p i n = Some k ->
  (i <= k < i + n)%nat /\ p k = true /\ forall j, (i <= j < k)%nat -> p j = false.
Proof.
  induction n as [|n IH]; intros i k H; [done|].
  simpl in H. destruct (p i) eqn:E.
  - injection H as <-. split; [lia|]. split; [done|]. intros j Hj. lia.
  - apply IH in H. destruct H as (H1 & H2 & H3).
    split; [lia|]. split; [done|].
    intros j Hj. destruct (decide (j = i)) as [->|Hne]; [done|]. apply H3. lia.
Qed.

Lemma for_find_None (p : nat -> bool) (n : nat) :
  forall i, for_find p i n = None -> forall j, (i <= j < i + n)%nat -> p j = false.
Proof.
  induction n as [|n IH]; intros i H j Hj; [lia|].
  simpl in H. destruct (p i) eqn:E; [done|].
  destruct (decide (j = i)) as [->|Hne]; [done|]. apply (IH (S i)); [done|lia].
Qed.

(** The inner loop finds the UID exactly if it is registered with the
    slave. *)
Lemma inner_scan_registered (s : REDStack) (i : nat) (uid : Z) :
  bool_decide (is_Some
    (for_find (fun iu => nth iu (uids (slave_at s i)) 0 =? uid)
              0 (uids_num (slave_at s i)))) = true
  <-> registered s i uid.
Proof.
  rewrite bool_decide_eq_true. unfold registered. split.
  - intros [k Hk]. apply for_find_Some in Hk. destruct Hk as (H1 & H2 & _).
    exists k. split; [lia|]. by apply Z.eqb_eq.
  - intros (iu & Hiu & Hu).
    destruct (for_find _ 0 (uids_num (slave_at s i))) as [k|] eqn:E; [done|].
    eapply for_find_None in E; [|split; [apply Nat.le_0_l|exact Hiu]].
    simpl in E. apply Z.eqb_neq in E. done.
Qed.

(** [red_stack_spi_get_slave_for_uid] gives the first of the present slaves
    the UID is registered with, and [NULL] exactly if there is none. *)
Lemma get_slave_for_uid_Some (s : REDStack) (uid : Z) (k : nat) :
  red_stack_spi_get_slave_for_uid s uid = Some k ->
  (k < slave_num s)%nat /\ registered s k uid /\
  forall j, (j < k)%nat -> ~ registered s j uid.
Proof.
  unfold red_stack_spi_get_slave_for_uid. intros H.
  apply for_find_Some in H. destruct H as (H1 & H2 & H3).
  split; [lia|]. split; [by apply inner_scan_registered|].
  intros j Hj Hr. apply inner_scan_registered in Hr.
  rewrite H3 in Hr by lia. done.
Qed.

Lemma get_slave_for_uid_None (s : REDStack) (uid : Z) :
  red_stack_spi_get_slave_for_uid s uid = None ->
  forall j, (j < slave_num s)%nat -> ~ registered s j uid.
Proof.
  unfold red_stack_spi_get_slave_for_uid. intros H j Hj Hr.
  eapply for_find_None in H; [|split; [apply Nat.le_0_l|exact Hj]].
  apply inner_scan_registered in Hr. simpl in H. congruence.
Qed.

Lemma get_slave_for_uid_registered (s : REDStack) (i : nat) (uid : Z) :
  (i < slave_num s)%nat -> registered s i uid ->
  exists k, red_stack_spi_get_slave_for_uid s uid = Some k /\
    (k <= i)%nat /\ registered s k uid /\
    forall j, (j < k)%nat -> ~ registered s j uid.
Proof.
  intros Hi Hr.
  destruct (red_stack_spi_get_slave_for_uid s uid) as [k|] eqn:E.
  - destruct (get_slave_for_uid_Some s uid k E) as (H1 & H2 & H3).
    exists k. split; [done|]. split; [|done].
    destruct (decide (k <= i)%nat) as [|Hgt]; [done|].
    exfalso. apply (H3 i); [lia|done].
  - exfalso. by apply (get_slave_for_uid_None s uid E i).
Qed.

(** ** Before the discovery *)

Lemma before_discovery_inv (w : World) :
  before_discovery w ->
  red_stack w = red_stack initial_world /\
  thread_running w = false /\
  Forall is_log (trace w).
Proof.
  induction 1 as [|w request _ (IH1 & IH2 & IH3)]; [by repeat split|].
  unfold red_stack_dispatch_to_spi. rewrite IH1.
  destruct (header_uid request =? 0).
  - simpl. split; [done|]. split; [done|]. by rewrite app_nil_r.
  - simpl. split; [done|]. split; [done|].
    apply Forall_app. split; [done|]. by repeat constructor.
Qed.

Lemma initial_slave_at (j : nat) :
  (j < RED_STACK_SPI_MAX_SLAVES)%nat ->
  slave_at (red_stack initial_world) j = initial_slave j.
Proof.
  intros Hj. unfold slave_at, initial_world. cbn [red_stack slaves].
  rewrite nth_lookup, list_lookup_fmap, lookup_seq_lt by done. done.
Qed.

Section DiscoveryClaims.

Variable spi : nat -> nat -> list Z -> Z * list Z.
Variable stack_garbage : nat -> Packet.

(** What the discovery leaves behind, started before any slave is known. *)
Lemma create_routing_table_effect (w0 : World) :
  before_discovery w0 ->
  let w := red_stack_spi_create_routing_table spi stack_garbage w0 in
  let n := slave_num (red_stack w) in
  let start := with_events w0 [EvLog DbgOther] in
  (n <= RED_STACK_SPI_MAX_SLAVES)%nat /\
  length (slaves (red_stack w)) = RED_STACK_SPI_MAX_SLAVES /\
  (forall j, (j < n)%nat ->
     status_at w j <> RED_STACK_SLAVE_STATUS_ABSENT /\
     stack_address (slave_at (red_stack w) j) = j /\
     uids_ok (slave_at (red_stack w) j)) /\
  (forall j, (n <= j < RED_STACK_SPI_MAX_SLAVES)%nat ->
     slave_at (red_stack w) j = initial_slave j) /\
  (forall k, (k < n)%nat ->
     slot_exhausted spi stack_garbage k (rounds_from spi stack_garbage 0 k start) = false) /\
  ((n < RED_STACK_SPI_MAX_SLAVES)%nat ->
     slot_exhausted spi stack_garbage n (rounds_from spi stack_garbage 0 n start) = true) /\
  (packet_to_spi_queue (red_stack w) = [] /\
   thread_running w = false /\
   stack_address_cycle w = stack_address_cycle w0) /\
  Forall (discovery_event n) (trace w).
Proof.
  intros Hbd. destruct (before_discovery_inv w0 Hbd) as (Hs & Hr & Ht).
  unfold red_stack_spi_create_routing_table. cbv zeta.
  destruct (routing_loop spi stack_garbage RED_STACK_SPI_MAX_SLAVES 0
              (with_events w0 [EvLog DbgOther])) as [a' w'] eqn:E.
  apply routing_loop_effect in E; [|done|simpl; by rewrite Hs|]; cycle 1.
  { intros j Hj. simpl. rewrite Hs. apply initial_slave_at. lia. }
  destruct E as (B1 & B2 & B3 & B4 & B5 & B6 & B7 & (B8 & B9 & B10 & B11)
                 & es & B12 & B13).
  simpl. split; [lia|]. split; [done|]. split.
  { intros j Hj. apply B4. lia. }
  split; [done|]. split.
  { intros k Hk. apply (B6 k). lia. }
  split.
  { intros Ha. specialize (B7 Ha). by rewrite Nat.sub_0_r in B7. }
  split.
  { simpl in B9, B10, B11. rewrite B9, B10, Hs, Hr. done. }
  rewrite B12. simpl. rewrite <- !app_assoc. apply Forall_app. split.
  { eapply Forall_impl; [exact Ht|]. by intros []. }
  apply Forall_app. split; [by repeat constructor|].
  apply Forall_app. split; [done|]. by repeat constructor.
Qed.

(** C5: after the discovery, [slave_num] is the first slot whose send or
    receive phase used up its ten tries, or 8 if there is none; the slots
    below it are AVAILABLE or AVAILABLE_BUSY, the slots from it on are
    ABSENT, and no exchange was made with a slot above it. *)
Theorem discovery_postcondition (w0 : World) :
  before_discovery w0 ->
  let w := red_stack_spi_create_routing_table spi stack_garbage w0 in
  let n := slave_num (red_stack w) in
  let start := with_events w0 [EvLog DbgOther] in
  (n <= RED_STACK_SPI_MAX_SLAVES)%nat /\
  (forall k, (k < n)%nat ->
     slot_exhausted spi stack_garbage k (rounds_from spi stack_garbage 0 k start) = false) /\
  ((n < RED_STACK_SPI_MAX_SLAVES)%nat ->
     slot_exhausted spi stack_garbage n (rounds_from spi stack_garbage 0 n start) = true) /\
  (forall j, (j < n)%nat ->
     status_at w j = RED_STACK_SLAVE_STATUS_AVAILABLE \/
     status_at w j = RED_STACK_SLAVE_STATUS_AVAILABLE_BUSY) /\
  (forall j, (n <= j < RED_STACK_SPI_MAX_SLAVES)%nat ->
     status_at w j = RED_STACK_SLAVE_STATUS_ABSENT) /\
  (forall pin a st tx, EvExchange pin a st tx ∈ trace w ->
     (a <= n)%nat /\ (a < RED_STACK_SPI_MAX_SLAVES)%nat).
Proof.
  intros Hbd w n start.
  destruct (create_routing_table_effect w0 Hbd)
    as (H1 & H2 & H3 & H4 & H5 & H6 & H7 & H8).
  fold w in H1, H2, H3, H4, H5, H6, H7, H8. fold n in H1, H3, H4, H5, H6, H8.
  split; [done|]. split; [done|]. split; [done|]. split; [|split].
  - intros j Hj. destruct (H3 j Hj) as (Hst & _).
    destruct (status_at w j); [done | by left | by right].
  - intros j Hj. unfold status_at. by rewrite H4.
  - intros pin a st tx Hin.
    rewrite Forall_forall in H8. specialize (H8 _ Hin). simpl in H8. tauto.
Qed.

(** C6: after the discovery, every UID handed to [stack_add_uid] and every
    UID registered with a slave is non-zero; each slave holds at most 16
    UIDs, [uids_num] of them, the rest of the array being zero; and a UID
    that is registered is registered with a present slave, and its lookup
    gives the first present slave it is registered with. *)
Theorem discovery_uids (w0 : World) :
  before_discovery w0 ->
  let w := red_stack_spi_create_routing_table spi stack_garbage w0 in
  let s := red_stack w in
  (forall uid, EvStackAddUid uid ∈ trace w -> uid <> 0) /\
  (forall i, (i < RED_STACK_SPI_MAX_SLAVES)%nat -> uids_ok (slave_at s i)) /\
  (forall i uid, (i < RED_STACK_SPI_MAX_SLAVES)%nat -> registered s i uid -> uid <> 0) /\
  (forall i uid, registered s i uid ->
     (i < slave_num s)%nat /\
     exists k, red_stack_spi_get_slave_for_uid s uid = Some k /\
       (k <= i)%nat /\ registered s k uid /\
       forall j, (j < k)%nat -> ~ registered s j uid).
Proof.
  intros Hbd w s.
  destruct (create_routing_table_effect w0 Hbd)
    as (H1 & H2 & H3 & H4 & H5 & H6 & H7 & H8).
  fold w in H1, H2, H3, H4, H5, H6, H7, H8. fold s in H1, H2, H3, H4.
  assert (Hok : forall i, (i < RED_STACK_SPI_MAX_SLAVES)%nat -> uids_ok (slave_at s i)).
  { intros i Hi. destruct (decide (i < slave_num s)%nat) as [Hlt|Hge].
    - apply H3. done.
    - rewrite H4 by lia.
      apply (initial_slave_uids_ok i RED_STACK_SLAVE_STATUS_ABSENT). }
  split; [|split; [done|split]].
  - intros uid Hin. rewrite Forall_forall in H8. apply (H8 _ Hin).
  - intros i uid Hi (iu & Hiu & <-).
    destruct (Hok i Hi) as (_ & _ & Hnz & _). by apply Hnz.
  - intros i uid Hr.
    assert (Hi : (i < slave_num s)%nat).
    { destruct (decide (i < slave_num s)%nat) as [|Hge]; [done|]. exfalso.
      destruct Hr as (iu & Hiu & _).
      destruct (decide (i < RED_STACK_SPI_MAX_SLAVES)%nat) as [Hlt|Hout].
      - rewrite H4 in Hiu by lia. simpl in Hiu. lia.
      - unfold slave_at in Hiu. rewrite nth_overflow in Hiu by (rewrite H2; lia).
        simpl in Hiu. lia. }
    split; [done|]. by apply get_slave_for_uid_registered.
Qed.

End DiscoveryClaims.

Lemma discovery_postcondition_witness :
  let w := red_stack_spi_create_routing_table one_slave_device some_garbage
             initial_world in
  let n := slave_num (red_stack w) in
  let start := with_events initial_world [EvLog DbgOther] in
  (n <= RED_STACK_SPI_MAX_SLAVES)%nat /\
  (forall k, (k < n)%nat ->
     slot_exhausted one_slave_device some_garbage k
       (rounds_from one_slave_device some_garbage 0 k start) = false) /\
  ((n < RED_STACK_SPI_MAX_SLAVES)%nat ->
     slot_exhausted one_slave_device some_garbage n
       (rounds_from one_slave_device some_garbage 0 n start) = true) /\
  (forall j, (j < n)%nat ->
     status_at w j = RED_STACK_SLAVE_STATUS_AVAILABLE \/
     status_at w j = RED_STACK_SLAVE_STATUS_AVAILABLE_BUSY) /\
  (forall j, (n <= j < RED_STACK_SPI_MAX_SLAVES)%nat ->
     status_at w j = RED_STACK_SLAVE_STATUS_ABSENT) /\
  (forall pin a st tx, EvExchange pin a st tx ∈ trace w ->
     (a <= n)%nat /\ (a < RED_STACK_SPI_MAX_SLAVES)%nat).
Proof.
  apply (discovery_postcondition one_slave_device some_garbage initial_world).
  constructor.
Defined.

Lemma discovery_uids_witness :
  let w := red_stack_spi_create_routing_table one_slave_device some_garbage
             initial_world in
  let s := red_stack w in
  (forall uid, EvStackAddUid uid ∈ trace w -> uid <> 0) /\
  (forall i, (i < RED_STACK_SPI_MAX_SLAVES)%nat -> uids_ok (slave_at s i)) /\
  (forall i uid, (i < RED_STACK_SPI_MAX_SLAVES)%nat -> registered s i uid -> uid <> 0) /\
  (forall i uid, registered s i uid ->
     (i < slave_num s)%nat /\
     exists k, red_stack_spi_get_slave_for_uid s uid = Some k /\
       (k <= i)%nat /\ registered s k uid /\
       forall j, (j < k)%nat -> ~ registered s j uid).
Proof.
  apply (discovery_uids one_slave_device some_garbage initial_world).
  constructor.
Defined.

(** The stack of the example: one slave with the UIDs 1 and 2. *)
Example one_slave_discovered :
  let w := red_stack_spi_thread_start one_slave_device some_garbage initial_world in
  slave_num (red_stack w) = 1%nat /\
  thread_running w = true /\
  status_at w 0 = RED_STACK_SLAVE_STATUS_AVAILABLE /\
  take 3 (uids (slave_at (red_stack w) 0)) = [1; 2; 0] /\
  uids_num (slave_at (red_stack w) 0) = 2%nat /\
  status_at w 1 = RED_STACK_SLAVE_STATUS_ABSENT.
Proof. vm_compute. repeat split. Qed.

(** ** Dispatch to SPI *)

(** A dispatch leaves everything but the queue and the trace alone; what it
    adds to the queue points at present slaves, what it adds to the trace
    are log lines. *)
Lemma dispatch_to_spi_effect (request : Packet) (w : World) :
  let w' := red_stack_dispatch_to_spi request w in
  slaves (red_stack w') = slaves (red_stack w) /\
  slave_num (red_stack w') = slave_num (red_stack w) /\
  thread_running w' = thread_running w /\
  stack_address_cycle w' = stack_address_cycle w /\
  (exists items,
     packet_to_spi_queue (red_stack w')
       = packet_to_spi_queue (red_stack w) ++ items /\
     Forall (fun item => (rsp_slave item < slave_num (red_stack w))%nat) items) /\
  exists es, trace w' = trace w ++ es /\ Forall is_log es.
Proof.
  unfold red_stack_dispatch_to_spi. cbv zeta.
  destruct (header_uid request =? 0).
  - simpl. repeat split; try done.
    + eexists. split; [done|]. apply Forall_fmap, Forall_forall.
      intros i Hi. apply elem_of_seq in Hi. simpl. lia.
    + eexists. split; [done|]. apply Forall_fmap, Forall_true. done.
  - destruct (red_stack_spi_get_slave_for_uid (red_stack w) (header_uid request))
      as [k|] eqn:E; simpl.
    + apply get_slave_for_uid_Some in E. destruct E as (Hk & _).
      repeat split; try done.
      * eexists. split; [done|]. by repeat constructor.
      * eexists. split; [done|]. by repeat constructor.
    + repeat split; try done.
      * exists []. by rewrite app_nil_r.
      * eexists. split; [done|]. by repeat constructor.
Qed.

(** C7: a request with UID 0 is queued once for each present slave, in the
    order of the slots; a request with a non-zero UID that is registered
    with a present slave is queued once, for the slave the lookup gives; a
    request with a non-zero UID that is registered with none is not queued,
    and an error is logged. *)
Theorem dispatch_to_spi_queue (request : Packet) (w : World) :
  let s := red_stack w in
  let w' := red_stack_dispatch_to_spi request w in
  let uid := header_uid request in
  let item i := mkREDStackPacket i (queued_packet request) in
  (uid = 0 ->
     packet_to_spi_queue (red_stack w')
       = packet_to_spi_queue s ++ (item <$> seq 0 (slave_num s)) /\
     Forall is_log (drop (length (trace w)) (trace w'))) /\
  (uid <> 0 -> (exists i, (i < slave_num s)%nat /\ registered s i uid) ->
     exists k, red_stack_spi_get_slave_for_uid s uid = Some k /\
       (k < slave_num s)%nat /\ registered s k uid /\
       (forall j, (j < k)%nat -> ~ registered s j uid) /\
       packet_to_spi_queue (red_stack w') = packet_to_spi_queue s ++ [item k] /\
       trace w' = trace w ++ [EvLog DbgOther]) /\
  (uid <> 0 -> (forall i, (i < slave_num s)%nat -> ~ registered s i uid) ->
     packet_to_spi_queue (red_stack w') = packet_to_spi_queue s /\
     trace w' = trace w ++ [EvLog (ErrUnknownUid uid)] /\
     is_error (ErrUnknownUid uid) = true).
Proof.
  intros s w' uid item. subst w'. unfold red_stack_dispatch_to_spi. cbv zeta.
  fold s uid. split; [|split].
  - intros ->. simpl. split; [done|].
    rewrite drop_app_length. apply Forall_fmap, Forall_true. done.
  - intros Hne (i & Hi & Hr). apply Z.eqb_neq in Hne. rewrite Hne.
    destruct (get_slave_for_uid_registered s i uid Hi Hr) as (k & Hk & Hle & Hrk & Hfirst).
    rewrite Hk. exists k. simpl. repeat split; try done. lia.
  - intros Hne Hnone. apply Z.eqb_neq in Hne. rewrite Hne.
    destruct (red_stack_spi_get_slave_for_uid s uid) as [k|] eqn:E; [|done].
    apply get_slave_for_uid_Some in E. destruct E as (Hk & Hrk & _).
    exfalso. by apply (Hnone k).
Qed.

Lemma one_slave_world_stack :
  slave_num (red_stack one_slave_world) = 1%nat /\
  uids_num (slave_at (red_stack one_slave_world) 0) = 2%nat /\
  uids (slave_at (red_stack one_slave_world) 0) = [1; 2] ++ replicate 14 0 /\
  packet_to_spi_queue (red_stack one_slave_world) = [].
Proof. vm_compute. repeat split. Qed.

Lemma dispatch_to_spi_queue_witness :
  (packet_to_spi_queue (red_stack
     (red_stack_dispatch_to_spi (request_for 0) one_slave_world))
   = [mkREDStackPacket 0 (queued_packet (request_for 0))]) /\
  (exists k, red_stack_spi_get_slave_for_uid (red_stack one_slave_world) 2 = Some k /\
     packet_to_spi_queue (red_stack
       (red_stack_dispatch_to_spi (request_for 2) one_slave_world))
     = [mkREDStackPacket k (queued_packet (request_for 2))]) /\
  (packet_to_spi_queue (red_stack
     (red_stack_dispatch_to_spi (request_for 0xDEADBEEF) one_slave_world)) = [] /\
   trace (red_stack_dispatch_to_spi (request_for 0xDEADBEEF) one_slave_world)
   = trace one_slave_world ++ [EvLog (ErrUnknownUid 0xDEADBEEF)]).
Proof.
  destruct one_slave_world_stack as (Hn & Hun & Hu & Hq).
  split; [|split].
  - destruct (dispatch_to_spi_queue (request_for 0) one_slave_world) as ((H & _) & _ & _);
      [reflexivity|].
    rewrite H, Hq, Hn. reflexivity.
  - destruct (dispatch_to_spi_queue (request_for 2) one_slave_world) as (_ & H & _).
    destruct H as (k & Hk & _ & _ & _ & Hqueue & _); [by vm_compute| |].
    + exists 0%nat. split; [rewrite Hn; lia|].
      exists 1%nat. split; [rewrite Hun; lia|]. by rewrite Hu.
    + exists k. split; [exact Hk|]. rewrite Hqueue, Hq. reflexivity.
  - destruct (dispatch_to_spi_queue (request_for 0xDEADBEEF) one_slave_world) as (_ & _ & H).
    destruct H as (Hqueue & Htrace & _); [by vm_compute| |].
    + rewrite Hn. intros i Hi (iu & Hiu & Hnth).
      assert (i = 0%nat) as -> by lia. rewrite Hun in Hiu. rewrite Hu in Hnth.
      destruct iu as [|[|iu]]; [by vm_compute in Hnth | by vm_compute in Hnth | lia].
    + split; [by rewrite Hqueue, Hq | exact Htrace].
Defined.

(** ** The polling loop *)

Lemma discovery_event_present (n : nat) (e : Event) :
  discovery_event n e -> selected_present e.
Proof. destruct e; simpl; tauto. Qed.

Lemma is_log_present (e : Event) : is_log e -> selected_present e.
Proof. by destruct e. Qed.

Lemma event_from_present (slave : REDStackSlave) (packet_send : option Packet)
    (e : Event) :
  status slave <> RED_STACK_SLAVE_STATUS_ABSENT ->
  event_from slave packet_send e -> selected_present e.
Proof. intros Hs. destruct e; simpl; try done. intros (_ & _ & -> & _). done. Qed.

Lemma polling_inv_dispatch (request : Packet) (w : World) :
  polling_inv w -> polling_inv (red_stack_dispatch_to_spi request w).
Proof.
  intros (I1 & I2 & I3 & I4 & I5 & I6).
  destruct (dispatch_to_spi_effect request w)
    as (D1 & D2 & D3 & D4 & (items & D5 & D6) & es & D7 & D8).
  unfold polling_inv, status_at, slave_at in *. rewrite D1, D2, D3, D4, D5, D7.
  split; [done|]. split; [done|]. split; [done|]. split; [done|].
  split; [by apply Forall_app|]. apply Forall_app. split; [done|].
  eapply Forall_impl; [exact D8|]. apply is_log_present.
Qed.

Section Polling.

Variable spi : nat -> nat -> list Z -> Z * list Z.
Variable stack_garbage : nat -> Packet.

Lemma polling_inv_start (w : World) :
  before_discovery w ->
  polling_inv (red_stack_spi_thread_start spi stack_garbage w).
Proof.
  intros Hbd. unfold red_stack_spi_thread_start.
  destruct (create_routing_table_effect spi stack_garbage w Hbd)
    as (H1 & H2 & H3 & H4 & _ & _ & (H5 & H6 & _) & H7).
  set (w1 := red_stack_spi_create_routing_table spi stack_garbage w) in *.
  assert (Ht : Forall selected_present (trace w1)).
  { eapply Forall_impl; [exact H7|]. apply discovery_event_present. }
  destruct (slave_num (red_stack w1) =? 0)%nat eqn:E.
  - unfold polling_inv, status_at. simpl.
    split; [done|]. split; [done|]. split; [intros j Hj; by apply H3|].
    split; [by rewrite H6|]. split; [by rewrite H5|].
    apply Forall_app. split; [done|]. by repeat constructor.
  - apply Nat.eqb_neq in E. unfold polling_inv, status_at. simpl.
    split; [done|]. split; [done|]. split; [intros j Hj; by apply H3|].
    split; [lia|]. split; [by rewrite H5|]. done.
Qed.

(** One round of the loop, in a world where the invariant holds: the slave
    that is selected is present. *)
Lemma polling_inv_round (w : World) :
  polling_inv w -> thread_running w = true ->
  polling_inv (red_stack_spi_thread_round spi w).
Proof.
  intros (I1 & I2 & I3 & I4 & I5 & I6) Hrun. specialize (I4 Hrun).
  unfold red_stack_spi_thread_round. cbv zeta.
  cbn [packet_to_spi_queue slave_num packet_from_spi].
  destruct (packet_to_spi_queue (red_stack w)) as [|item rest] eqn:Eq.
  - cbv beta iota.
    match goal with |- context [transceive spi None ?p ?i ?w0] =>
      destruct (transceive spi None p i w0) as [[ret packet] w1] eqn:E end.
    apply transceive_effect in E; [|simpl; lia].
    destruct E as ((A1 & A2 & A3 & A4 & A5 & A6 & A7) & Hp & es & Ht & Hes).
    simpl in A1, A2, A3, A4, A5, A6, A7, Ht, Hes.
    assert (Hst : forall j, (j < slave_num (red_stack w))%nat ->
              status_at w1 j <> RED_STACK_SLAVE_STATUS_ABSENT).
    { intros j Hj. destruct (decide (j = stack_address_cycle w)) as [->|Hne].
      - apply Hp. by apply I3.
      - unfold status_at. rewrite A2 by done. by apply I3. }
    assert (Htr : Forall selected_present (trace w1)).
    { rewrite Ht. apply Forall_app. split; [by rewrite app_nil_r|].
      eapply Forall_impl; [exact Hes|]. intros e.
      apply event_from_present. by apply I3. }
    assert (Hc : ((if (slave_num (red_stack w) <=? S (stack_address_cycle w))%nat
                   then 0 else S (stack_address_cycle w)) < slave_num (red_stack w))%nat).
    { destruct (Nat.leb_spec (slave_num (red_stack w)) (S (stack_address_cycle w))); lia. }
    destruct (data_send ret), (data_received ret); unfold polling_inv, status_at in *;
      simpl; rewrite ?A1, ?A4, ?A5, ?A7; simpl;
      (split; [done|]); (split; [done|]); (split; [done|]);
      (split; [done|]); (split; [by constructor|]);
      try done; (apply Forall_app; split; [done|]; by repeat constructor).
  - cbv beta iota.
    assert (Hitem : (rsp_slave item < slave_num (red_stack w))%nat).
    { by inversion I5. }
    match goal with |- context [transceive spi ?ps ?p ?i ?w0] =>
      destruct (transceive spi ps p i w0) as [[ret packet] w1] eqn:E end.
    apply transceive_effect in E; [|simpl; lia].
    destruct E as ((A1 & A2 & A3 & A4 & A5 & A6 & A7) & Hp & es & Ht & Hes).
    simpl in A1, A2, A3, A4, A5, A6, A7, Ht, Hes.
    assert (Hst : forall j, (j < slave_num (red_stack w))%nat ->
              status_at w1 j <> RED_STACK_SLAVE_STATUS_ABSENT).
    { intros j Hj. destruct (decide (j = rsp_slave item)) as [->|Hne].
      - apply Hp. by apply I3.
      - unfold status_at. rewrite A2 by done. by apply I3. }
    assert (Htr : Forall selected_present (trace w1)).
    { rewrite Ht. apply Forall_app. split.
      - apply Forall_app. split; [done|]. by repeat constructor.
      - eapply Forall_impl; [exact Hes|]. intros e.
        apply event_from_present. by apply I3. }
    assert (Hrest : Forall (fun item => (rsp_slave item < slave_num (red_stack w))%nat) rest).
    { by inversion I5. }
    destruct (data_send ret), (data_received ret); unfold polling_inv, status_at in *;
      simpl; rewrite ?A1, ?A4, ?A5, ?A7; simpl;
      (split; [done|]); (split; [done|]); (split; [done|]);
      (split; [done|]); (split; [done|]);
      try done; (apply Forall_app; split; [done|]; by repeat constructor).
Qed.

Lemma reachable_polling_inv (w : World) :
  reachable spi stack_garbage w -> polling_inv w.
Proof.
  induction 1 as [w Hbd | w request _ IH | w _ IH | w _ IH Hrun].
  - by apply polling_inv_start.
  - by apply polling_inv_dispatch.
  - destruct IH as (I1 & I2 & I3 & I4 & I5 & I6). by repeat split.
  - by apply polling_inv_round.
Qed.

(** C9: in every world the discovery and the polling loop can reach, every
    exchange over SPI, that is every time a chip-select line was asserted,
    was made with a slave whose status at the call was AVAILABLE or
    AVAILABLE_BUSY. *)
Theorem absent_slave_never_selected (w : World) :
  reachable spi stack_garbage w ->
  forall pin a st tx, EvExchange pin a st tx ∈ trace w ->
    st = RED_STACK_SLAVE_STATUS_AVAILABLE \/
    st = RED_STACK_SLAVE_STATUS_AVAILABLE_BUSY.
Proof.
  intros Hr pin a st tx Hin.
  destruct (reachable_polling_inv w Hr) as (_ & _ & _ & _ & _ & Ht).
  rewrite Forall_forall in Ht. specialize (Ht _ Hin). simpl in Ht.
  destruct st; [done | by left | by right].
Qed.

End Polling.

Lemma absent_slave_never_selected_witness :
  reachable one_slave_device some_garbage polled_world /\
  (forall pin a st tx, EvExchange pin a st tx ∈ trace polled_world ->
     st = RED_STACK_SLAVE_STATUS_AVAILABLE \/
     st = RED_STACK_SLAVE_STATUS_AVAILABLE_BUSY).
Proof.
  assert (H : reachable one_slave_device some_garbage polled_world).
  { apply reach_round; [|reflexivity].
    apply reach_dispatch, reach_discovered, bd_init. }
  split; [exact H|].
  exact (absent_slave_never_selected one_slave_device some_garbage polled_world H).
Defined.

(** ** Busy slaves and oversized requests *)

(** A frame that passes the checks sets the status by bit 0 of its info
    byte. *)
Lemma check_rx_accepted (retval : Z) (rx : list Z) (packet_recv : Packet)
    (st : REDStackSlaveStatus) :
  rx_accepted rx = true ->
  rx_status (transceive_check_rx retval rx packet_recv st)
    = (if Z.testbit (rx_info rx) 0 then RED_STACK_SLAVE_STATUS_AVAILABLE_BUSY
       else RED_STACK_SLAVE_STATUS_AVAILABLE).
Proof.
  unfold rx_accepted, rx_info, transceive_check_rx.
  intros H. apply andb_true_iff in H. destruct H as [H H3].
  apply andb_true_iff in H. destruct H as [H1 H2].
  apply negb_true_iff in H2.
  rewrite H1, H2, H3. simpl negb. cbv iota.
  unfold RED_STACK_SPI_INFO_BUSY. change (Z.shiftl 1 0) with 1.
  rewrite land_1_odd, Z.bit0_odd.
  destruct (byte_at rx RED_STACK_SPI_LENGTH =? RED_STACK_SPI_PACKET_EMPTY_SIZE);
    simpl; by destruct (Z.odd _).
Qed.

Lemma poll_frame_closed :
  transceive_close_tx
    (byte_set (byte_set (replicate 84 0) 0 RED_STACK_SPI_PREAMBLE_VALUE) 1 4)
  = poll_frame.
Proof. vm_compute. reflexivity. Qed.

(** A call for a busy slave. *)
Lemma transceive_message_busy (ioctl : list Z -> Z * list Z)
    (packet_send : option Packet) (packet_recv : Packet) (slave : REDStackSlave) :
  status slave = RED_STACK_SLAVE_STATUS_AVAILABLE_BUSY ->
  let r := red_stack_spi_transceive_message ioctl packet_send packet_recv slave in
  tr_tx r = Some poll_frame /\
  data_send (tr_retval r) = false /\
  (if u8 (ioctl poll_frame).1 =? RED_STACK_SPI_PACKET_SIZE
   then result_send (tr_retval r) = RED_STACK_TRANSCEIVE_RESULT_SEND_NONE
   else tr_retval r = Z.lor RED_STACK_TRANSCEIVE_RESULT_SEND_ERROR
                            RED_STACK_TRANSCEIVE_RESULT_READ_ERROR).
Proof.
  intros Hst r.
  destruct (transceive_tx_poll packet_send slave (or_intror Hst)) as [Hfill Htx].
  split; [subst r; by rewrite transceive_message_tx|].
  pose proof (transceive_message_send_fields ioctl packet_send packet_recv slave) as H.
  cbv zeta in H. fold r in H. rewrite Hfill, poll_frame_closed in H.
  destruct (u8 (ioctl poll_frame).1 =? RED_STACK_SPI_PACKET_SIZE).
  - destruct H as [-> ->]. done.
  - rewrite H. done.
Qed.

(** A call with an oversized request. *)
Lemma transceive_message_oversized (ioctl : list Z -> Z * list Z)
    (p : Packet) (packet_recv : Packet) (slave : REDStackSlave) :
  sizeof_Packet < header_length p ->
  data_send (tr_retval (red_stack_spi_transceive_message ioctl (Some p)
                          packet_recv slave)) = false.
Proof.
  intros Hlen.
  destruct (data_send _) eqn:E; [|done].
  apply transceive_message_data_send in E.
  destruct E as (p' & [= <-] & _ & Hle). lia.
Qed.

Section Rounds.

Variable spi : nat -> nat -> list Z -> Z * list Z.

(** A round of the thread with a work item at the head of the queue. *)
Lemma thread_round_item (w : World) (item : REDStackPacket)
    (rest : list REDStackPacket) :
  packet_to_spi_queue (red_stack w) = item :: rest ->
  let slave := slave_at (red_stack w) (rsp_slave item) in
  let r := red_stack_spi_transceive_message
             (spi (transfers w) (stack_address slave))
             (Some (rsp_packet item)) (replicate (Z.to_nat sizeof_Packet) 0) slave in
  let w' := red_stack_spi_thread_round spi w in
  packet_to_spi_queue (red_stack w')
    = (if data_send (tr_retval r) then rest else item :: rest) /\
  slaves (red_stack w') = <[rsp_slave item := tr_slave r]> (slaves (red_stack w)) /\
  slave_num (red_stack w') = slave_num (red_stack w) /\
  trace w' = trace w ++ [EvLog DbgOther]
    ++ match tr_tx r with
       | Some tx => [EvExchange (slave_select_pin slave) (stack_address slave)
                                (status slave) tx]
       | None => []
       end
    ++ (EvLog <$> tr_log r)
    ++ (if data_received (tr_retval r)
        then [EvDispatchResponse (tr_packet_recv r)] else []).
Proof.
  intros Hq slave r w'. subst w'.
  unfold red_stack_spi_thread_round, transceive. cbv zeta.
  cbn [packet_to_spi_queue slave_num packet_from_spi]. rewrite Hq.
  cbv beta iota. cbn [red_stack transfers trace slaves thread_running stack_address_cycle].
  change (slave_at _ (rsp_slave item)) with slave. fold r.
  destruct (data_send (tr_retval r)), (data_received (tr_retval r));
    cbn; rewrite <- ?app_assoc; cbn; rewrite ?app_nil_r; done.
Qed.

End Rounds.

(** C3, as amended: an exchange whose received frame passes the receiver's
    checks with bit 0 of the info byte set leaves the slave AVAILABLE_BUSY;
    a call for a slave in that status sends the poll frame (length byte 4,
    no payload) whatever the request and never reports DATA_SEND; it
    reports SEND_NONE when the transfer returns 84 bytes, and SEND_ERROR
    with READ_ERROR when it does not; and a round of the thread whose work
    item is for such a slave sends the poll frame and leaves the item at
    the head of the queue. *)
Theorem busy_slave_is_polled :
  (forall (ioctl : list Z -> Z * list Z) (packet_send : option Packet)
          (packet_recv : Packet) (slave : REDStackSlave) (tx : list Z),
     transceive_tx packet_send slave = Some tx ->
     u8 (ioctl tx).1 = RED_STACK_SPI_PACKET_SIZE ->
     rx_accepted (rx_buffer (ioctl tx).2) = true ->
     Z.testbit (rx_info (rx_buffer (ioctl tx).2)) 0 = true ->
     status (tr_slave (red_stack_spi_transceive_message ioctl packet_send
                         packet_recv slave))
       = RED_STACK_SLAVE_STATUS_AVAILABLE_BUSY) /\
  (forall (ioctl : list Z -> Z * list Z) (packet_send : option Packet)
          (packet_recv : Packet) (slave : REDStackSlave),
     status slave = RED_STACK_SLAVE_STATUS_AVAILABLE_BUSY ->
     let r := red_stack_spi_transceive_message ioctl packet_send packet_recv slave in
     tr_tx r = Some poll_frame /\
     byte_at poll_frame RED_STACK_SPI_LENGTH = 4 /\
     data_send (tr_retval r) = false /\
     (if u8 (ioctl poll_frame).1 =? RED_STACK_SPI_PACKET_SIZE
      then result_send (tr_retval r) = RED_STACK_TRANSCEIVE_RESULT_SEND_NONE
      else result_send (tr_retval r) = RED_STACK_TRANSCEIVE_RESULT_SEND_ERROR /\
           result_read (tr_retval r) = RED_STACK_TRANSCEIVE_RESULT_READ_ERROR)) /\
  (forall (spi : nat -> nat -> list Z -> Z * list Z) (w : World)
          (item : REDStackPacket) (rest : list REDStackPacket),
     packet_to_spi_queue (red_stack w) = item :: rest ->
     status_at w (rsp_slave item) = RED_STACK_SLAVE_STATUS_AVAILABLE_BUSY ->
     let slave := slave_at (red_stack w) (rsp_slave item) in
     let w' := red_stack_spi_thread_round spi w in
     packet_to_spi_queue (red_stack w') = item :: rest /\
     exists es, trace w' = trace w ++
       [EvLog DbgOther;
        EvExchange (slave_select_pin slave) (stack_address slave)
                   RED_STACK_SLAVE_STATUS_AVAILABLE_BUSY poll_frame] ++ es).
Proof.
  split; [|split].
  - intros ioctl packet_send packet_recv slave tx Htx Hret Hacc Hbit.
    unfold red_stack_spi_transceive_message.
    unfold transceive_tx in Htx.
    destruct (transceive_fill_tx packet_send slave) as [[retval [tx0|]] log];
      [|discriminate].
    simpl in Htx. injection Htx as <-.
    destruct (ioctl (transceive_close_tx tx0)) as [ret received].
    cbn [fst snd] in Hret, Hacc, Hbit. rewrite Hret.
    change (negb (RED_STACK_SPI_PACKET_SIZE =? RED_STACK_SPI_PACKET_SIZE)) with false.
    cbv iota. cbn [tr_slave set_status status].
    by rewrite check_rx_accepted, Hbit.
  - intros ioctl packet_send packet_recv slave Hst r.
    destruct (transceive_message_busy ioctl packet_send packet_recv slave Hst)
      as (H1 & H2 & H3).
    fold r in H1, H2, H3. split; [done|]. split; [done|]. split; [done|].
    destruct (u8 (ioctl poll_frame).1 =? RED_STACK_SPI_PACKET_SIZE); [done|].
    by rewrite H3.
  - intros spi w item rest Hq Hst slave w'.
    destruct (thread_round_item spi w item rest Hq) as (H1 & _ & _ & H4).
    fold slave in H1, H4. fold w' in H1, H4.
    set (r := red_stack_spi_transceive_message _ _ _ slave) in *.
    destruct (transceive_message_busy (spi (transfers w) (stack_address slave))
                (Some (rsp_packet item))
                (replicate (Z.to_nat sizeof_Packet) 0) slave Hst) as (T1 & T2 & _).
    fold r in T1, T2. rewrite T2 in H1. split; [done|].
    rewrite T1 in H4. unfold status_at in Hst. fold slave in Hst. rewrite Hst in H4.
    eexists. rewrite H4. reflexivity.
Qed.

Lemma busy_slave_is_polled_witness :
  status (tr_slave (red_stack_spi_transceive_message
                      (fun _ => (84, spec_build enumerate_request 1))
                      None (replicate 80 0)
                      (slave0 RED_STACK_SLAVE_STATUS_AVAILABLE)))
    = RED_STACK_SLAVE_STATUS_AVAILABLE_BUSY /\
  (let r := red_stack_spi_transceive_message
              (fun _ => (84, replicate 84 0)) (Some enumerate_packet)
              (replicate 80 0) (slave0 RED_STACK_SLAVE_STATUS_AVAILABLE_BUSY) in
   tr_tx r = Some poll_frame /\ data_send (tr_retval r) = false) /\
  packet_to_spi_queue (red_stack (red_stack_spi_thread_round one_slave_device busy_world))
    = [mkREDStackPacket 0 (queued_packet (request_for 2))].
Proof.
  destruct busy_slave_is_polled as (HA & HB & HC). split; [|split].
  - apply (HA _ None _ _ poll_frame); reflexivity.
  - destruct (HB (fun _ => (84, replicate 84 0)) (Some enumerate_packet)
                (replicate 80 0) (slave0 RED_STACK_SLAVE_STATUS_AVAILABLE_BUSY))
      as (H1 & _ & H2 & _); [reflexivity|].
    split; [exact H1 | exact H2].
  - destruct (HC one_slave_device busy_world
                (mkREDStackPacket 0 (queued_packet (request_for 2))) [])
      as (H & _); [reflexivity | reflexivity | exact H].
Defined.

(** C3 as stated fails: the slave has said that it is busy, a request for
    it is pending, and the transfer of the poll fails; the call reports
    SEND_ERROR, not SEND_NONE. *)
Lemma busy_slave_transfer_fails :
  let r1 := red_stack_spi_transceive_message
              (fun _ => (84, spec_build enumerate_request 1))
              None (replicate 80 0) (slave0 RED_STACK_SLAVE_STATUS_AVAILABLE) in
  let r2 := red_stack_spi_transceive_message failing_device
              (Some enumerate_packet) (tr_packet_recv r1) (tr_slave r1) in
  rx_accepted (spec_build enumerate_request 1) = true /\
  status (tr_slave r1) = RED_STACK_SLAVE_STATUS_AVAILABLE_BUSY /\
  tr_tx r2 = Some poll_frame /\
  result_send (tr_retval r2) = RED_STACK_TRANSCEIVE_RESULT_SEND_ERROR /\
  result_send (tr_retval r2) <> RED_STACK_TRANSCEIVE_RESULT_SEND_NONE.
Proof. vm_compute. repeat split; congruence. Qed.

Section Oversized.

Variable spi : nat -> nat -> list Z -> Z * list Z.

(** An oversized item at the head of the queue stays there. *)
Lemma oversized_item_stays (w w' : World) (item : REDStackPacket)
    (rest : list REDStackPacket) :
  packet_to_spi_queue (red_stack w) = item :: rest ->
  sizeof_Packet < header_length (rsp_packet item) ->
  polls spi w w' ->
  exists rest', packet_to_spi_queue (red_stack w') = item :: rest'.
Proof.
  intros Hq Hlen. induction 1 as [|w' _ (rest' & IH)|w' request _ (rest' & IH)].
  - by exists rest.
  - destruct (thread_round_item spi w' item rest' IH) as (H1 & _).
    rewrite transceive_message_oversized in H1 by done. by exists rest'.
  - destruct (dispatch_to_spi_effect request w')
      as (_ & _ & _ & _ & (items & D & _) & _).
    rewrite D, IH. by exists (rest' ++ items).
Qed.

End Oversized.

(** C4, as amended: a queued request whose declared length exceeds 80 bytes
    is never sent, and never reported as sent: for a slave that is AVAILABLE
    the call reports SEND_ERROR, logs an error and makes no transfer.  The
    work item is not dropped: it stays at the head of the queue through all
    later rounds and dispatches, and each round for an AVAILABLE slave tries
    it again, with the same error. *)
Theorem oversized_request_is_kept :
  (forall (ioctl : list Z -> Z * list Z) (p packet_recv : Packet)
          (slave : REDStackSlave),
     sizeof_Packet < header_length p ->
     let r := red_stack_spi_transceive_message ioctl (Some p) packet_recv slave in
     data_send (tr_retval r) = false /\
     (status slave = RED_STACK_SLAVE_STATUS_AVAILABLE ->
      tr_retval r = RED_STACK_TRANSCEIVE_RESULT_SEND_ERROR /\
      tr_tx r = None /\
      tr_log r = [ErrSendLength (header_length p)] /\
      is_error (ErrSendLength (header_length p)) = true)) /\
  (forall (spi : nat -> nat -> list Z -> Z * list Z) (w w' : World)
          (item : REDStackPacket) (rest : list REDStackPacket),
     packet_to_spi_queue (red_stack w) = item :: rest ->
     sizeof_Packet < header_length (rsp_packet item) ->
     polls spi w w' ->
     (exists rest', packet_to_spi_queue (red_stack w') = item :: rest') /\
     (status_at w' (rsp_slave item) = RED_STACK_SLAVE_STATUS_AVAILABLE ->
      trace (red_stack_spi_thread_round spi w')
        = trace w' ++ [EvLog DbgOther;
                       EvLog (ErrSendLength (header_length (rsp_packet item)))])).
Proof.
  assert (HA : forall (ioctl : list Z -> Z * list Z) (p packet_recv : Packet)
                      (slave : REDStackSlave),
     sizeof_Packet < header_length p ->
     status slave = RED_STACK_SLAVE_STATUS_AVAILABLE ->
     let r := red_stack_spi_transceive_message ioctl (Some p) packet_recv slave in
     tr_retval r = RED_STACK_TRANSCEIVE_RESULT_SEND_ERROR /\
     tr_tx r = None /\ tr_log r = [ErrSendLength (header_length p)]).
  { intros ioctl p packet_recv slave Hlen Hst.
    unfold red_stack_spi_transceive_message, transceive_fill_tx. rewrite Hst.
    apply Z.ltb_lt in Hlen. rewrite Hlen. done. }
  split.
  - intros ioctl p packet_recv slave Hlen r.
    split; [by apply transceive_message_oversized|].
    intros Hst. destruct (HA ioctl p packet_recv slave Hlen Hst) as (H1 & H2 & H3).
    done.
  - intros spi w w' item rest Hq Hlen Hpolls.
    destruct (oversized_item_stays spi w w' item rest Hq Hlen Hpolls) as (rest' & Hq').
    split; [by exists rest'|]. intros Hst.
    destruct (thread_round_item spi w' item rest' Hq') as (_ & _ & _ & H4).
    destruct (HA (spi (transfers w') (stack_address (slave_at (red_stack w') (rsp_slave item))))
                (rsp_packet item) (replicate (Z.to_nat sizeof_Packet) 0)
                (slave_at (red_stack w') (rsp_slave item)) Hlen Hst) as (H1 & H2 & H3).
    rewrite H4, H1, H2, H3. done.
Qed.

Lemma oversized_world_queue :
  packet_to_spi_queue (red_stack oversized_world)
  = [mkREDStackPacket 0 (oversized_request_for 2)].
Proof. vm_compute. reflexivity. Qed.

Lemma oversized_request_is_kept_witness :
  let w' := red_stack_spi_thread_round one_slave_device
              (red_stack_spi_thread_round one_slave_device oversized_world) in
  (exists rest', packet_to_spi_queue (red_stack w')
                 = mkREDStackPacket 0 (oversized_request_for 2) :: rest') /\
  trace (red_stack_spi_thread_round one_slave_device w')
    = trace w' ++ [EvLog DbgOther; EvLog (ErrSendLength 81)].
Proof.
  destruct oversized_request_is_kept as (_ & HB).
  destruct (HB one_slave_device oversized_world
              (red_stack_spi_thread_round one_slave_device
                 (red_stack_spi_thread_round one_slave_device oversized_world))
              (mkREDStackPacket 0 (oversized_request_for 2)) []) as (H1 & H2).
  - exact oversized_world_queue.
  - vm_compute. reflexivity.
  - do 2 apply polls_round. apply polls_refl.
  - split; [exact H1|]. apply H2. vm_compute. reflexivity.
Defined.

(** C4 as stated fails: the oversized request is neither dropped nor left
    alone; it is still at the head of the queue after two rounds, and each
    of the two rounds has tried it and logged the error. *)
Lemma oversized_request_retried :
  let w2 := red_stack_spi_thread_round one_slave_device
              (red_stack_spi_thread_round one_slave_device oversized_world) in
  header_length (oversized_request_for 2) = 81 /\
  packet_to_spi_queue (red_stack oversized_world)
    = [mkREDStackPacket 0 (oversized_request_for 2)] /\
  packet_to_spi_queue (red_stack w2)
    = [mkREDStackPacket 0 (oversized_request_for 2)] /\
  drop (length (trace oversized_world)) (trace w2)
    = [EvLog DbgOther; EvLog (ErrSendLength 81);
       EvLog DbgOther; EvLog (ErrSendLength 81)].
Proof. vm_compute. repeat split. Qed.

(** ** What the checksum detects *)

Lemma lxor_byte_range (a b : Z) :
  0 <= a < 256 -> 0 <= b < 256 -> 0 <= Z.lxor a b < 256.
Proof.
  intros Ha Hb. split; [apply Z.lxor_nonneg; lia|].
  destruct (decide (Z.lxor a b = 0)) as [->|Hne]; [lia|].
  assert (H0 : 0 <= Z.lxor a b) by (apply Z.lxor_nonneg; lia).
  change 256 with (2 ^ 8). apply Z.log2_lt_pow2; [lia|].
  pose proof (Z.log2_lxor a b ltac:(lia) ltac:(lia)) as Hl.
  assert (Hla : Z.log2 a < 8).
  { destruct (decide (a = 0)) as [->|]; [done|]. apply Z.log2_lt_pow2; lia. }
  assert (Hlb : Z.log2 b < 8).
  { destruct (decide (b = 0)) as [->|]; [done|]. apply Z.log2_lt_pow2; lia. }
  lia.
Qed.

Lemma pearson_table_injective (i j : Z) :
  0 <= i < 256 -> 0 <= j < 256 ->
  byte_at _red_stack_spi_pearson_permutation i
    = byte_at _red_stack_spi_pearson_permutation j -> i = j.
Proof.
  intros Hi Hj. unfold byte_at. rewrite !nth_lookup.
  destruct (_red_stack_spi_pearson_permutation !! Z.to_nat i) as [x|] eqn:Ei; cycle 1.
  { apply lookup_ge_None in Ei. rewrite pearson_table_size in Ei.
    unfold RED_STACK_SPI_PEARSON_PERMUTATION_SIZE in Ei. lia. }
  destruct (_red_stack_spi_pearson_permutation !! Z.to_nat j) as [y|] eqn:Ej; cycle 1.
  { apply lookup_ge_None in Ej. rewrite pearson_table_size in Ej.
    unfold RED_STACK_SPI_PEARSON_PERMUTATION_SIZE in Ej. lia. }
  simpl. intros ->.
  pose proof (NoDup_lookup _ _ _ _ pearson_table_NoDup Ei Ej). lia.
Qed.

(** One step of the hash is one-to-one in the state and in the byte. *)
Lemma PEARSON_inj_cur (c1 c2 next : Z) :
  0 <= c1 < 256 -> 0 <= c2 < 256 -> 0 <= next < 256 ->
  PEARSON c1 next = PEARSON c2 next -> c1 = c2.
Proof.
  intros H1 H2 Hn H. unfold PEARSON in H.
  apply pearson_table_injective in H; try by apply lxor_byte_range.
  apply (f_equal (fun x => Z.lxor x next)) in H.
  by rewrite !Z.lxor_assoc, Z.lxor_nilpotent, !Z.lxor_0_r in H.
Qed.

Lemma PEARSON_inj_next (cur n1 n2 : Z) :
  0 <= cur < 256 -> 0 <= n1 < 256 -> 0 <= n2 < 256 ->
  PEARSON cur n1 = PEARSON cur n2 -> n1 = n2.
Proof.
  intros Hc H1 H2 H. unfold PEARSON in H.
  apply pearson_table_injective in H; try by apply lxor_byte_range.
  apply (f_equal (Z.lxor cur)) in H.
  by rewrite <- !Z.lxor_assoc, Z.lxor_nilpotent, !Z.lxor_0_l in H.
Qed.

Lemma pearson_fold_inj (l : list Z) :
  is_bytes l -> forall c1 c2, 0 <= c1 < 256 -> 0 <= c2 < 256 ->
  fold_left PEARSON l c1 = fold_left PEARSON l c2 -> c1 = c2.
Proof.
  induction 1 as [|b l Hb Hl IH]; intros c1 c2 H1 H2 H; [done|].
  simpl in H. apply IH in H; try apply PEARSON_range.
  by apply PEARSON_inj_cur in H.
Qed.

Lemma is_bytes_take (l : list Z) (n : nat) : is_bytes l -> is_bytes (take n l).
Proof. apply Forall_take. Qed.

Lemma is_bytes_drop (l : list Z) (n : nat) : is_bytes l -> is_bytes (drop n l).
Proof. apply Forall_drop. Qed.

Lemma hash_set_within (data : list Z) (length i v : Z) :
  is_bytes data ->
  0 <= i < length -> length <= Z.of_nat (List.length data) -> length < 256 ->
  0 <= v < 256 -> v <> byte_at data i ->
  red_stack_spi_calculate_pearson_hash (byte_set data i v) length
    <> red_stack_spi_calculate_pearson_hash data length.
Proof.
  intros Hb Hi Hlen H256 Hv Hne.
  unfold red_stack_spi_calculate_pearson_hash, u8, byte_set, byte_at in *.
  rewrite Z.mod_small by lia.
  set (n := Z.to_nat length). set (k := Z.to_nat i).
  assert (Hk : (k < n)%nat) by lia. assert (Hn : (n <= List.length data)%nat) by lia.
  fold k in Hne.
  destruct (data !! k) as [b|] eqn:Ek; cycle 1.
  { apply lookup_ge_None in Ek. lia. }
  rewrite nth_lookup, Ek in Hne. simpl in Hne.
  assert (Hsplit : data = take k data ++ b :: drop (S k) data).
  { by rewrite <- (take_drop_middle data k b Ek) at 1. }
  assert (Hins : <[k:=v]> data = take k data ++ v :: drop (S k) data).
  { rewrite Hsplit at 1. rewrite insert_app_r_alt by (rewrite length_take; lia).
    rewrite length_take. replace (k - k `min` List.length data)%nat with 0%nat by lia.
    done. }
  rewrite Hins. rewrite Hsplit at 3.
  rewrite !take_app_ge by (rewrite length_take; lia).
  rewrite length_take.
  replace (n - k `min` List.length data)%nat with (S (n - S k)) by lia.
  simpl. rewrite !fold_left_app. simpl.
  set (c := fold_left PEARSON (take k data) 0).
  assert (Hc : 0 <= c < 256) by (apply pearson_fold_range; lia).
  assert (Hbb : 0 <= b < 256).
  { eapply (Forall_lookup_1 _ _ _ _ Hb Ek). }
  intros H. apply pearson_fold_inj in H; try apply PEARSON_range.
  - apply PEARSON_inj_next in H; try done. 
  - apply is_bytes_take, is_bytes_drop, Hb.
Qed.

Lemma byte_at_set_ne (a : list Z) (i j v : Z) :
  0 <= i -> 0 <= j -> i <> j -> byte_at (byte_set a i v) j = byte_at a j.
Proof.
  intros Hi Hj Hne. unfold byte_at, byte_set.
  rewrite !nth_lookup, list_lookup_insert_ne by lia. done.
Qed.

Lemma byte_at_set_eq (a : list Z) (i v : Z) :
  0 <= i < Z.of_nat (length a) -> byte_at (byte_set a i v) i = v.
Proof.
  intros Hi. unfold byte_at, byte_set.
  rewrite nth_lookup, list_lookup_insert_eq by lia. done.
Qed.

Lemma hash_set_beyond (a : list Z) (i v n : Z) :
  0 <= n <= i -> n < 256 ->
  red_stack_spi_calculate_pearson_hash (byte_set a i v) n
    = red_stack_spi_calculate_pearson_hash a n.
Proof.
  intros Hn H256. unfold red_stack_spi_calculate_pearson_hash, byte_set, u8.
  rewrite Z.mod_small by lia. rewrite take_insert.
  case_decide; [lia|done].
Qed.

Lemma rx_accepted_inv (rx : list Z) :
  rx_accepted rx = true ->
  byte_at rx RED_STACK_SPI_PREAMBLE = RED_STACK_SPI_PREAMBLE_VALUE /\
  12 <= byte_at rx RED_STACK_SPI_LENGTH <= 84 /\
  red_stack_spi_calculate_pearson_hash rx (byte_at rx RED_STACK_SPI_LENGTH - 1)
    = byte_at rx (byte_at rx RED_STACK_SPI_LENGTH - 1).
Proof.
  unfold rx_accepted. intros H.
  apply andb_true_iff in H. destruct H as [H H3].
  apply andb_true_iff in H. destruct H as [H1 H2].
  apply negb_true_iff, orb_false_iff in H2. destruct H2 as [H2 H2'].
  apply Z.eqb_eq in H1, H3. apply Z.ltb_ge in H2, H2'.
  unfold RED_STACK_SPI_PACKET_EMPTY_SIZE, sizeof_PacketHeader,
    RED_STACK_SPI_PACKET_SIZE, RED_STACK_SPI_CHECKSUM in *.
  split; [done|]. split; [lia|done].
Qed.

(** X1: the hash is a byte, and the hash over [length] bytes tells apart two
    buffers that differ in exactly one of these bytes. *)
Theorem pearson_detects_single_byte (data : list Z) (length i v : Z) :
  is_bytes data ->
  0 <= i < length -> length <= Z.of_nat (List.length data) -> length < 256 ->
  0 <= v < 256 -> v <> byte_at data i ->
  0 <= red_stack_spi_calculate_pearson_hash data length < 256 /\
  red_stack_spi_calculate_pearson_hash (byte_set data i v) length
    <> red_stack_spi_calculate_pearson_hash data length.
Proof.
  intros Hb Hi Hlen H256 Hv Hne. split; [|by apply hash_set_within].
  unfold red_stack_spi_calculate_pearson_hash. apply pearson_fold_range. lia.
Qed.

Lemma pearson_detects_single_byte_witness :
  0 <= red_stack_spi_calculate_pearson_hash [0xAA; 4; 0] 3 < 256 /\
  red_stack_spi_calculate_pearson_hash (byte_set [0xAA; 4; 0] 2 1) 3
    <> red_stack_spi_calculate_pearson_hash [0xAA; 4; 0] 3.
Proof.
  apply (pearson_detects_single_byte [0xAA; 4; 0] 3 2 1).
  - repeat constructor; lia.
  - lia.
  - simpl. lia.
  - lia.
  - lia.
  - vm_compute. discriminate.
Defined.

(** X2: a frame that passes the checks of the receiver no longer does once one
    byte of its payload, its info byte or its checksum has changed: it is
    refused for its checksum, and neither the receive packet nor the status
    of the slave is touched. *)
Theorem corrupted_frame_refused (retval : Z) (rx : list Z) (packet_recv : Packet)
    (st : REDStackSlaveStatus) (i v : Z) :
  is_bytes rx -> length rx = Z.to_nat RED_STACK_SPI_PACKET_SIZE ->
  rx_accepted rx = true ->
  2 <= i < byte_at rx RED_STACK_SPI_LENGTH ->
  0 <= v < 256 -> v <> byte_at rx i ->
  let r := transceive_check_rx retval (byte_set rx i v) packet_recv st in
  rx_retval r = Z.lor retval RED_STACK_TRANSCEIVE_RESULT_READ_ERROR /\
  rx_packet_recv r = packet_recv /\
  rx_status r = st /\
  exists computed received, computed <> received /\
    rx_log r = [ErrChecksum computed received].
Proof.
  intros Hb Hlen Hacc Hi Hv Hne.
  destruct (rx_accepted_inv rx Hacc) as (Hp & HL & Hc).
  set (L := byte_at rx RED_STACK_SPI_LENGTH) in *.
  unfold RED_STACK_SPI_PACKET_SIZE in Hlen.
  assert (Hp' : byte_at (byte_set rx i v) RED_STACK_SPI_PREAMBLE
                = RED_STACK_SPI_PREAMBLE_VALUE).
  { rewrite byte_at_set_ne; unfold RED_STACK_SPI_PREAMBLE; try lia. done. }
  assert (HL' : byte_at (byte_set rx i v) RED_STACK_SPI_LENGTH = L).
  { rewrite byte_at_set_ne; unfold RED_STACK_SPI_LENGTH; try lia. done. }
  assert (Hbad : red_stack_spi_calculate_pearson_hash (byte_set rx i v) (L - 1)
                 <> byte_at (byte_set rx i v) (L - 1)).
  { destruct (decide (i = L - 1)) as [->|Hlt].
    - rewrite hash_set_beyond, byte_at_set_eq by lia. rewrite Hc. done.
    - rewrite byte_at_set_ne by lia. rewrite <- Hc.
      apply hash_set_within; try done; lia. }
  intros r. subst r. unfold transceive_check_rx.
  rewrite Hp', HL'. rewrite Z.eqb_refl. simpl negb. cbv iota.
  unfold RED_STACK_SPI_PACKET_EMPTY_SIZE, sizeof_PacketHeader,
    RED_STACK_SPI_PACKET_SIZE, RED_STACK_SPI_CHECKSUM.
  destruct (L <? 4 + 8) eqn:E1; [apply Z.ltb_lt in E1; lia|].
  destruct (84 <? L) eqn:E2; [apply Z.ltb_lt in E2; lia|].
  simpl orb. cbv iota.
  apply Z.eqb_neq in Hbad. rewrite Hbad. simpl.
  repeat split; try done. apply Z.eqb_neq in Hbad. eauto.
Qed.

Lemma corrupted_frame_refused_witness :
  let r := transceive_check_rx 0 (byte_set (spec_build enumerate_request 0) 5 1)
             (replicate 80 0) RED_STACK_SLAVE_STATUS_AVAILABLE in
  rx_retval r = Z.lor 0 RED_STACK_TRANSCEIVE_RESULT_READ_ERROR /\
  rx_packet_recv r = replicate 80 0 /\
  rx_status r = RED_STACK_SLAVE_STATUS_AVAILABLE /\
  exists computed received, computed <> received /\
    rx_log r = [ErrChecksum computed received].
Proof.
  apply (corrupted_frame_refused 0 (spec_build enumerate_request 0) (replicate 80 0)
           RED_STACK_SLAVE_STATUS_AVAILABLE 5 1).
  - apply (bool_decide_unpack _). vm_compute. exact I.
  - reflexivity.
  - reflexivity.
  - vm_compute. split; [discriminate | reflexivity].
  - lia.
  - vm_compute. discriminate.
Defined.


(** ** The return value and the effects of a call, in full *)

(** The checks of the receiver, by whether the frame is accepted. *)
Lemma check_rx_by_accepted (retval : Z) (rx : list Z) (packet_recv : Packet)
    (st : REDStackSlaveStatus) :
  let r := transceive_check_rx retval rx packet_recv st in
  if rx_accepted rx then
    rx_retval r = Z.lor retval (Z.lor RED_STACK_TRANSCEIVE_RESULT_READ_OK
                                      RED_STACK_TRANSCEIVE_DATA_RECEIVED) /\
    rx_status r = (if Z.testbit (rx_info rx) 0
                   then RED_STACK_SLAVE_STATUS_AVAILABLE_BUSY
                   else RED_STACK_SLAVE_STATUS_AVAILABLE) /\
    rx_packet_recv r = memcpy packet_recv 0 (drop 2 rx)
                         (Z.to_nat (byte_at rx RED_STACK_SPI_LENGTH
                                    - RED_STACK_SPI_PACKET_EMPTY_SIZE))
  else
    (rx_retval r = Z.lor retval RED_STACK_TRANSCEIVE_RESULT_READ_NONE \/
     rx_retval r = Z.lor retval RED_STACK_TRANSCEIVE_RESULT_READ_ERROR) /\
    rx_status r = st /\ rx_packet_recv r = packet_recv.
Proof.
  destruct (rx_accepted rx) eqn:Hacc.
  - pose proof (check_rx_accepted retval rx packet_recv st Hacc) as Hst.
    destruct (rx_accepted_inv rx Hacc) as (Hp & HL & Hc).
    cbv zeta. split; [|split; [exact Hst|]];
    unfold transceive_check_rx; rewrite Hp, Z.eqb_refl; simpl negb; cbv iota;
    unfold RED_STACK_SPI_PACKET_EMPTY_SIZE, sizeof_PacketHeader,
      RED_STACK_SPI_PACKET_SIZE, RED_STACK_SPI_CHECKSUM;
    (destruct (_ <? 4 + 8) eqn:E1; [apply Z.ltb_lt in E1; lia|]);
    (destruct (84 <? _) eqn:E2; [apply Z.ltb_lt in E2; lia|]);
    simpl orb; cbv iota; rewrite Hc, Z.eqb_refl; simpl negb; cbv iota;
    (destruct (_ =? 4) eqn:E3; [apply Z.eqb_eq in E3; lia|]); done.
  - cbv zeta. unfold rx_accepted in Hacc. unfold transceive_check_rx.
    destruct (byte_at rx RED_STACK_SPI_PREAMBLE =? RED_STACK_SPI_PREAMBLE_VALUE);
      simpl negb; cbv iota.
    2: { destruct (byte_at rx RED_STACK_SPI_PREAMBLE =? 0); simpl; auto. }
    simpl andb in Hacc.
    destruct (_ || _) eqn:E; simpl negb in Hacc; cbv iota; [simpl; auto|].
    simpl andb in Hacc. unfold RED_STACK_SPI_CHECKSUM in *. rewrite Hacc.
    simpl. auto.
Qed.

Lemma fill_tx_retval (packet_send : option Packet) (slave : REDStackSlave) :
  match transceive_fill_tx packet_send slave with
  | (retval, None, _) => retval = RED_STACK_TRANSCEIVE_RESULT_SEND_ERROR
  | (retval, Some _, _) =>
      retval = RED_STACK_TRANSCEIVE_RESULT_SEND_NONE \/
      retval = Z.lor RED_STACK_TRANSCEIVE_DATA_SEND
                     RED_STACK_TRANSCEIVE_RESULT_SEND_OK
  end.
Proof.
  unfold transceive_fill_tx.
  destruct packet_send, (status slave);
    repeat match goal with |- context [if ?b then _ else _] => destruct b end;
    auto.
Qed.

(** The values [red_stack_spi_transceive_message] returns. *)
Lemma transceive_message_retval (ioctl : list Z -> Z * list Z)
    (packet_send : option Packet) (packet_recv : Packet) (slave : REDStackSlave) :
  let r := red_stack_spi_transceive_message ioctl packet_send packet_recv slave in
  (tr_tx r = None /\ tr_retval r = 1) \/
  (tr_tx r <> None /\
   (tr_retval r = 9 \/
    exists s c, (s = 3 \/ s = 260) /\ (c = 8 \/ c = 16 \/ c = 152) /\
                tr_retval r = Z.lor s c)).
Proof.
  unfold red_stack_spi_transceive_message.
  pose proof (fill_tx_retval packet_send slave) as Hfill.
  destruct (transceive_fill_tx packet_send slave) as [[retval [tx|]] log];
    [|left; by rewrite Hfill].
  right. destruct (ioctl (transceive_close_tx tx)) as [ret received].
  destruct (negb (u8 ret =? RED_STACK_SPI_PACKET_SIZE)); [split; [done|by left]|].
  split; [done|]. right. cbn [tr_retval].
  destruct (check_rx_retval retval (rx_buffer received)
              (set_header_length packet_recv 0) (status slave)) as (c & -> & Hc).
  exists retval, c. split; [exact Hfill|]. split; [|done].
  destruct Hc as [-> | [-> | ->]]; auto.
Qed.

(** X3: in every return value the flag DATA_SEND is set exactly if the SEND
    result is SEND_OK and the flag DATA_RECEIVED exactly if the READ result
    is READ_OK; the SEND result is one of ERROR, NONE and OK, never
    SEND_BUSY; and the READ result is missing exactly if no transfer was
    made. *)
Theorem transceive_retval_consistent (ioctl : list Z -> Z * list Z)
    (packet_send : option Packet) (packet_recv : Packet) (slave : REDStackSlave) :
  let r := red_stack_spi_transceive_message ioctl packet_send packet_recv slave in
  let v := tr_retval r in
  (data_send v = true <-> result_send v = RED_STACK_TRANSCEIVE_RESULT_SEND_OK) /\
  (data_received v = true <-> result_read v = RED_STACK_TRANSCEIVE_RESULT_READ_OK) /\
  (result_send v = RED_STACK_TRANSCEIVE_RESULT_SEND_ERROR \/
   result_send v = RED_STACK_TRANSCEIVE_RESULT_SEND_NONE \/
   result_send v = RED_STACK_TRANSCEIVE_RESULT_SEND_OK) /\
  result_send v <> RED_STACK_TRANSCEIVE_RESULT_SEND_BUSY /\
  (tr_tx r = None <-> result_read v = 0) /\
  (tr_tx r <> None ->
   result_read v = RED_STACK_TRANSCEIVE_RESULT_READ_ERROR \/
   result_read v = RED_STACK_TRANSCEIVE_RESULT_READ_NONE \/
   result_read v = RED_STACK_TRANSCEIVE_RESULT_READ_OK).
Proof.
  cbv zeta.
  destruct (transceive_message_retval ioctl packet_send packet_recv slave)
    as [[Htx ->] | [Htx [-> | (s & c & Hs & Hc & ->)]]].
  - rewrite Htx. vm_compute. intuition congruence.
  - destruct (tr_tx _); [|done]. vm_compute. intuition congruence.
  - destruct (tr_tx _); [|done].
    destruct Hs as [-> | ->], Hc as [-> | [-> | ->]];
      vm_compute; intuition congruence.
Qed.

Lemma fill_tx_sendable (p : Packet) (slave : REDStackSlave) :
  status slave = RED_STACK_SLAVE_STATUS_AVAILABLE ->
  header_length p <= sizeof_Packet ->
  exists tx0, transceive_fill_tx (Some p) slave
    = (Z.lor RED_STACK_TRANSCEIVE_DATA_SEND RED_STACK_TRANSCEIVE_RESULT_SEND_OK,
       Some tx0, []).
Proof.
  intros Hst Hle. unfold transceive_fill_tx. rewrite Hst.
  destruct (sizeof_Packet <? header_length p) eqn:E; [apply Z.ltb_lt in E; lia|].
  eauto.
Qed.

(** X4: DATA_SEND is reported exactly if there is a request of a declared
    length within the budget, the slave is AVAILABLE and the transfer of the
    frame returns 84 bytes, whatever the slave answers. *)
Theorem data_send_iff (ioctl : list Z -> Z * list Z)
    (packet_send : option Packet) (packet_recv : Packet) (slave : REDStackSlave) :
  data_send (tr_retval (red_stack_spi_transceive_message ioctl packet_send
                          packet_recv slave)) = true
  <-> exists p tx,
        packet_send = Some p /\
        status slave = RED_STACK_SLAVE_STATUS_AVAILABLE /\
        header_length p <= sizeof_Packet /\
        transceive_tx packet_send slave = Some tx /\
        u8 (ioctl tx).1 = RED_STACK_SPI_PACKET_SIZE.
Proof.
  pose proof (transceive_message_send_fields ioctl packet_send packet_recv slave) as H.
  cbv zeta in H. split.
  - intros Hd. destruct (transceive_message_data_send _ _ _ _ Hd) as (p & -> & Hst & Hle).
    destruct (fill_tx_sendable p slave Hst Hle) as (tx0 & Hfill).
    rewrite Hfill in H. exists p, (transceive_close_tx tx0).
    split; [done|]. split; [done|]. split; [done|].
    split; [unfold transceive_tx; by rewrite Hfill|].
    destruct (u8 (ioctl (transceive_close_tx tx0)).1 =? RED_STACK_SPI_PACKET_SIZE) eqn:E.
    + by apply Z.eqb_eq in E.
    + rewrite H in Hd. discriminate Hd.
  - intros (p & tx & -> & Hst & Hle & Htx & Hret).
    destruct (fill_tx_sendable p slave Hst Hle) as (tx0 & Hfill).
    rewrite Hfill in H. unfold transceive_tx in Htx. rewrite Hfill in Htx.
    simpl in Htx. injection Htx as <-.
    rewrite Hret, Z.eqb_refl in H. destruct H as [-> _]. done.
Qed.

(** The receive side of a call. *)
Lemma transceive_message_receive (ioctl : list Z -> Z * list Z)
    (packet_send : option Packet) (packet_recv : Packet) (slave : REDStackSlave) :
  let r := red_stack_spi_transceive_message ioctl packet_send packet_recv slave in
  match transceive_tx packet_send slave with
  | None => tr_slave r = slave /\ data_received (tr_retval r) = false
  | Some tx =>
      let rx := rx_buffer (ioctl tx).2 in
      if (u8 (ioctl tx).1 =? RED_STACK_SPI_PACKET_SIZE) && rx_accepted rx then
        data_received (tr_retval r) = true /\
        result_read (tr_retval r) = RED_STACK_TRANSCEIVE_RESULT_READ_OK /\
        tr_slave r = set_status slave
                       (if Z.testbit (rx_info rx) 0
                        then RED_STACK_SLAVE_STATUS_AVAILABLE_BUSY
                        else RED_STACK_SLAVE_STATUS_AVAILABLE)
      else
        tr_slave r = slave /\ data_received (tr_retval r) = false
  end.
Proof.
  cbv zeta. unfold red_stack_spi_transceive_message, transceive_tx.
  pose proof (fill_tx_no_data_received packet_send slave) as Hfill.
  destruct (transceive_fill_tx packet_send slave) as [[retval [tx0|]] log];
    cbn [fst snd] in *; cycle 1.
  { simpl. done. }
  cbn [fmap option_fmap option_map].
  destruct (ioctl (transceive_close_tx tx0)) as [ret received]. cbn [fst snd].
  destruct (u8 ret =? RED_STACK_SPI_PACKET_SIZE); simpl negb; cbv iota; simpl andb.
  2: { simpl. done. }
  pose proof (check_rx_by_accepted retval (rx_buffer received)
                (set_header_length packet_recv 0) (status slave)) as Hrx.
  cbv zeta in Hrx. cbn [tr_slave tr_retval].
  destruct (rx_accepted (rx_buffer received)).
  - destruct Hrx as (-> & -> & _).
    split; [apply data_received_ok|]. split; [apply result_read_ok|done].
  - destruct Hrx as (Hv & -> & _). rewrite set_status_same. split; [done|].
    revert Hfill. unfold data_received.
    destruct Hv as [-> | ->]; rewrite Z.land_lor_distr_l; simpl;
      by rewrite Z.lor_0_r.
Qed.

(** X5: the receive side of a call.  If no transfer is made, or the
    transfer does not return 84 bytes, or the frame received does not pass
    the checks, the slave is left as it is and DATA_RECEIVED is not set;
    otherwise DATA_RECEIVED and READ_OK are reported, and the status of the
    slave is AVAILABLE_BUSY or AVAILABLE by bit 0 of the info byte. *)
Theorem receive_side (ioctl : list Z -> Z * list Z)
    (packet_send : option Packet) (packet_recv : Packet) (slave : REDStackSlave) :
  let r := red_stack_spi_transceive_message ioctl packet_send packet_recv slave in
  match transceive_tx packet_send slave with
  | None => tr_slave r = slave /\ data_received (tr_retval r) = false
  | Some tx =>
      let rx := rx_buffer (ioctl tx).2 in
      if (u8 (ioctl tx).1 =? RED_STACK_SPI_PACKET_SIZE) && rx_accepted rx then
        data_received (tr_retval r) = true /\
        result_read (tr_retval r) = RED_STACK_TRANSCEIVE_RESULT_READ_OK /\
        tr_slave r = set_status slave
                       (if Z.testbit (rx_info rx) 0
                        then RED_STACK_SLAVE_STATUS_AVAILABLE_BUSY
                        else RED_STACK_SLAVE_STATUS_AVAILABLE)
      else
        tr_slave r = slave /\ data_received (tr_retval r) = false
  end.
Proof. apply transceive_message_receive. Qed.

(** ** The queue and the slave table while the thread polls *)

Lemma slave_at_insert_any (s : REDStack) (i j : nat) (x : REDStackSlave) :
  slave_at (with_slaves s (<[i := x]> (slaves s))) j
    = if decide (i = j /\ (i < length (slaves s))%nat) then x else slave_at s j.
Proof.
  destruct (decide (i < length (slaves s))%nat) as [Hi|Hi].
  - rewrite slave_at_insert by done.
    destruct (decide (i = j)); case_decide; try done; tauto.
  - unfold slave_at. simpl. rewrite list_insert_ge by lia.
    case_decide; [tauto|done].
Qed.

Lemma for_find_ext (p q : nat -> bool) (n : nat) :
  forall i, (forall j, (i <= j < i + n)%nat -> p j = q j) ->
  for_find p i n = for_find q i n.
Proof.
  induction n as [|n IH]; intros i H; [done|].
  simpl. rewrite (H i) by lia. destruct (q i); [done|].
  apply IH. intros j Hj. apply H. lia.
Qed.

(** The lookup by UID only reads [slave_num] and the UIDs of the slaves. *)
Lemma get_slave_for_uid_ext (s s' : REDStack) (uid : Z) :
  slave_num s' = slave_num s ->
  (forall i, uids (slave_at s' i) = uids (slave_at s i) /\
             uids_num (slave_at s' i) = uids_num (slave_at s i)) ->
  red_stack_spi_get_slave_for_uid s' uid = red_stack_spi_get_slave_for_uid s uid.
Proof.
  intros Hn H. unfold red_stack_spi_get_slave_for_uid. rewrite Hn.
  apply for_find_ext. intros i _. destruct (H i) as [-> ->]. done.
Qed.


Section Queue.

Variable spi : nat -> nat -> list Z -> Z * list Z.

(** A round of the thread with an empty queue. *)
Lemma thread_round_idle (w : World) :
  packet_to_spi_queue (red_stack w) = [] ->
  let slave := slave_at (red_stack w) (stack_address_cycle w) in
  let r := red_stack_spi_transceive_message
             (spi (transfers w) (stack_address slave))
             None (replicate (Z.to_nat sizeof_Packet) 0) slave in
  let w' := red_stack_spi_thread_round spi w in
  packet_to_spi_queue (red_stack w') = [] /\
  slaves (red_stack w')
    = <[stack_address_cycle w := tr_slave r]> (slaves (red_stack w)) /\
  slave_num (red_stack w') = slave_num (red_stack w) /\
  stack_address_cycle w'
    = (if (slave_num (red_stack w) <=? S (stack_address_cycle w))%nat
       then 0%nat else S (stack_address_cycle w)) /\
  thread_running w' = thread_running w /\
  trace w' = trace w
    ++ [EvExchange (slave_select_pin slave) (stack_address slave)
                   (status slave) poll_frame]
    ++ (EvLog <$> tr_log r)
    ++ (if data_received (tr_retval r)
        then [EvDispatchResponse (tr_packet_recv r)] else []).
Proof.
  intros Hq slave r w'. subst w'.
  assert (Htx : tr_tx r = Some poll_frame).
  { subst r. rewrite transceive_message_tx.
    by destruct (transceive_tx_poll None slave (or_introl eq_refl)). }
  assert (Hds : data_send (tr_retval r) = false).
  { destruct (data_send (tr_retval r)) eqn:E; [|done].
    apply transceive_message_data_send in E. by destruct E as (p & ? & _). }
  unfold red_stack_spi_thread_round, transceive. cbv zeta.
  cbn [packet_to_spi_queue slave_num packet_from_spi]. rewrite Hq.
  cbv beta iota. cbn [red_stack transfers trace slaves thread_running stack_address_cycle].
  change (slave_at _ (stack_address_cycle w)) with slave. fold r.
  rewrite Htx, Hds.
  destruct (data_received (tr_retval r));
    cbn; rewrite <- ?app_assoc; cbn; rewrite ?app_nil_r; done.
Qed.

(** What a round does to the queue and to the slave table. *)
Lemma thread_round_effect (w : World) :
  let w' := red_stack_spi_thread_round spi w in
  (packet_to_spi_queue (red_stack w') = packet_to_spi_queue (red_stack w) \/
   packet_to_spi_queue (red_stack w') = tail (packet_to_spi_queue (red_stack w))) /\
  slave_num (red_stack w') = slave_num (red_stack w) /\
  length (slaves (red_stack w')) = length (slaves (red_stack w)) /\
  forall i, exists st,
    slave_at (red_stack w') i = set_status (slave_at (red_stack w) i) st /\
    (st = status_at w i \/ st = RED_STACK_SLAVE_STATUS_AVAILABLE \/
     st = RED_STACK_SLAVE_STATUS_AVAILABLE_BUSY).
Proof.
  intros w'.
  assert (Hslaves : forall j (x : REDStackSlave) l,
            slaves (red_stack w') = <[j := x]> (slaves (red_stack w)) ->
            (exists st, x = set_status (slave_at (red_stack w) j) st /\
               (st = status_at w j \/ st = RED_STACK_SLAVE_STATUS_AVAILABLE \/
                st = RED_STACK_SLAVE_STATUS_AVAILABLE_BUSY)) ->
            l = slaves (red_stack w) ->
            length (slaves (red_stack w')) = length l /\
            forall i, exists st,
              slave_at (red_stack w') i = set_status (slave_at (red_stack w) i) st /\
              (st = status_at w i \/ st = RED_STACK_SLAVE_STATUS_AVAILABLE \/
               st = RED_STACK_SLAVE_STATUS_AVAILABLE_BUSY)).
  { intros j x l Hs (st & -> & Hst) ->. split; [by rewrite Hs, length_insert|].
    intros i. unfold slave_at at 1. rewrite Hs.
    pose proof (slave_at_insert_any (red_stack w) j i
                  (set_status (slave_at (red_stack w) j) st)) as Hat.
    unfold slave_at at 1 in Hat. simpl in Hat. rewrite Hat.
    case_decide as Hd.
    - destruct Hd as [-> _]. by exists st.
    - exists (status_at w i). unfold status_at. rewrite set_status_same. auto. }
  destruct (packet_to_spi_queue (red_stack w)) as [|item rest] eqn:Hq.
  - destruct (thread_round_idle w Hq) as (H1 & H2 & H3 & _).
    fold w' in H1, H2, H3. split; [by left; rewrite H1|]. split; [done|].
    eapply Hslaves; [exact H2| |done]. apply transceive_message_slave.
  - destruct (thread_round_item spi w item rest Hq) as (H1 & H2 & H3 & _).
    fold w' in H1, H2, H3. split.
    { rewrite H1. destruct (data_send _); auto. }
    split; [done|].
    eapply Hslaves; [exact H2| |done]. apply transceive_message_slave.
Qed.


(** X7: the slave table is frozen while the thread polls.  Rounds and
    dispatches change nothing of the table but the status of slaves:
    [slave_num], the addresses, the select pins and the UIDs stay, so the
    lookup of a UID gives the same slave; and a slave that is present is
    never set to ABSENT. *)
Theorem table_frozen_while_polling (w w' : World) :
  polls spi w w' ->
  slave_num (red_stack w') = slave_num (red_stack w) /\
  length (slaves (red_stack w')) = length (slaves (red_stack w)) /\
  (forall i, slave_at (red_stack w') i
             = set_status (slave_at (red_stack w) i) (status_at w' i)) /\
  (forall i, status_at w i <> RED_STACK_SLAVE_STATUS_ABSENT ->
             status_at w' i <> RED_STACK_SLAVE_STATUS_ABSENT) /\
  (forall uid, red_stack_spi_get_slave_for_uid (red_stack w') uid
               = red_stack_spi_get_slave_for_uid (red_stack w) uid).
Proof.
  intros Hp.
  assert (H : slave_num (red_stack w') = slave_num (red_stack w) /\
              length (slaves (red_stack w')) = length (slaves (red_stack w)) /\
              (forall i, slave_at (red_stack w') i
                 = set_status (slave_at (red_stack w) i) (status_at w' i)) /\
              (forall i, status_at w i <> RED_STACK_SLAVE_STATUS_ABSENT ->
                 status_at w' i <> RED_STACK_SLAVE_STATUS_ABSENT)).
  { induction Hp as [|w' _ (I1 & I2 & I3 & I4)|w' request _ (I1 & I2 & I3 & I4)].
    - split; [done|]. split; [done|]. split; [|done].
      intros i. unfold status_at. by rewrite set_status_same.
    - destruct (thread_round_effect w') as (_ & R1 & R2 & R3).
      split; [congruence|]. split; [congruence|]. split.
      + intros i. destruct (R3 i) as (st & Hat & _).
        unfold status_at. rewrite Hat, I3. done.
      + intros i Hi. destruct (R3 i) as (st & Hat & Hst).
        unfold status_at at 1. rewrite Hat. simpl.
        specialize (I4 i Hi). destruct Hst as [-> | [-> | ->]]; done.
    - destruct (dispatch_to_spi_effect request w') as (D1 & D2 & _).
      unfold status_at, slave_at in *. rewrite D1, D2. done. }
  destruct H as (H1 & H2 & H3 & H4).
  split; [done|]. split; [done|]. split; [done|]. split; [done|].
  intros uid. apply get_slave_for_uid_ext; [done|].
  intros i. by rewrite H3.
Qed.

(** X8: with an empty queue the thread polls the present slaves in turn.
    The k-th round from a world with an empty queue leaves the queue empty,
    sends the poll frame to the slave under the cursor, which is slave
    [(cursor + k) mod slave_num], and moves the cursor on by one, back to 0
    after the last present slave. *)
Theorem idle_rounds_round_robin (w : World) (k : nat) :
  packet_to_spi_queue (red_stack w) = [] ->
  (stack_address_cycle w < slave_num (red_stack w))%nat ->
  let n := slave_num (red_stack w) in
  let wk := Nat.iter k (red_stack_spi_thread_round spi) w in
  let target := ((stack_address_cycle w + k) mod n)%nat in
  let slave := slave_at (red_stack wk) target in
  packet_to_spi_queue (red_stack wk) = [] /\
  slave_num (red_stack wk) = n /\
  stack_address_cycle wk = target /\
  stack_address_cycle (red_stack_spi_thread_round spi wk)
    = ((stack_address_cycle w + S k) mod n)%nat /\
  exists es, trace (red_stack_spi_thread_round spi wk)
    = trace wk ++ EvExchange (slave_select_pin slave) (stack_address slave)
                             (status slave) poll_frame :: es.
Proof.
  intros Hq Hc n wk target slave.
  assert (Hstep : forall w1,
            packet_to_spi_queue (red_stack w1) = [] ->
            slave_num (red_stack w1) = n ->
            (stack_address_cycle w1 < n)%nat ->
            let w2 := red_stack_spi_thread_round spi w1 in
            packet_to_spi_queue (red_stack w2) = [] /\
            slave_num (red_stack w2) = n /\
            stack_address_cycle w2 = (S (stack_address_cycle w1) mod n)%nat /\
            exists es, trace w2
              = trace w1 ++ EvExchange
                   (slave_select_pin (slave_at (red_stack w1) (stack_address_cycle w1)))
                   (stack_address (slave_at (red_stack w1) (stack_address_cycle w1)))
                   (status (slave_at (red_stack w1) (stack_address_cycle w1)))
                   poll_frame :: es).
  { intros w1 Hq1 Hn1 Hc1 w2.
    destruct (thread_round_idle w1 Hq1) as (R1 & _ & R3 & R4 & _ & R6).
    fold w2 in R1, R3, R4, R6. rewrite Hn1 in R3, R4.
    split; [done|]. split; [done|]. split; [|by eexists; rewrite R6].
    rewrite R4. destruct (Nat.leb_spec n (S (stack_address_cycle w1))) as [Hle|Hlt].
    - assert (S (stack_address_cycle w1) = n) as -> by lia.
      by rewrite Nat.Div0.mod_same.
    - by rewrite Nat.mod_small. }
  assert (Hk : packet_to_spi_queue (red_stack wk) = [] /\
               slave_num (red_stack wk) = n /\
               stack_address_cycle wk = target).
  { subst wk target. induction k as [|k (I1 & I2 & I3)].
    - simpl. rewrite Nat.add_0_r, Nat.mod_small by done. done.
    - simpl. destruct (Hstep _ I1 I2) as (S1 & S2 & S3 & _).
      { rewrite I3. apply Nat.mod_upper_bound. unfold n. lia. }
      split; [done|]. split; [done|]. rewrite S3, I3.
      replace (stack_address_cycle w + S k)%nat
        with (S (stack_address_cycle w + k)) by lia.
      rewrite <- Nat.add_1_l, <- (Nat.add_1_l (stack_address_cycle w + k)).
      by rewrite Nat.Div0.add_mod_idemp_r. }
  destruct Hk as (K1 & K2 & K3).
  destruct (Hstep wk K1 K2) as (S1 & S2 & S3 & es & S4).
  { rewrite K3. apply Nat.mod_upper_bound. unfold n. lia. }
  split; [done|]. split; [done|]. split; [done|]. split.
  - rewrite S3, K3. unfold target.
    replace (stack_address_cycle w + S k)%nat
      with (S (stack_address_cycle w + k)) by lia.
    rewrite <- Nat.add_1_l, <- (Nat.add_1_l (stack_address_cycle w + k)).
    by rewrite Nat.Div0.add_mod_idemp_r.
  - exists es. rewrite S4, K3. done.
Qed.

End Queue.


Lemma table_frozen_while_polling_witness :
  slave_num (red_stack polled_world) = slave_num (red_stack one_slave_world) /\
  length (slaves (red_stack polled_world))
    = length (slaves (red_stack one_slave_world)) /\
  (forall i, slave_at (red_stack polled_world) i
             = set_status (slave_at (red_stack one_slave_world) i)
                          (status_at polled_world i)) /\
  (forall i, status_at one_slave_world i <> RED_STACK_SLAVE_STATUS_ABSENT ->
             status_at polled_world i <> RED_STACK_SLAVE_STATUS_ABSENT) /\
  (forall uid, red_stack_spi_get_slave_for_uid (red_stack polled_world) uid
               = red_stack_spi_get_slave_for_uid (red_stack one_slave_world) uid).
Proof.
  apply (table_frozen_while_polling one_slave_device one_slave_world polled_world).
  apply polls_round, polls_dispatch, polls_refl.
Defined.

Lemma idle_rounds_round_robin_witness :
  let wk := Nat.iter 4 (red_stack_spi_thread_round one_slave_device)
                     three_slaves_world in
  packet_to_spi_queue (red_stack wk) = [] /\
  stack_address_cycle wk = 2%nat /\
  stack_address_cycle (red_stack_spi_thread_round one_slave_device wk) = 0%nat.
Proof.
  destruct (idle_rounds_round_robin one_slave_device three_slaves_world 4)
    as (H1 & _ & H3 & H4 & _); [reflexivity | simpl; lia |].
  split; [exact H1|]. split; [exact H3 | exact H4].
Defined.
(** ** The discovery and the device *)

Lemma with_slaves_same (s : REDStack) : with_slaves s (slaves s) = s.
Proof. by destruct s. Qed.

Section Tries.

Variable spi : nat -> nat -> list Z -> Z * list Z.
Variable packet_send : option Packet.
Variable flag : Z -> bool.
Variable i : nat.

(** What holds of the world at each try, and whether the try with a given
    transfer number succeeds. *)
Variable ready : World -> Prop.
Variable ok : nat -> bool.

Hypothesis ready_events :
  forall w es, ready w -> ready (with_events w es).
Hypothesis try_spec :
  forall packet w ret packet' w',
    ready w -> transceive spi packet_send packet i w = (ret, packet', w') ->
    flag ret = ok (transfers w) /\
    transfers w' = S (transfers w) /\
    (flag ret = false -> ready w').

(** The loop of tries stops at the first try that succeeds. *)
Lemma routing_tries_first (n : nat) :
  forall (tries : nat) (packet : Packet) (w : World)
         (tries' : nat) (packet' : Packet) (w' : World),
  ready w ->
  routing_tries spi packet_send flag i n tries packet w = (tries', packet', w') ->
  (tries <= tries' <= tries + n)%nat /\
  (forall k, (k < tries' - tries)%nat -> ok (transfers w + k) = false) /\
  ((tries' < tries + n)%nat -> ok (transfers w + (tries' - tries)) = true) /\
  transfers w' = (transfers w + (S (tries' - tries)) `min` n)%nat.
Proof.
  induction n as [|n IH]; intros tries packet w tries' packet' w' Hr H.
  - injection H as <- <- <-. split; [lia|]. split; [intros k Hk; lia|].
    split; [lia|]. lia.
  - cbn [routing_tries] in H.
    destruct (transceive spi packet_send packet i w) as [[ret p1] w1] eqn:E.
    destruct (try_spec _ _ _ _ _ Hr E) as (Hflag & Ht & Hready).
    cbv beta iota in H. destruct (flag ret) eqn:Ef.
    + injection H as <- <- <-. split; [lia|]. split; [intros k Hk; lia|].
      split.
      * intros _. by rewrite Nat.sub_diag, Nat.add_0_r, <- Hflag.
      * rewrite Ht, Nat.sub_diag. lia.
    + apply IH in H; [|by apply ready_events, Hready].
      destruct H as (H1 & H2 & H3 & H4).
      unfold with_events in H2, H3, H4. cbn [transfers] in H2, H3, H4.
      rewrite Ht in H2, H3, H4.
      split; [lia|]. split; [|split].
      * intros k Hk. destruct k as [|k]; [by rewrite Nat.add_0_r, <- Hflag|].
        replace (transfers w + S k)%nat with (S (transfers w) + k)%nat by lia.
        apply H2. lia.
      * intros Hlt.
        replace (transfers w + (tries' - tries))%nat
          with (S (transfers w) + (tries' - S tries))%nat by lia.
        apply H3. lia.
      * rewrite H4. lia.
Qed.

End Tries.

Lemma enumerate_request_ok : packet_ok enumerate_request.
Proof.
  split; [|vm_compute; lia].
  unfold enumerate_request, sizeof_PacketHeader, FUNCTION_STACK_ENUMERATE.
  repeat constructor; lia.
Qed.

Section Phases.

Variable spi : nat -> nat -> list Z -> Z * list Z.
Variable stack_garbage : nat -> Packet.

Lemma sending_events (i : nat) (w : World) (es : list Event) :
  sending i w -> sending i (with_events w es).
Proof. done. Qed.

Lemma addressed_events (i : nat) (w : World) (es : list Event) :
  addressed i w -> addressed i (with_events w es).
Proof. done. Qed.

(** One try of the send phase. *)
Lemma send_try (i : nat) (packet : Packet) (w : World)
    (ret : Z) (packet' : Packet) (w' : World) :
  sending i w ->
  transceive spi (Some enumerate_request) packet i w = (ret, packet', w') ->
  data_send ret = send_ok spi (transfers w) i /\
  transfers w' = S (transfers w) /\
  (data_send ret = false -> sending i w').
Proof.
  intros (Hi & Ha & Hst). unfold transceive. intros [= <- <- <-].
  set (slave := slave_at (red_stack w) i) in *. rewrite Ha.
  set (r := red_stack_spi_transceive_message (spi (transfers w) i) _ packet slave).
  assert (Htx : transceive_tx (Some enumerate_request) slave
                = Some (spec_build enumerate_request 0)).
  { apply (transceive_tx_request enumerate_request slave Hst enumerate_request_ok).
    vm_compute. discriminate. }
  assert (Hr : tr_tx r = Some (spec_build enumerate_request 0)).
  { subst r. by rewrite transceive_message_tx. }
  pose proof (transceive_message_send_fields (spi (transfers w) i)
                (Some enumerate_request) packet slave) as Hs.
  pose proof (transceive_message_receive (spi (transfers w) i)
                (Some enumerate_request) packet slave) as Hrecv.
  cbv zeta in Hs, Hrecv. fold r in Hs, Hrecv. rewrite Htx in Hrecv.
  destruct (fill_tx_sendable enumerate_request slave Hst) as (tx0 & Hfill).
  { vm_compute. discriminate. }
  unfold transceive_tx in Htx. rewrite Hfill in Hs, Htx. simpl in Htx.
  injection Htx as Htx. rewrite Htx in Hs.
  unfold send_ok.
  destruct (u8 (spi (transfers w) i (spec_build enumerate_request 0)).1
            =? RED_STACK_SPI_PACKET_SIZE) eqn:E.
  - destruct Hs as [-> _]. split; [done|]. rewrite Hr. simpl. split; [lia|done].
  - rewrite Hs. split; [done|]. rewrite Hr. simpl. split; [lia|]. intros _.
    simpl in Hrecv. destruct Hrecv as [Hsl _].
    unfold sending, status_at. cbn [red_stack].
    rewrite slave_at_insert, decide_True by done.
    cbn [slaves with_slaves]. rewrite length_insert. rewrite Hsl. done.
Qed.

(** One try of the receive phase. *)
Lemma receive_try (i : nat) (packet : Packet) (w : World)
    (ret : Z) (packet' : Packet) (w' : World) :
  addressed i w ->
  transceive spi None packet i w = (ret, packet', w') ->
  data_received ret = poll_delivers spi (transfers w) i /\
  transfers w' = S (transfers w) /\
  (data_received ret = false -> addressed i w').
Proof.
  intros (Hi & Ha). unfold transceive. intros [= <- <- <-].
  set (slave := slave_at (red_stack w) i) in *. rewrite Ha.
  set (r := red_stack_spi_transceive_message (spi (transfers w) i) None packet slave).
  destruct (transceive_tx_poll None slave (or_introl eq_refl)) as [_ Htx].
  fold poll_frame in Htx.
  assert (Hr : tr_tx r = Some poll_frame).
  { subst r. by rewrite transceive_message_tx. }
  pose proof (transceive_message_receive (spi (transfers w) i) None packet slave)
    as Hrecv.
  cbv zeta in Hrecv. fold r in Hrecv. rewrite Htx in Hrecv.
  destruct (transceive_message_slave (spi (transfers w) i) None packet slave)
    as (st & Hsl & _). fold r in Hsl.
  unfold poll_delivers. rewrite Hr. cbn [transfers length].
  split; [|split; [lia|]].
  - destruct (_ && _); by destruct Hrecv as [-> _] || destruct Hrecv as [_ ->].
  - intros _. unfold addressed. cbn [red_stack].
    rewrite slave_at_insert, decide_True by done.
    cbn [slaves with_slaves]. rewrite length_insert. rewrite Hsl. done.
Qed.

End Phases.

(** ** What the discovery costs *)

Lemma sleeps_app (es1 es2 : list Event) :
  sleeps (es1 ++ es2) = (sleeps es1 + sleeps es2)%nat.
Proof. unfold sleeps. by rewrite filter_app, length_app. Qed.

Lemma sleeps_logs (ls : list LogLine) : sleeps (EvLog <$> ls) = 0%nat.
Proof. induction ls as [|l ls IH]; [done|]. exact IH. Qed.

Lemma sleeps_is_log (es : list Event) : Forall is_log es -> sleeps es = 0%nat.
Proof.
  induction 1 as [|e es He _ IH]; [done|].
  destruct e; first [done | exact IH].
Qed.

Lemma copy_uids_sleeps (response : Packet) (n : nat) :
  forall i us es i' us' es',
  copy_uids response n i us es = (i', us', es') -> sleeps es' = sleeps es.
Proof.
  induction n as [|n IH]; intros i us es i' us' es' H; simpl in H.
  - by injection H as _ _ <-.
  - destruct (negb _).
    + apply IH in H. rewrite H, sleeps_app. unfold sleeps at 2. simpl. lia.
    + by injection H as _ _ <-.
Qed.

Lemma before_discovery_cost (w : World) :
  before_discovery w -> transfers w = 0%nat /\ sleeps (trace w) = 0%nat.
Proof.
  intros H. split.
  - induction H as [|w request _ IH]; [done|].
    unfold red_stack_dispatch_to_spi.
    by destruct (header_uid request =? 0); [|destruct (red_stack_spi_get_slave_for_uid _ _)].
  - apply sleeps_is_log. by apply before_discovery_inv in H as (_ & _ & H).
Qed.

Section Cost.

Variable spi : nat -> nat -> list Z -> Z * list Z.
Variable stack_garbage : nat -> Packet.

Lemma transceive_cost (packet_send : option Packet) (packet : Packet) (i : nat)
    (w : World) (ret : Z) (packet' : Packet) (w' : World) :
  transceive spi packet_send packet i w = (ret, packet', w') ->
  (transfers w <= transfers w' <= S (transfers w))%nat /\
  sleeps (trace w') = sleeps (trace w).
Proof.
  unfold transceive. intros [= <- <- <-]. cbn [transfers trace].
  rewrite !sleeps_app, sleeps_logs.
  destruct (tr_tx _); simpl; unfold sleeps; simpl; lia.
Qed.

Lemma routing_tries_cost (packet_send : option Packet) (flag : Z -> bool)
    (i n : nat) :
  forall tries packet w tries' packet' w',
  routing_tries spi packet_send flag i n tries packet w = (tries', packet', w') ->
  (tries <= tries' <= tries + n)%nat /\
  (transfers w <= transfers w' <= transfers w + n)%nat /\
  sleeps (trace w') = (sleeps (trace w) + (tries' - tries))%nat.
Proof.
  induction n as [|n IH]; intros tries packet w tries' packet' w' H.
  - injection H as <- <- <-. lia.
  - cbn [routing_tries] in H.
    destruct (transceive spi packet_send packet i w) as [[ret p1] w1] eqn:E.
    apply transceive_cost in E as [E1 E2].
    destruct (flag ret).
    + injection H as <- <- <-. lia.
    + apply IH in H as (H1 & H2 & H3).
      unfold with_events in H2, H3. cbn [transfers trace] in H2, H3.
      rewrite sleeps_app in H3. unfold sleeps at 3 in H3. simpl in H3. lia.
Qed.

Lemma routing_round_cost (i : nat) (w : World) (continue : bool) (w' : World) :
  routing_round spi stack_garbage i w = (continue, w') ->
  (transfers w <= transfers w' <= transfers w + 20)%nat /\
  (sleeps (trace w) <= sleeps (trace w') <= sleeps (trace w) + 20)%nat.
Proof.
  unfold routing_round, send_phase, receive_phase.
  destruct (routing_tries _ _ _ _ _ _ _ _) as [[t1 p1] w1] eqn:E1.
  apply routing_tries_cost in E1 as (A1 & A2 & A3).
  unfold set_slave, with_stack in A2, A3. cbn [transfers trace] in A2, A3.
  unfold RED_STACK_SPI_ROUTING_TRIES in *.
  destruct (t1 =? 10)%nat.
  - intros [= <- <-]. unfold set_slave, with_stack. cbn [transfers trace]. lia.
  - destruct (routing_tries _ _ _ _ _ _ _ _) as [[t2 p2] w2] eqn:E2.
    apply routing_tries_cost in E2 as (B1 & B2 & B3).
    destruct (t2 =? 10)%nat.
    + intros [= <- <-]. unfold set_slave, with_stack. cbn [transfers trace]. lia.
    + destruct (copy_uids _ _ _ _ _) as [[n us] es] eqn:E3.
      apply copy_uids_sleeps in E3.
      intros [= <- <-]. unfold with_events, set_slave, with_stack.
      cbn [transfers trace]. rewrite sleeps_app, E3.
      change (sleeps []) with 0%nat. lia.
Qed.

Lemma routing_loop_cost (m : nat) :
  forall a w a' w',
  routing_loop spi stack_garbage m a w = (a', w') ->
  (a <= a' <= a + m)%nat /\
  (transfers w' <= transfers w + 20 * (S (a' - a) `min` m))%nat /\
  (sleeps (trace w') <= sleeps (trace w) + 20 * (S (a' - a) `min` m))%nat.
Proof.
  induction m as [|m IH]; intros a w a' w' H.
  - injection H as <- <-. lia.
  - cbn [routing_loop] in H.
    destruct (routing_round spi stack_garbage a w) as [c w1] eqn:E.
    apply routing_round_cost in E as [E1 E2].
    destruct c.
    + apply IH in H as (H1 & H2 & H3). lia.
    + injection H as <- <-. lia.
Qed.

End Cost.

Section PhaseResults.

Variable spi : nat -> nat -> list Z -> Z * list Z.
Variable stack_garbage : nat -> Packet.

(** X9: the send phase of the discovery, for a slot that is in the table
    under its address, stops at the first transfer that returns the 84
    bytes of a frame: [tries] counts the transfers that failed before it,
    and is 10 when all ten failed; the thread slept once after each failed
    transfer, and made no transfer after the successful one. *)
Theorem send_phase_first_success (i : nat) (w : World) :
  addressed i w ->
  let '(tries, _, w') := send_phase spi stack_garbage i w in
  (tries <= RED_STACK_SPI_ROUTING_TRIES)%nat /\
  (forall k, (k < tries)%nat -> send_ok spi (transfers w + k) i = false) /\
  ((tries < RED_STACK_SPI_ROUTING_TRIES)%nat ->
   send_ok spi (transfers w + tries) i = true) /\
  transfers w' = (transfers w + S tries `min` RED_STACK_SPI_ROUTING_TRIES)%nat /\
  sleeps (trace w') = (sleeps (trace w) + tries)%nat.
Proof.
  intros (Hi & Ha). unfold send_phase.
  set (w0 := set_slave w i _).
  assert (Hs : sending i w0).
  { unfold sending, status_at, w0, set_slave, with_stack. cbn [red_stack].
    rewrite slave_at_insert, decide_True by done.
    cbn [slaves with_slaves]. by rewrite length_insert. }
  destruct (routing_tries _ _ _ _ _ _ _ _) as [[tries p] w'] eqn:E.
  pose proof (routing_tries_cost spi _ _ _ _ _ _ _ _ _ _ E) as (_ & _ & C).
  apply (routing_tries_first spi (Some enumerate_request) data_send i
           (sending i) (fun t => send_ok spi t i)
           (sending_events i) (fun p0 w1 r p1 w2 => send_try spi i p0 w1 r p1 w2))
    in E as (E1 & E2 & E3 & E4); [|done].
  change (transfers w0) with (transfers w) in *.
  change (trace w0) with (trace w) in *.
  rewrite !Nat.sub_0_r in *.
  split; [lia|]. split; [done|]. split; [exact E3|]. split; [exact E4|exact C].
Qed.

(** X10: the receive phase of the discovery stops at the first poll that
    returns 84 bytes holding a frame the receiver accepts: [tries] counts
    the polls that delivered nothing before it, and is 10 when all ten
    delivered nothing; the thread slept once after each of those. *)
Theorem receive_phase_first_delivery (i : nat) (packet : Packet) (w : World) :
  addressed i w ->
  let '(tries, _, w') := receive_phase spi i packet w in
  (tries <= RED_STACK_SPI_ROUTING_TRIES)%nat /\
  (forall k, (k < tries)%nat -> poll_delivers spi (transfers w + k) i = false) /\
  ((tries < RED_STACK_SPI_ROUTING_TRIES)%nat ->
   poll_delivers spi (transfers w + tries) i = true) /\
  transfers w' = (transfers w + S tries `min` RED_STACK_SPI_ROUTING_TRIES)%nat /\
  sleeps (trace w') = (sleeps (trace w) + tries)%nat.
Proof.
  intros Ha. unfold receive_phase.
  destruct (routing_tries _ _ _ _ _ _ _ _) as [[tries p] w'] eqn:E.
  pose proof (routing_tries_cost spi _ _ _ _ _ _ _ _ _ _ E) as (_ & _ & C).
  apply (routing_tries_first spi None data_received i
           (addressed i) (fun t => poll_delivers spi t i)
           (addressed_events i) (fun p0 w1 r p1 w2 => receive_try spi i p0 w1 r p1 w2))
    in E as (E1 & E2 & E3 & E4); [|done].
  rewrite !Nat.sub_0_r in *.
  split; [lia|]. split; [done|]. split; [exact E3|]. split; [exact E4|exact C].
Qed.

(** X11: the discovery is bounded: started from the state
    [red_stack_init_spi] sets up, it makes at most 20 transfers and sleeps
    at most 20 times for each slot it probes, and it probes the slots of
    the slaves it found and, when these are fewer than eight, one more. *)
Theorem discovery_cost (w0 : World) :
  before_discovery w0 ->
  let w := red_stack_spi_create_routing_table spi stack_garbage w0 in
  let probed := (S (slave_num (red_stack w)) `min` RED_STACK_SPI_MAX_SLAVES)%nat in
  (slave_num (red_stack w) <= RED_STACK_SPI_MAX_SLAVES)%nat /\
  (transfers w <= 2 * RED_STACK_SPI_ROUTING_TRIES * probed)%nat /\
  (sleeps (trace w) <= 2 * RED_STACK_SPI_ROUTING_TRIES * probed)%nat.
Proof.
  intros H. apply before_discovery_cost in H as [H1 H2].
  unfold red_stack_spi_create_routing_table.
  destruct (routing_loop _ _ _ _ _) as [a w1] eqn:E.
  apply routing_loop_cost in E as (E1 & E2 & E3).
  unfold with_events, with_stack in *. cbn [transfers trace red_stack slave_num] in *.
  rewrite H1 in E2. rewrite sleeps_app, H2 in E3.
  rewrite sleeps_app. change (sleeps [EvLog DbgOther]) with 0%nat in *.
  unfold RED_STACK_SPI_MAX_SLAVES, RED_STACK_SPI_ROUTING_TRIES in *.
  rewrite Nat.sub_0_r in *. lia.
Qed.

End PhaseResults.

Lemma send_phase_first_success_witness :
  addressed 0 initial_world /\
  let '(tries, _, w') := send_phase slow_device some_garbage 0 initial_world in
  (tries <= RED_STACK_SPI_ROUTING_TRIES)%nat /\
  (forall k, (k < tries)%nat ->
     send_ok slow_device (transfers initial_world + k) 0 = false) /\
  ((tries < RED_STACK_SPI_ROUTING_TRIES)%nat ->
   send_ok slow_device (transfers initial_world + tries) 0 = true) /\
  transfers w' = (transfers initial_world
                  + S tries `min` RED_STACK_SPI_ROUTING_TRIES)%nat /\
  sleeps (trace w') = (sleeps (trace initial_world) + tries)%nat.
Proof.
  assert (H : addressed 0 initial_world).
  { split; [vm_compute; lia | reflexivity]. }
  split; [exact H|].
  exact (send_phase_first_success slow_device some_garbage 0 initial_world H).
Defined.

Lemma receive_phase_first_delivery_witness :
  addressed 0 request_taken_world /\
  let '(tries, _, w') :=
    receive_phase slow_device 0 (some_garbage 0) request_taken_world in
  (tries <= RED_STACK_SPI_ROUTING_TRIES)%nat /\
  (forall k, (k < tries)%nat ->
     poll_delivers slow_device (transfers request_taken_world + k) 0 = false) /\
  ((tries < RED_STACK_SPI_ROUTING_TRIES)%nat ->
   poll_delivers slow_device (transfers request_taken_world + tries) 0 = true) /\
  transfers w' = (transfers request_taken_world
                  + S tries `min` RED_STACK_SPI_ROUTING_TRIES)%nat /\
  sleeps (trace w') = (sleeps (trace request_taken_world) + tries)%nat.
Proof.
  assert (H : addressed 0 request_taken_world).
  { split; [vm_compute; lia | reflexivity]. }
  split; [exact H|].
  exact (receive_phase_first_delivery slow_device 0 (some_garbage 0)
           request_taken_world H).
Defined.

Lemma discovery_cost_witness :
  before_discovery initial_world /\
  let w := red_stack_spi_create_routing_table slow_device some_garbage initial_world in
  let probed := (S (slave_num (red_stack w)) `min` RED_STACK_SPI_MAX_SLAVES)%nat in
  (slave_num (red_stack w) <= RED_STACK_SPI_MAX_SLAVES)%nat /\
  (transfers w <= 2 * RED_STACK_SPI_ROUTING_TRIES * probed)%nat /\
  (sleeps (trace w) <= 2 * RED_STACK_SPI_ROUTING_TRIES * probed)%nat.
Proof.
  split; [exact bd_init|].
  exact (discovery_cost slow_device some_garbage initial_world bd_init).
Defined.

Example slow_device_tries :
  (send_phase slow_device some_garbage 0 initial_world).1.1 = 2%nat /\
  (receive_phase slow_device 0 (some_garbage 0) request_taken_world).1.1 = 1%nat.
Proof. by vm_compute. Qed.
(** ** The deadline, the allocation size and the initialisation *)

(** X12: adding the 500us to a deadline whose nanoseconds are within a
    second gives a deadline whose nanoseconds are within a second again
    and that is 500000ns later. *)
Theorem spi_deadline_advance_normalised (d : timespec) :
  0 <= tv_nsec d < 1000000000 ->
  0 <= tv_nsec (spi_deadline_advance d) < 1000000000 /\
  tv_sec d <= tv_sec (spi_deadline_advance d) <= tv_sec d + 1 /\
  nanoseconds (spi_deadline_advance d) = nanoseconds d + 500000.
Proof.
  intros H. unfold spi_deadline_advance, nanoseconds. cbn [tv_sec tv_nsec].
  destruct (Z.leb_spec 1000000000 (tv_nsec d + 1000 * 500)); cbn [tv_sec tv_nsec]; lia.
Qed.

Lemma spi_deadline_advance_normalised_witness :
  0 <= tv_nsec (mkTimespec 7 999900000) < 1000000000 /\
  0 <= tv_nsec (spi_deadline_advance (mkTimespec 7 999900000)) < 1000000000 /\
  tv_sec (mkTimespec 7 999900000)
    <= tv_sec (spi_deadline_advance (mkTimespec 7 999900000))
    <= tv_sec (mkTimespec 7 999900000) + 1 /\
  nanoseconds (spi_deadline_advance (mkTimespec 7 999900000))
    = nanoseconds (mkTimespec 7 999900000) + 500000.
Proof.
  assert (H : 0 <= tv_nsec (mkTimespec 7 999900000) < 1000000000) by (simpl; lia).
  split; [exact H|].
  exact (spi_deadline_advance_normalised (mkTimespec 7 999900000) H).
Defined.

(** X13: for a size of at least 1 that leaves room for the rounding within
    a 32-bit int, GROW_ALLOCATION gives the least multiple of 16 that is
    not below the size, and this is within the int as well. *)
Theorem GROW_ALLOCATION_least_multiple (size : Z) :
  1 <= size <= 2147483632 ->
  (16 | GROW_ALLOCATION size) /\
  size <= GROW_ALLOCATION size < size + 16 /\
  GROW_ALLOCATION size <= 2147483632 /\
  (forall m, (16 | m) -> size <= m -> GROW_ALLOCATION size <= m).
Proof.
  intros H. unfold GROW_ALLOCATION.
  rewrite Z.quot_div_nonneg by lia.
  pose proof (Z.div_mod (size - 1) 16 ltac:(lia)) as D.
  pose proof (Z.mod_pos_bound (size - 1) 16 ltac:(lia)) as B.
  split; [by apply Z.divide_factor_r|]. split; [lia|]. split; [lia|].
  intros m [q ->] Hm. nia.
Qed.

Lemma GROW_ALLOCATION_least_multiple_witness :
  1 <= 17 <= 2147483632 /\
  (16 | GROW_ALLOCATION 17) /\
  17 <= GROW_ALLOCATION 17 < 17 + 16 /\
  GROW_ALLOCATION 17 <= 2147483632 /\
  (forall m, (16 | m) -> 17 <= m -> GROW_ALLOCATION 17 <= m).
Proof.
  assert (H : 1 <= 17 <= 2147483632) by lia.
  split; [exact H|].
  exact (GROW_ALLOCATION_least_multiple 17 H).
Defined.

Lemma check_result (env : InitCall -> Z) (c : InitCall) (k : Z * list InitAction) :
  (check env c k).1 = (if env c <? 0 then -1 else k.1).
Proof. unfold check. by destruct (env c <? 0). Qed.

Lemma check_thread (env : InitCall -> Z) (c : InitCall) (k : Z * list InitAction) :
  In ActThreadCreate (check env c k).2 <-> 0 <= env c /\ In ActThreadCreate k.2.
Proof.
  unfold check. destruct (Z.ltb_spec (env c) 0); simpl.
  - split; [intros [ ? | [ ? | [ ] ] ]; discriminate | lia].
  - split; [intros [|]; [discriminate|done] | intros [_ ?]; by right].
Qed.

Lemma check_cleanup (env : InitCall -> Z) (c : InitCall) (k : Z * list InitAction)
    (a : InitAction) :
  a = ActEventRemoveSource \/ a = ActPipeDestroy \/ a = ActStackDestroy ->
  In a (check env c k).2 <-> 0 <= env c /\ In a k.2.
Proof.
  intros Ha. unfold check. destruct (Z.ltb_spec (env c) 0); simpl.
  - split; [intros [ ? | [ ? | [ ] ] ]; destruct Ha as [ -> | [ -> | -> ] ]; discriminate | lia].
  - split; [intros [|]; [destruct Ha as [ -> | [ -> | -> ] ]; discriminate|done]
           | intros [_ ?]; by right].
Qed.

Lemma act_result (a : InitAction) (k : Z * list InitAction) : (act a k).1 = k.1.
Proof. done. Qed.

Lemma act_In (b a : InitAction) (k : Z * list InitAction) :
  In b (act a k).2 <-> a = b \/ In b k.2.
Proof. done. Qed.

(** [red_stack_init_spi] gives 0 when none of its calls fails and -1
    otherwise, and creates the thread in the first case only. *)
Lemma red_stack_init_spi_result (env : InitCall -> Z) :
  let spi_calls := [queue_create; gpio_init; spi_open; ioctl_mode;
                    ioctl_max_speed_hz; ioctl_bits_per_word; ioctl_lsb_first;
                    semaphore_create] in
  ((red_stack_init_spi env).1 = 0 /\ Forall (fun c => 0 <= env c) spi_calls \/
   (red_stack_init_spi env).1 = -1 /\ Exists (fun c => env c < 0) spi_calls) /\
  (In ActThreadCreate (red_stack_init_spi env).2 <-> (red_stack_init_spi env).1 = 0) /\
  (forall a, a = ActEventRemoveSource \/ a = ActPipeDestroy \/ a = ActStackDestroy ->
             ~ In a (red_stack_init_spi env).2).
Proof.
  cbv zeta. unfold red_stack_init_spi.
  split; [|split].
  - repeat (rewrite check_result || rewrite act_result). cbn [fst].
    repeat match goal with
    | |- context [env ?c <? 0] => destruct (Z.ltb_spec (env c) 0)
    end; cbv beta iota;
    first [ left; split; [done|]; repeat constructor; lia
          | right; split; [done|];
            repeat (first [ apply Exists_cons_hd; cbv beta; lia
                          | apply Exists_cons_tl ]) ].
  - repeat (rewrite check_thread || rewrite check_result || rewrite act_result
            || rewrite act_In).
    cbn [fst snd In].
    repeat match goal with
    | |- context [env ?c <? 0] => destruct (Z.ltb_spec (env c) 0)
    end; cbv beta iota; intuition (try discriminate; try lia).
  - intros a Ha.
    repeat (rewrite (check_cleanup _ _ _ a Ha) || rewrite act_In).
    cbn [snd In]. destruct Ha as [ -> | [ -> | -> ] ];
      intuition (try discriminate).
Qed.

(** X14: [red_stack_init] gives 0 when none of the twelve calls that can
    fail does, and -1 when one of them fails; the SPI thread is created in
    the first case and never in the second. *)
Theorem red_stack_init_result (env : InitCall -> Z) :
  let '(ret, actions) := red_stack_init env in
  (ret = 0 /\ (forall c, 0 <= env c) \/ ret = -1 /\ (exists c, env c < 0)) /\
  (In ActThreadCreate actions <-> ret = 0).
Proof.
  unfold red_stack_init, red_stack_init_steps. cbv zeta.
  destruct (Z.ltb_spec (env stack_create) 0) as [H1|H1];
    [split; [right; eauto | simpl; intuition discriminate]|].
  destruct (Z.ltb_spec (env hardware_add_stack) 0) as [H2|H2];
    [split; [right; eauto | simpl; intuition discriminate]|].
  destruct (Z.ltb_spec (env pipe_create) 0) as [H3|H3];
    [split; [right; eauto | simpl; intuition discriminate]|].
  destruct (Z.ltb_spec (env event_add_source) 0) as [H4|H4];
    [split; [right; eauto | simpl; intuition discriminate]|].
  pose proof (red_stack_init_spi_result env) as (R & T & C). cbv zeta in R.
  destruct (red_stack_init_spi env) as [r acts]. cbn [fst snd] in R, T, C.
  destruct R as [[-> F]|[-> E]]; cbn [Z.ltb Z.compare Nat.eqb].
  - split.
    + left. split; [done|]. rewrite !Forall_cons in F. intros []; tauto.
    + rewrite !in_app_iff. simpl. intuition discriminate.
  - split.
    + right. split; [done|]. rewrite !Exists_cons, Exists_nil in E.
      decompose [or] E; eauto; done.
    + rewrite !in_app_iff. simpl. intuition discriminate.
Qed.

(** X15: what [red_stack_init] undoes when it fails, by the phase it
    reached: the base stack is destroyed when it had been created; the
    notification pipe is destroyed when the stack had been added to the
    hardware, also when creating the pipe was the call that failed; the
    event source is removed when the pipe had been created, also when
    adding the source was the call that failed. Nothing is undone when
    the initialisation succeeds. *)
Theorem red_stack_init_rollback (env : InitCall -> Z) :
  let '(ret, actions) := red_stack_init env in
  (In ActStackDestroy actions <-> ret = -1 /\ 0 <= env stack_create) /\
  (In ActPipeDestroy actions <->
   ret = -1 /\ 0 <= env stack_create /\ 0 <= env hardware_add_stack) /\
  (In ActEventRemoveSource actions <->
   ret = -1 /\ 0 <= env stack_create /\ 0 <= env hardware_add_stack /\
   0 <= env pipe_create).
Proof.
  unfold red_stack_init, red_stack_init_steps. cbv zeta.
  destruct (Z.ltb_spec (env stack_create) 0) as [H1|H1];
    [simpl; intuition (try discriminate; try lia)|].
  destruct (Z.ltb_spec (env hardware_add_stack) 0) as [H2|H2];
    [simpl; intuition (try discriminate; try lia)|].
  destruct (Z.ltb_spec (env pipe_create) 0) as [H3|H3];
    [simpl; intuition (try discriminate; try lia)|].
  destruct (Z.ltb_spec (env event_add_source) 0) as [H4|H4];
    [simpl; intuition (try discriminate; try lia)|].
  pose proof (red_stack_init_spi_result env) as (R & T & C). cbv zeta in R.
  destruct (red_stack_init_spi env) as [r acts]. cbn [fst snd] in R, T, C.
  pose proof (C ActStackDestroy ltac:(tauto)) as C1.
  pose proof (C ActPipeDestroy ltac:(tauto)) as C2.
  pose proof (C ActEventRemoveSource ltac:(tauto)) as C3.
  destruct R as [[-> F]|[-> E]]; cbn [Z.ltb Z.compare Nat.eqb];
    rewrite !in_app_iff; simpl; intuition (try discriminate; try lia).
Qed.

(** The SPI device cannot be opened: the thread is not created and
    everything [red_stack_init] itself set up is undone. *)
Example red_stack_init_no_spidev :
  (red_stack_init no_spidev).1 = -1 /\
  exists actions,
    (red_stack_init no_spidev).2
    = actions ++ [ActCall spi_open; ActLogError spi_open;
                  ActEventRemoveSource; ActPipeDestroy; ActStackDestroy].
Proof. split; [done|]. by eexists [_; _; _; _; _; _; _; _]. Qed.

(** The notification pipe cannot be created: it is destroyed all the same. *)
Example red_stack_init_no_pipe :
  red_stack_init no_pipe
  = (-1, [ActLogDebug; ActCall stack_create; ActCall hardware_add_stack;
          ActCall pipe_create; ActLogError pipe_create;
          ActPipeDestroy; ActStackDestroy]).
Proof. reflexivity. Qed.
(** ** The extensions *)

Lemma lor_shiftl_add (a x n : Z) :
  0 <= n -> 0 <= a < 2 ^ n -> 0 <= x -> Z.lor a (Z.shiftl x n) = a + x * 2 ^ n.
Proof.
  intros Hn Ha Hx. rewrite Z.shiftl_mul_pow2 by done.
  symmetry. apply Z.add_nocarry_lor.
  apply Z.bits_inj'. intros k Hk.
  rewrite Z.land_spec, Z.bits_0.
  destruct (decide (k < n)) as [Hlt|Hge].
  - rewrite (Z.mul_pow2_bits_low x n k) by done. apply andb_false_r.
  - destruct (decide (a = 0)) as [->|Hne]; [by rewrite Z.bits_0|].
    rewrite (Z.bits_above_log2 a k); [done|apply Ha|].
    apply Z.log2_lt_pow2; [lia|].
    apply Z.lt_le_trans with (2 ^ n); [lia|].
    apply Z.pow_le_mono_r; lia.
Qed.

(** The word the source assembles from the four bytes is the little-endian
    word, and is below 2^32. *)
Lemma buf_word_le32 (buf : list Z) :
  is_bytes buf -> buf_word buf = le32_at buf 0 /\ 0 <= buf_word buf < 2 ^ 32.
Proof.
  intros H. unfold buf_word, le32_at, byte_at.
  pose proof (is_bytes_nth buf 0 H) as H0. pose proof (is_bytes_nth buf 1 H) as H1.
  pose proof (is_bytes_nth buf 2 H) as H2. pose proof (is_bytes_nth buf 3 H) as H3.
  change (Z.to_nat 0) with 0%nat. change (Z.to_nat 1) with 1%nat.
  change (Z.to_nat 2) with 2%nat. change (Z.to_nat 3) with 3%nat.
  rewrite Z.shiftl_0_r.
  rewrite (lor_shiftl_add _ _ 8) by lia.
  rewrite (lor_shiftl_add _ _ 16) by lia.
  rewrite (lor_shiftl_add _ _ 24) by lia.
  simpl Nat.add. lia.
Qed.

(** X16: [red_extension_exit] ends every extension that is recorded, in the
    order of the positions, and leaves no extension recorded, so that a
    second call ends nothing. *)
Theorem red_extension_exit_once (types : list ExtensionType) :
  length types = EXTENSION_NUM_MAX ->
  let '(calls, types') := red_extension_exit types in
  calls = concat (exit_call <$> types) /\
  types' = replicate EXTENSION_NUM_MAX EXTENSION_TYPE_NONE /\
  red_extension_exit types' = ([], types').
Proof.
  by destruct types as [|a [|b [|c types]]].
Qed.

Lemma red_extension_exit_once_witness :
  length [EXTENSION_TYPE_ETHERNET; EXTENSION_TYPE_RS485] = EXTENSION_NUM_MAX /\
  let '(calls, types') :=
    red_extension_exit [EXTENSION_TYPE_ETHERNET; EXTENSION_TYPE_RS485] in
  calls = concat (exit_call <$> [EXTENSION_TYPE_ETHERNET; EXTENSION_TYPE_RS485]) /\
  types' = replicate EXTENSION_NUM_MAX EXTENSION_TYPE_NONE /\
  red_extension_exit types' = ([], types').
Proof.
  split; [reflexivity|].
  exact (red_extension_exit_once [EXTENSION_TYPE_ETHERNET; EXTENSION_TYPE_RS485]
           eq_refl).
Defined.

Lemma iter_next_location (j : nat) (location : Z) :
  Nat.iter j next_location (next_location location)
  = Nat.iter (S j) next_location location.
Proof. induction j as [|j IH]; [done|]. simpl. by rewrite IH. Qed.

Section SlaveAddresses.

Variable i2c_eeprom_read : Z -> Z -> Z * list Z.

(** The loop over the slave addresses, from the location [location] on. *)
Lemma read_slave_addresses_effect (n : nat) :
  forall (c : ExtensionRS485Config) (location : Z)
         (ret : Z) (c' : ExtensionRS485Config) (log : list RS485Log),
  read_slave_addresses i2c_eeprom_read n c location = (ret, c', log) ->
  (rs485_slave_num c + n <= length (rs485_slave_address c))%nat ->
  let word j := buf_word (i2c_eeprom_read (Nat.iter j next_location location) 4).2 in
  let read j := (i2c_eeprom_read (Nat.iter j next_location location) 4).1 in
  let m := (rs485_slave_num c' - rs485_slave_num c)%nat in
  (ret = 0 /\ log = [] \/ ret = -1 /\ log = [ErrReadSlaveAddresses]) /\
  rs485_address c' = rs485_address c /\
  rs485_baudrate c' = rs485_baudrate c /\
  rs485_parity c' = rs485_parity c /\
  rs485_stopbits c' = rs485_stopbits c /\
  (rs485_slave_num c <= rs485_slave_num c' <= rs485_slave_num c + n)%nat /\
  length (rs485_slave_address c') = length (rs485_slave_address c) /\
  (forall k, (k < rs485_slave_num c)%nat ->
     rs485_slave_address c' !! k = rs485_slave_address c !! k) /\
  (forall j, (j < m)%nat ->
     4 <= read j /\ word j <> 0 /\
     rs485_slave_address c' !! (rs485_slave_num c + j)%nat = Some (word j)) /\
  (ret = 0 -> (m < n)%nat -> 4 <= read m /\ word m = 0) /\
  (ret = -1 -> (m < n)%nat /\ read m < 4).
Proof.
  induction n as [|n IH]; intros c location ret c' log H Hlen; cbv zeta.
  - injection H as <- <- <-. rewrite Nat.sub_diag.
    repeat split; try done; try lia; auto; intros; lia.
  - cbn [read_slave_addresses] in H.
    destruct (i2c_eeprom_read location 4) as [r buf] eqn:E.
    destruct (Z.ltb_spec r 4) as [Hr|Hr].
    { injection H as <- <- <-. rewrite Nat.sub_diag. change (Nat.iter 0 next_location location) with location. rewrite E.
      repeat split; try done; try lia; auto; intros; lia. }
    destruct (Z.eqb_spec (buf_word buf) 0) as [Hw|Hw].
    { injection H as <- <- <-. rewrite Nat.sub_diag. change (Nat.iter 0 next_location location) with location. rewrite E.
      repeat split; try done; try lia; auto; intros; lia. }
    apply IH in H; [|cbn [rs485_slave_num rs485_slave_address];
                     rewrite length_insert; lia].
    cbv zeta in H.
    cbn [rs485_slave_num rs485_slave_address rs485_address rs485_baudrate
         rs485_parity rs485_stopbits] in H.
    destruct H as (H1 & H2 & H3 & H4 & H5 & H6 & H7 & H8 & H9 & H10 & H11).
    rewrite length_insert in H7.
    set (s := rs485_slave_num c) in *. set (s' := rs485_slave_num c') in *.
    assert (Hs : (s' - s = S (s' - S s))%nat) by lia.
    split; [done|]. split; [done|]. split; [done|]. split; [done|].
    split; [done|]. split; [lia|]. split; [done|].
    split; [|split; [|split]].
    + intros k Hk. rewrite H8 by lia. apply list_lookup_insert_ne. lia.
    + intros [|j] Hj.
      * change (Nat.iter 0 next_location location) with location. rewrite E. cbn [fst snd]. rewrite Nat.add_0_r.
        split; [done|]. split; [done|].
        rewrite H8 by lia. apply list_lookup_insert_eq. lia.
      * rewrite <- !iter_next_location.
        replace (s + S j)%nat with (S s + j)%nat by lia.
        apply H9. lia.
    + intros Hret Hm. rewrite Hs, <- !iter_next_location. apply H10; [done|lia].
    + intros Hret. rewrite Hs, <- !iter_next_location.
      destruct (H11 Hret) as [Ha Hb]. split; [lia|done].
Qed.

End SlaveAddresses.

Lemma slave_address_location_start (k : nat) :
  Nat.iter k next_location EXTENSION_EEPROM_RS485_SLAVE_ADDRESSES_START_LOCATION
  = slave_address_location k.
Proof. done. Qed.

Section ReadRS485Config.

Variable EXTENSION_RS485_SLAVES_MAX : nat.
Variable RS485_EXTENSION_SERIAL_PARITY_NONE : Z.
Variable RS485_EXTENSION_SERIAL_PARITY_EVEN : Z.
Variable RS485_EXTENSION_SERIAL_PARITY_ODD : Z.
Variable i2c_eeprom_read : Z -> Z -> Z * list Z.

(** X17: a configuration [red_extension_read_rs485_config] accepts.  When
    the EEPROM gives bytes, the baudrate word is below 2^31 and the
    function returns 0, then nothing is logged, the address is 0 (a
    master), the baudrate is the word read and at least 8, the parity is
    one of the three constants, and the slave addresses are the words of
    the EEPROM from location 100 on, each non-zero, up to the first word
    that is zero or up to the maximum. *)
Theorem read_rs485_config_success (c : ExtensionRS485Config) :
  (forall location length, is_bytes (i2c_eeprom_read location length).2) ->
  length (rs485_slave_address c) = EXTENSION_RS485_SLAVES_MAX ->
  buf_word (i2c_eeprom_read EXTENSION_EEPROM_RS485_BAUDRATE_LOCATION 4).2 < 2 ^ 31 ->
  let '(ret, c', log) :=
    red_extension_read_rs485_config
      EXTENSION_RS485_SLAVES_MAX RS485_EXTENSION_SERIAL_PARITY_NONE
      RS485_EXTENSION_SERIAL_PARITY_EVEN RS485_EXTENSION_SERIAL_PARITY_ODD
      i2c_eeprom_read c in
  let word k := buf_word (i2c_eeprom_read (slave_address_location k) 4).2 in
  ret = 0 ->
  log = [] /\
  rs485_address c' = 0 /\
  rs485_baudrate c'
    = buf_word (i2c_eeprom_read EXTENSION_EEPROM_RS485_BAUDRATE_LOCATION 4).2 /\
  8 <= rs485_baudrate c' < 2 ^ 31 /\
  (rs485_parity c' = RS485_EXTENSION_SERIAL_PARITY_NONE \/
   rs485_parity c' = RS485_EXTENSION_SERIAL_PARITY_EVEN \/
   rs485_parity c' = RS485_EXTENSION_SERIAL_PARITY_ODD) /\
  0 <= rs485_stopbits c' < 256 /\
  (rs485_slave_num c' <= EXTENSION_RS485_SLAVES_MAX)%nat /\
  length (rs485_slave_address c') = EXTENSION_RS485_SLAVES_MAX /\
  (forall k, (k < rs485_slave_num c')%nat ->
     rs485_slave_address c' !! k = Some (word k) /\ 0 < word k < 2 ^ 32) /\
  ((rs485_slave_num c' < EXTENSION_RS485_SLAVES_MAX)%nat ->
   word (rs485_slave_num c') = 0).
Proof.
  intros Hbytes Hlen Hbaud. unfold red_extension_read_rs485_config.
  destruct (i2c_eeprom_read EXTENSION_EEPROM_RS485_ADDRESS_LOCATION 4)
    as [r1 b1] eqn:E1.
  destruct (r1 <? 4); [by intros|].
  destruct (i2c_eeprom_read EXTENSION_EEPROM_RS485_BAUDRATE_LOCATION 4)
    as [r2 b2] eqn:E2.
  destruct (r2 <? 4); [by intros|].
  cbn [rs485_address rs485_baudrate rs485_parity rs485_stopbits rs485_slave_num
       rs485_slave_address fst snd] in *.
  destruct (Z.ltb_spec (buf_word b2) 8) as [Hb|Hb]; [by intros|].
  destruct (i2c_eeprom_read EXTENSION_EEPROM_RS485_PARTIY_LOCATION 1)
    as [r3 b3] eqn:E3.
  destruct (r3 <? 1); [by intros|].
  destruct (i2c_eeprom_read EXTENSION_EEPROM_RS485_STOPBITS_LOCATION 1)
    as [r4 b4] eqn:E4.
  destruct (r4 <? 1); [by intros|].
  destruct (Z.eqb_spec (buf_word b1) 0) as [Ha|Ha]; [|by intros].
  destruct (read_slave_addresses _ _ _ _) as [[ret c'] log] eqn:E.
  apply read_slave_addresses_effect in E;
    [|cbn [rs485_slave_num rs485_slave_address]; lia].
  cbv zeta in E.
  cbn [rs485_address rs485_baudrate rs485_parity rs485_stopbits rs485_slave_num
       rs485_slave_address] in E.
  destruct E as (H1 & H2 & H3 & H4 & H5 & H6 & H7 & H8 & H9 & H10 & H11).
  rewrite Nat.sub_0_r in *.
  intros ->. destruct H1 as [[_ ->]|[? _]]; [|done].
  split; [done|]. split; [by rewrite H2|]. split; [done|]. split; [lia|].
  split; [rewrite H4; repeat case_match; auto|].
  split.
  { rewrite H5. pose proof (Hbytes EXTENSION_EEPROM_RS485_STOPBITS_LOCATION 1) as B.
    rewrite E4 in B. apply (is_bytes_nth b4 0 B). }
  split; [lia|]. split; [lia|]. split.
  - intros k Hk. destruct (H9 k Hk) as (_ & Hw & Hl).
    rewrite slave_address_location_start in Hw, Hl. split; [done|].
    destruct (buf_word_le32 _ (Hbytes (slave_address_location k) 4)) as [_ B]. lia.
  - intros Hm. destruct (H10 eq_refl Hm) as [_ Hw].
    by rewrite slave_address_location_start in Hw.
Qed.


End ReadRS485Config.

Lemma master_eeprom_bytes (location length : Z) :
  is_bytes (master_eeprom location length).2.
Proof.
  unfold master_eeprom. repeat case_match; repeat constructor; lia.
Qed.

Lemma read_rs485_config_success_witness :
  (forall location length, is_bytes (master_eeprom location length).2) /\
  length (rs485_slave_address empty_rs485_config) = 32%nat /\
  buf_word (master_eeprom EXTENSION_EEPROM_RS485_BAUDRATE_LOCATION 4).2 < 2 ^ 31 /\
  let '(ret, c', log) :=
    red_extension_read_rs485_config 32 110 101 111 master_eeprom
                                    empty_rs485_config in
  let word k := buf_word (master_eeprom (slave_address_location k) 4).2 in
  ret = 0 /\
  log = [] /\
  rs485_address c' = 0 /\
  rs485_baudrate c'
    = buf_word (master_eeprom EXTENSION_EEPROM_RS485_BAUDRATE_LOCATION 4).2 /\
  8 <= rs485_baudrate c' < 2 ^ 31 /\
  (rs485_parity c' = 110 \/ rs485_parity c' = 101 \/ rs485_parity c' = 111) /\
  0 <= rs485_stopbits c' < 256 /\
  (rs485_slave_num c' <= 32)%nat /\
  length (rs485_slave_address c') = 32%nat /\
  (forall k, (k < rs485_slave_num c')%nat ->
     rs485_slave_address c' !! k = Some (word k) /\ 0 < word k < 2 ^ 32) /\
  ((rs485_slave_num c' < 32)%nat -> word (rs485_slave_num c') = 0).
Proof.
  assert (H2 : length (rs485_slave_address empty_rs485_config) = 32%nat)
    by reflexivity.
  assert (H3 : buf_word (master_eeprom EXTENSION_EEPROM_RS485_BAUDRATE_LOCATION 4).2
               < 2 ^ 31) by reflexivity.
  split; [exact master_eeprom_bytes|]. split; [exact H2|]. split; [exact H3|].
  split; [reflexivity|].
  exact (read_rs485_config_success 32 110 101 111 master_eeprom empty_rs485_config
           master_eeprom_bytes H2 H3 eq_refl).
Defined.

(** ** A stack without slaves *)

Lemma with_queue_same (s : REDStack) :
  with_queue s (packet_to_spi_queue s ++ []) = s.
Proof. destruct s. unfold with_queue. simpl. by rewrite app_nil_r. Qed.

(** X19: while no slave is known, which is so before the discovery and
    after one that found none, every request is dropped: the stack and its
    queue stay as they are, a request to a UID is logged as an error, and
    a broadcast leaves no trace at all. *)
Theorem no_slaves_requests_dropped (request : Packet) (w : World) :
  slave_num (red_stack w) = 0%nat ->
  let w' := red_stack_dispatch_to_spi request w in
  red_stack w' = red_stack w /\
  thread_running w' = thread_running w /\
  transfers w' = transfers w /\
  trace w' = trace w ++
    (if header_uid request =? 0 then []
     else [EvLog (ErrUnknownUid (header_uid request))]).
Proof.
  intros Hn. unfold red_stack_dispatch_to_spi. cbv zeta.
  destruct (header_uid request =? 0) eqn:E.
  - rewrite Hn. cbn [seq fmap list_fmap]. unfold with_events, with_stack.
    cbn [red_stack thread_running transfers trace].
    by rewrite with_queue_same.
  - unfold red_stack_spi_get_slave_for_uid. by rewrite Hn.
Qed.

Lemma no_slaves_requests_dropped_witness :
  slave_num (red_stack initial_world) = 0%nat /\
  let w' := red_stack_dispatch_to_spi (request_for 5) initial_world in
  red_stack w' = red_stack initial_world /\
  thread_running w' = thread_running initial_world /\
  transfers w' = transfers initial_world /\
  trace w' = trace initial_world ++
    (if header_uid (request_for 5) =? 0 then []
     else [EvLog (ErrUnknownUid (header_uid (request_for 5)))]).
Proof.
  split; [reflexivity|].
  exact (no_slaves_requests_dropped (request_for 5) initial_world eq_refl).
Defined.

Section Silent.

Variable spi : nat -> nat -> list Z -> Z * list Z.
Variable stack_garbage : nat -> Packet.

(** The send phase when none of the ten transfers returns a frame. *)
Lemma send_phase_exhausted (i : nat) (w : World) (tries : nat) (packet : Packet)
    (w1 : World) :
  send_phase spi stack_garbage i w = (tries, packet, w1) ->
  addressed i w ->
  (forall k, (k < RED_STACK_SPI_ROUTING_TRIES)%nat ->
     send_ok spi (transfers w + k) i = false) ->
  tries = RED_STACK_SPI_ROUTING_TRIES /\
  transfers w1 = (transfers w + RED_STACK_SPI_ROUTING_TRIES)%nat /\
  sleeps (trace w1) = (sleeps (trace w) + RED_STACK_SPI_ROUTING_TRIES)%nat.
Proof.
  unfold send_phase. intros E (Hi & Ha) Hfail.
  set (w0 := set_slave w i _) in E.
  assert (Hs : sending i w0).
  { unfold sending, status_at, w0, set_slave, with_stack. cbn [red_stack].
    rewrite slave_at_insert, decide_True by done.
    cbn [slaves with_slaves]. by rewrite length_insert. }
  pose proof (routing_tries_cost spi _ _ _ _ _ _ _ _ _ _ E) as (_ & _ & C).
  apply (routing_tries_first spi (Some enumerate_request) data_send i
           (sending i) (fun t => send_ok spi t i)
           (sending_events i) (fun p0 w2 r p1 w3 => send_try spi i p0 w2 r p1 w3))
    in E as (E1 & E2 & E3 & E4); [|done].
  change (transfers w0) with (transfers w) in *.
  change (trace w0) with (trace w) in *.
  rewrite !Nat.sub_0_r in *.
  assert (tries = RED_STACK_SPI_ROUTING_TRIES) as ->.
  { destruct (decide (tries < RED_STACK_SPI_ROUTING_TRIES)%nat) as [Hlt|Hge]; [|lia].
    rewrite Hfail in E3 by done. by specialize (E3 Hlt). }
  split; [done|]. split; [|done]. rewrite E4. unfold RED_STACK_SPI_ROUTING_TRIES. lia.
Qed.

(** X20: a stack on which the first slave never takes the enumerate request.
    When the first ten transfers all fail, the discovery ends after these
    ten transfers and ten sleeps with no slave, the slave table is as
    [red_stack_init_spi] set it up, and the thread leaves without starting
    to poll. *)
Theorem silent_stack_no_thread (w0 : World) :
  before_discovery w0 ->
  (forall k, (k < RED_STACK_SPI_ROUTING_TRIES)%nat -> send_ok spi k 0 = false) ->
  let w := red_stack_spi_thread_start spi stack_garbage w0 in
  slave_num (red_stack w) = 0%nat /\
  thread_running w = false /\
  slaves (red_stack w) = slaves (red_stack initial_world) /\
  packet_to_spi_queue (red_stack w) = [] /\
  transfers w = RED_STACK_SPI_ROUTING_TRIES /\
  sleeps (trace w) = RED_STACK_SPI_ROUTING_TRIES.
Proof.
  intros Hbd Hfail.
  destruct (before_discovery_inv w0 Hbd) as (Hs & Hr & _).
  destruct (before_discovery_cost w0 Hbd) as (T0 & S0).
  unfold red_stack_spi_thread_start, red_stack_spi_create_routing_table. cbv zeta.
  set (start := with_events w0 [EvLog DbgOther]).
  assert (Hlen : (0 < length (slaves (red_stack start)))%nat).
  { unfold start. cbn [red_stack with_events]. rewrite Hs. simpl. lia. }
  assert (Hinit : forall j, (j < RED_STACK_SPI_MAX_SLAVES)%nat ->
                    slave_at (red_stack start) j = initial_slave j).
  { intros j Hj. unfold start. cbn [red_stack with_events]. rewrite Hs.
    by apply initial_slave_at. }
  destruct (send_phase spi stack_garbage 0 start) as [[tries p1] w1] eqn:E1.
  destruct (send_phase_effect _ _ _ _ _ _ _ E1 Hlen
              (Hinit 0%nat ltac:(unfold RED_STACK_SPI_MAX_SLAVES; lia)))
    as (S1 & P1 & _).
  pose proof E1 as E.
  apply send_phase_exhausted in E as (-> & E2 & E3); cycle 1.
  { split; [done|]. by rewrite Hinit by (unfold RED_STACK_SPI_MAX_SLAVES; lia). }
  { intros k Hk. change (transfers start) with (transfers w0). rewrite T0.
    by apply Hfail. }
  destruct S1 as (L1 & O1 & N1 & Q1 & R1 & _).
  assert (Hi1 : (0 < length (slaves (red_stack w1)))%nat) by lia.
  destruct (give_up_effect 0 w1 Hi1 P1) as ((L2 & O2 & _) & A2).
  set (w2 := set_slave w1 0 _) in *.
  assert (HL : routing_loop spi stack_garbage RED_STACK_SPI_MAX_SLAVES 0 start
               = (0%nat, w2)).
  { change RED_STACK_SPI_MAX_SLAVES with 8%nat. cbn [routing_loop].
    unfold routing_round. rewrite E1. by rewrite Nat.eqb_refl. }
  rewrite HL.
  cbn [red_stack with_events with_stack slave_num Nat.eqb thread_running transfers
       trace slaves packet_to_spi_queue].
  split; [done|]. split.
  { change (thread_running w2) with (thread_running w1). by rewrite R1. }
  split; [|split; [|split]].
  - apply (nth_ext _ _ null_slave null_slave).
    + rewrite L2, L1. unfold start. cbn [red_stack with_events]. by rewrite Hs.
    + intros j Hj. fold (slave_at (red_stack w2) j).
      fold (slave_at (red_stack initial_world) j).
      assert (Hj8 : (j < RED_STACK_SPI_MAX_SLAVES)%nat).
      { rewrite L2, L1 in Hj. unfold start in Hj. cbn [red_stack with_events] in Hj.
        rewrite Hs in Hj. simpl in Hj. unfold RED_STACK_SPI_MAX_SLAVES. lia. }
      rewrite initial_slave_at by done.
      destruct (decide (j = 0%nat)) as [->|Hne]; [done|].
      rewrite O2, O1 by done. by apply Hinit.
  - change (packet_to_spi_queue (red_stack w2)) with (packet_to_spi_queue (red_stack w1)).
    rewrite Q1. unfold start. cbn [red_stack with_events]. by rewrite Hs.
  - change (transfers w2) with (transfers w1). rewrite E2.
    change (transfers start) with (transfers w0). by rewrite T0.
  - change (trace w2) with (trace w1). rewrite !sleeps_app, E3.
    unfold start. cbn [trace with_events]. rewrite sleeps_app, S0.
    change (sleeps [EvLog DbgOther]) with 0%nat. lia.
Qed.

End Silent.

Lemma silent_device_fails (k : nat) :
  (k < RED_STACK_SPI_ROUTING_TRIES)%nat -> send_ok silent_device k 0 = false.
Proof. done. Qed.

Lemma silent_stack_no_thread_witness :
  before_discovery initial_world /\
  (forall k, (k < RED_STACK_SPI_ROUTING_TRIES)%nat ->
     send_ok silent_device k 0 = false) /\
  let w := red_stack_spi_thread_start silent_device some_garbage initial_world in
  slave_num (red_stack w) = 0%nat /\
  thread_running w = false /\
  slaves (red_stack w) = slaves (red_stack initial_world) /\
  packet_to_spi_queue (red_stack w) = [] /\
  transfers w = RED_STACK_SPI_ROUTING_TRIES /\
  sleeps (trace w) = RED_STACK_SPI_ROUTING_TRIES.
Proof.
  split; [exact bd_init|]. split; [exact silent_device_fails|].
  exact (silent_stack_no_thread silent_device some_garbage initial_world
           bd_init silent_device_fails).
Defined.
(** ** A response on its way to the event loop *)



Section Response.

Variable spi : nat -> nat -> list Z -> Z * list Z.


End Response.

(** ** A request on its way to the slave *)

Section Request.

Variable spi : nat -> nat -> list Z -> Z * list Z.

(** X22: a round whose work item is for an available slave and holds a
    request of a declared length within the budget.  The thread sends the
    frame built from the declared bytes of the request with info byte 0,
    and takes the item off the queue exactly if the transfer returns 84
    bytes, whatever the slave answers; otherwise the item stays at the head
    of the queue for the next round. *)
Theorem request_round_sends (w : World) (item : REDStackPacket)
    (rest : list REDStackPacket) :
  packet_to_spi_queue (red_stack w) = item :: rest ->
  let slave := slave_at (red_stack w) (rsp_slave item) in
  let request := rsp_packet item in
  status slave = RED_STACK_SLAVE_STATUS_AVAILABLE ->
  packet_ok request -> header_length request <= sizeof_Packet ->
  let tx := spec_build (take (Z.to_nat (header_length request)) request) 0 in
  let sent := u8 (spi (transfers w) (stack_address slave) tx).1
              =? RED_STACK_SPI_PACKET_SIZE in
  let w' := red_stack_spi_thread_round spi w in
  packet_to_spi_queue (red_stack w') = (if sent then rest else item :: rest) /\
  slave_num (red_stack w') = slave_num (red_stack w) /\
  exists es,
    trace w' = trace w ++
      EvLog DbgOther ::
      EvExchange (slave_select_pin slave) (stack_address slave)
                 RED_STACK_SLAVE_STATUS_AVAILABLE tx :: es.
Proof.
  intros Hq slave request Hst Hok Hle tx sent w'.
  destruct (thread_round_item spi w item rest Hq) as (Q & _ & N & T).
  fold slave request in Q, T. fold w' in Q, N, T.
  set (r := red_stack_spi_transceive_message _ _ _ _) in *.
  assert (Htx : tr_tx r = Some tx).
  { subst r. rewrite transceive_message_tx. by apply transceive_tx_request. }
  assert (Hds : data_send (tr_retval r) = sent).
  { pose proof (transceive_message_send_fields
                  (spi (transfers w) (stack_address slave)) (Some request)
                  (replicate (Z.to_nat sizeof_Packet) 0) slave) as Hs.
    cbv zeta in Hs. fold r in Hs.
    pose proof (transceive_tx_request request slave Hst Hok Hle) as Ht.
    destruct (fill_tx_sendable request slave Hst Hle) as (tx0 & Hfill).
    unfold transceive_tx in Ht. rewrite Hfill in Hs, Ht. simpl in Ht.
    injection Ht as Ht. rewrite Ht in Hs. fold tx in Hs. fold sent in Hs.
    destruct sent; [by destruct Hs as [-> _]|by rewrite Hs]. }
  rewrite Hds in Q. rewrite Htx in T. split; [done|]. split; [done|].
  eexists. rewrite T, Hst. cbn [app]. reflexivity.
Qed.

End Request.

Lemma request_round_sends_witness :
  let item := mkREDStackPacket 0 (queued_packet (request_for 2)) in
  let slave := slave_at (red_stack request_world) (rsp_slave item) in
  let request := rsp_packet item in
  packet_to_spi_queue (red_stack request_world) = item :: [] /\
  status slave = RED_STACK_SLAVE_STATUS_AVAILABLE /\
  packet_ok request /\ header_length request <= sizeof_Packet /\
  let tx := spec_build (take (Z.to_nat (header_length request)) request) 0 in
  let sent := u8 (one_slave_device (transfers request_world) (stack_address slave)
                                   tx).1
              =? RED_STACK_SPI_PACKET_SIZE in
  let w' := red_stack_spi_thread_round one_slave_device request_world in
  packet_to_spi_queue (red_stack w') = (if sent then [] else item :: []) /\
  slave_num (red_stack w') = slave_num (red_stack request_world) /\
  exists es,
    trace w' = trace request_world ++
      EvLog DbgOther ::
      EvExchange (slave_select_pin slave) (stack_address slave)
                 RED_STACK_SLAVE_STATUS_AVAILABLE tx :: es.
Proof.
  intros item slave request.
  assert (H1 : packet_to_spi_queue (red_stack request_world) = item :: [])
    by (vm_compute; reflexivity).
  assert (H2 : status slave = RED_STACK_SLAVE_STATUS_AVAILABLE)
    by (vm_compute; reflexivity).
  assert (H3 : packet_ok request).
  { split; [|vm_compute; lia]. apply (bool_decide_unpack _). vm_compute. exact I. }
  assert (H4 : header_length request <= sizeof_Packet) by (vm_compute; discriminate).
  split; [exact H1|]. split; [exact H2|]. split; [exact H3|]. split; [exact H4|].
  exact (request_round_sends one_slave_device request_world item [] H1 H2 H3 H4).
Defined.
(** ** The hand-off *)

Lemma handoff_inv_step (h h' : Handoff) :
  handoff_inv h -> handoff_step h h' -> handoff_inv h'.
Proof.
  unfold handoff_inv. intros I S.
  destruct S as [h p Hp|h p Hp|h b Hp|h n Hp Hn|h n He Hn|h He|h He|h He];
    cbn [spi_pc event_pc pipe_bytes permits staged received delivered];
    try done.
  - rewrite Hp in I. destruct (event_pc h); try done.
  - rewrite Hp in I. destruct (event_pc h); try done.
    destruct I as (? & ? & ->). done.
  - rewrite Hp in I. destruct (event_pc h); try done.
    destruct I as (I1 & I2 & I3). right. rewrite I1. destruct b; split; try done; lia.
  - rewrite Hp in I. destruct (event_pc h); try done.
    + destruct I as [(I1 & I2 & I3)|(I1 & I2 & I3)]; [|congruence].
      split; [done|]. split; [congruence|done].
    + destruct I as (? & ? & ?). congruence.
    + destruct I as (? & ? & ?). congruence.
  - rewrite He in I. destruct (spi_pc h).
    + destruct I as (? & ? & ?). congruence.
    + destruct I as (? & ? & ?). congruence.
    + destruct I as [(I1 & I2 & I3)|(I1 & I2 & I3)]; [congruence|].
      split; [lia|done].
  - rewrite He in I. destruct (spi_pc h); try done.
    destruct I as (I1 & I2 & I3). by rewrite I3.
  - rewrite He in I. destruct (spi_pc h); try done.
    destruct I as (I1 & I2 & I3). left. rewrite I2. done.
Qed.

Lemma handoff_reachable_inv (h : Handoff) : handoff_reachable h -> handoff_inv h.
Proof.
  induction 1 as [|h h' _ IH S]; [done|]. by apply (handoff_inv_step h).
Qed.

(** X23: the buffer is never touched by both threads.  In every state the
    two threads can reach, the event thread is inside
    [red_stack_dispatch_from_spi] past its [pipe_read] only while the SPI
    thread sits in [semaphore_acquire] with no permit to take; while the
    SPI thread is not in [semaphore_acquire] the pipe is empty and there is
    no permit; and the bytes in the pipe and the permits never add up to
    more than one. *)
Theorem handoff_exclusive (h : Handoff) :
  handoff_reachable h ->
  (event_pc h <> EventIdle -> spi_pc h = SpiWaiting /\ permits h = 0%nat) /\
  (spi_pc h <> SpiWaiting ->
   event_pc h = EventIdle /\ pipe_bytes h = 0%nat /\ permits h = 0%nat) /\
  (pipe_bytes h + permits h <= 1)%nat.
Proof.
  intros H. apply handoff_reachable_inv in H. unfold handoff_inv in H.
  destruct (spi_pc h), (event_pc h); try done;
    try (destruct H as (H1 & H2 & H3); rewrite H1, H2; repeat split; done || lia).
  destruct H as [(H1 & H2 & H3)|(H1 & H2 & H3)]; rewrite ?H1, H2;
    repeat split; try done; lia.
Qed.

(** X24: the responses reach the event loop in the order they were
    received, each at most once, and at most one is outstanding: the
    packets delivered are the packets received, or all but the last one,
    which is then the packet in the buffer. *)
Theorem handoff_in_order (h : Handoff) :
  handoff_reachable h ->
  delivered h = received h \/ received h = delivered h ++ [staged h].
Proof.
  intros H. apply handoff_reachable_inv in H. unfold handoff_inv in H.
  destruct (spi_pc h), (event_pc h); try done;
    try (destruct H as (H1 & H2 & H3); by auto).
  destruct H as [(H1 & H2 & H3)|(H1 & H2 & H3)]; auto.
Qed.

Lemma handoff_example_reachable : handoff_reachable handoff_example.
Proof.
  set (p := enumerate_packet).
  set (h1 := mkHandoff SpiNotifying EventIdle 0 0 p [p] []).
  set (h2 := mkHandoff SpiWaiting EventIdle 1 0 p [p] []).
  set (h3 := mkHandoff SpiWaiting EventDeliver 0 0 p [p] []).
  apply (handoff_reachable_step h3);
    [|exact (event_network_dispatch_response h3 eq_refl)].
  apply (handoff_reachable_step h2); [|exact (event_pipe_read h2 0 eq_refl eq_refl)].
  apply (handoff_reachable_step h1); [|exact (spi_pipe_write h1 true eq_refl)].
  apply (handoff_reachable_step handoff_start);
    [|exact (spi_round_received handoff_start p eq_refl)].
  apply handoff_reachable_start.
Qed.

Lemma handoff_exclusive_witness :
  handoff_reachable handoff_example /\
  (event_pc handoff_example <> EventIdle ->
   spi_pc handoff_example = SpiWaiting /\ permits handoff_example = 0%nat) /\
  (spi_pc handoff_example <> SpiWaiting ->
   event_pc handoff_example = EventIdle /\ pipe_bytes handoff_example = 0%nat /\
   permits handoff_example = 0%nat) /\
  (pipe_bytes handoff_example + permits handoff_example <= 1)%nat.
Proof.
  split; [exact handoff_example_reachable|].
  exact (handoff_exclusive handoff_example handoff_example_reachable).
Defined.

Lemma handoff_in_order_witness :
  handoff_reachable handoff_example /\
  (delivered handoff_example = received handoff_example \/
   received handoff_example = delivered handoff_example ++ [staged handoff_example]).
Proof.
  split; [exact handoff_example_reachable|].
  exact (handoff_in_order handoff_example handoff_example_reachable).
Defined.

(** X25: a notification that is lost is never made up for.  The thread
    ignores the value [red_stack_spi_request_dispatch_response_event]
    returns: when the SPI thread sits in [semaphore_acquire] and there is
    neither a byte in the pipe nor a permit, no step of either thread
    changes the state any more, so the thread stays there and the response
    in the buffer is not delivered. *)
Theorem lost_notification_parks_thread (h h' : Handoff) :
  spi_pc h = SpiWaiting -> event_pc h = EventIdle ->
  pipe_bytes h = 0%nat -> permits h = 0%nat ->
  handoff_steps h h' -> h' = h.
Proof.
  intros Hs He Hp Hn H.
  induction H as [h|h h1 h2 S _ IH]; [done|].
  assert (h1 = h) as ->; [|by apply IH].
  destruct S; try done; congruence.
Qed.

Lemma lost_notification_parks_thread_witness :
  handoff_reachable handoff_unnotified /\
  spi_pc handoff_unnotified = SpiWaiting /\
  event_pc handoff_unnotified = EventIdle /\
  pipe_bytes handoff_unnotified = 0%nat /\ permits handoff_unnotified = 0%nat /\
  handoff_steps handoff_unnotified handoff_unnotified /\
  handoff_unnotified = handoff_unnotified.
Proof.
  set (p := enumerate_packet).
  set (h1 := mkHandoff SpiNotifying EventIdle 0 0 p [p] []).
  split.
  { apply (handoff_reachable_step h1); [|exact (spi_pipe_write h1 false eq_refl)].
    apply (handoff_reachable_step handoff_start);
      [|exact (spi_round_received handoff_start p eq_refl)].
    apply handoff_reachable_start. }
  assert (R : handoff_steps handoff_unnotified handoff_unnotified).
  { apply (handoff_steps_step _ handoff_unnotified); [|apply handoff_steps_refl].
    exact (event_pipe_read_fails handoff_unnotified eq_refl). }
  split; [reflexivity|]. split; [reflexivity|]. split; [reflexivity|].
  split; [reflexivity|]. split; [exact R|].
  exact (lost_notification_parks_thread handoff_unnotified handoff_unnotified
           eq_refl eq_refl eq_refl eq_refl R).
Defined.
